(** * SignatureValidator: canonicalisation, HMAC-SHA256 signing and validation

    A shallow embedding of [src/app/utils/signature-validator.ts] together
    with the parts of the JavaScript runtime and of Node's [crypto] module the
    class calls, of the statements of [src/app/api/payment/create/route.ts]
    that sign a request, and the properties of the signing protocol proved
    over them.

    Scope of the model.
    - Parameter values are the JSON-like values the class inspects:
      [undefined], [null], booleans, numbers, strings, arrays without holes and
      plain objects.  Values with a [toJSON] method, BigInts, symbols and
      functions are outside it.
    - Strings are sequences of UTF-16 code units, as in JavaScript, so that
      unpaired surrogates exist.
    - A number value is carried as the decimal m / 10^s that
      [Number::toString] prints for it.  Arithmetic is done on the double
      the decimal reads as: subtraction rounds to the nearest double, ties
      to even, as IEEE 754 does.
    - An object is the list of its own properties in creation order; the
      order of enumeration is computed from it.  The parameter objects are
      as [JSON.parse] or an object literal creates them: their prototype is
      [Object.prototype], and [__proto__] may be one of their own keys.
      The objects the class creates with [{}] inherit the accessor
      [__proto__]: the assignment [o[k] = v] defines or updates an own data
      property for every other key, and none for this one.
    - A call returns a value or throws; the only state a call reads is the
      clock, [Date.now()].  What [console.error] prints is not modelled. *)

From Stdlib Require Import ZArith NArith List String Ascii Lia Bool.
From Stdlib Require Import Permutation DecimalN Sorted.
From stdpp Require Import base decidable option list gmap sorting.

Local Open Scope N_scope.

(** ** Completion records: a call either returns or throws *)

Inductive JsError : Type :=
| URIError          (* encodeURIComponent: "URI malformed" *)
| RangeError        (* crypto.timingSafeEqual: byte lengths differ *)
| TypeError         (* String: an object with no primitive value *)
| Error (message : string).

Inductive Result (A : Type) : Type :=
| Ok (a : A)
| Throw (e : JsError).
Arguments Ok {A} a.
Arguments Throw {A} e.

Definition bind {A B} (r : Result A) (k : A → Result B) : Result B :=
  match r with
  | Ok a => k a
  | Throw e => Throw e
  end.

Notation "'let*' x := r 'in' k" := (bind r (fun x => k))
  (at level 10, x name, r at level 100, k at level 200).

(** [try { body } catch (error) { handler }] *)
Definition try_catch {A} (body : Result A) (handler : JsError → Result A) : Result A :=
  match body with
  | Ok a => Ok a
  | Throw e => handler e
  end.

(** [array.map(f)] with a callback that may throw: the first exception, in
    index order, ends the call. *)
Fixpoint mapM {A B} (f : A → Result B) (l : list A) : Result (list B) :=
  match l with
  | [] => Ok []
  | x :: l' => let* y := f x in let* ys := mapM f l' in Ok (y :: ys)
  end.

(** ** Strings: sequences of UTF-16 code units *)

Abbreviation JsString := (list N).

(** An ASCII literal as a JavaScript string. *)
Definition js (s : string) : JsString :=
  List.map N_of_ascii (list_ascii_of_string s).
Arguments js : simpl never.

Definition in_range (lo hi c : N) : bool := (lo <=? c) && (c <=? hi).

Definition is_high_surrogate (c : N) : bool := in_range 0xD800 0xDBFF c.
Definition is_low_surrogate (c : N) : bool := in_range 0xDC00 0xDFFF c.

(** The code point of a surrogate pair. *)
Definition pair_code_point (hi lo : N) : N :=
  (hi - 0xD800) * 0x400 + (lo - 0xDC00) + 0x10000.

(** [array.join(sep)] on strings. *)
Fixpoint join (sep : JsString) (parts : list JsString) : JsString :=
  match parts with
  | [] => []
  | [p] => p
  | p :: rest => p ++ sep ++ join sep rest
  end.

(** Code-unit order, the order of [<] on strings and of [Array.prototype.sort]
    without a comparator. *)
Fixpoint str_ltb (a b : JsString) : bool :=
  match a, b with
  | _, [] => false
  | [], _ :: _ => true
  | x :: a', y :: b' => (x <? y) || ((x =? y) && str_ltb a' b')
  end.

(** ** Bytes, UTF-8 and hexadecimal digits *)

(** The UTF-8 octets of a code point (a Unicode scalar value). *)
Definition utf8_octets (cp : N) : list N :=
  if cp <? 0x80 then [cp]
  else if cp <? 0x800 then
    [0xC0 + cp / 0x40; 0x80 + cp mod 0x40]
  else if cp <? 0x10000 then
    [0xE0 + cp / 0x1000; 0x80 + (cp / 0x40) mod 0x40; 0x80 + cp mod 0x40]
  else
    [0xF0 + cp / 0x40000; 0x80 + (cp / 0x1000) mod 0x40;
     0x80 + (cp / 0x40) mod 0x40; 0x80 + cp mod 0x40].

(** [Buffer.from(string)], also the conversion [createHmac] and [update]
    apply to a string: UTF-8, an unpaired surrogate becoming U+FFFD. *)
Fixpoint Buffer_from (s : JsString) : list N :=
  match s with
  | [] => []
  | c :: rest =>
    if is_high_surrogate c then
      match rest with
      | d :: rest' =>
        if is_low_surrogate d
        then utf8_octets (pair_code_point c d) ++ Buffer_from rest'
        else utf8_octets 0xFFFD ++ Buffer_from rest
      | [] => utf8_octets 0xFFFD
      end
    else if is_low_surrogate c then utf8_octets 0xFFFD ++ Buffer_from rest
    else utf8_octets c ++ Buffer_from rest
  end.

Definition hex_digit (upper : bool) (n : N) : N :=
  let d := n mod 16 in
  if d <? 10 then 0x30 + d
  else if upper then 0x41 + (d - 10) else 0x61 + (d - 10).

(** Two hexadecimal digits of an octet. *)
Definition hex_octet (upper : bool) (b : N) : JsString :=
  [hex_digit upper (b / 16); hex_digit upper b].

(** ** SHA-256 and HMAC (FIPS 180-4, RFC 2104), as Node's [crypto] computes them *)

Module SHA256.

Definition w32 (x : N) : N := x mod 0x100000000.
Definition add (x y : N) : N := w32 (x + y).
Definition rotr (n x : N) : N :=
  N.lor (N.shiftr x n) (w32 (N.shiftl x (32 - n))).
Definition shr (n x : N) : N := N.shiftr x n.
Definition lnot32 (x : N) : N := N.lxor x 0xFFFFFFFF.

Definition Ch (x y z : N) : N := N.lxor (N.land x y) (N.land (lnot32 x) z).
Definition Maj (x y z : N) : N :=
  N.lxor (N.lxor (N.land x y) (N.land x z)) (N.land y z).
Definition Sigma0 x := N.lxor (N.lxor (rotr 2 x) (rotr 13 x)) (rotr 22 x).
Definition Sigma1 x := N.lxor (N.lxor (rotr 6 x) (rotr 11 x)) (rotr 25 x).
Definition sigma0 x := N.lxor (N.lxor (rotr 7 x) (rotr 18 x)) (shr 3 x).
Definition sigma1 x := N.lxor (N.lxor (rotr 17 x) (rotr 19 x)) (shr 10 x).

Definition is_prime (n : N) : bool :=
  (1 <? n)
  && forallb (fun d => negb (n mod N.of_nat d =? 0)) (seq 2 (N.to_nat n - 2)).

(** The first [count] primes, for [count <= 64]. *)
Definition primes (count : nat) : list N :=
  firstn count (List.filter is_prime (List.map N.of_nat (seq 2 310))).

(** The integer cube root, one bit at a time from bit [bits - 1] down. *)
Fixpoint cube_root (bits : nat) (n acc : N) : N :=
  match bits with
  | O => acc
  | S bits' =>
    let candidate := acc + 2 ^ N.of_nat bits' in
    if candidate ^ 3 <=? n then cube_root bits' n candidate
    else cube_root bits' n acc
  end.

(** The round constants: the first 32 bits of the fractional parts of the
    cube roots of the first 64 primes (FIPS 180-4, 4.2.2). *)
Definition K : list N :=
  Eval vm_compute in
    List.map (fun p => w32 (cube_root 36 (p * 2 ^ 96) 0)) (primes 64).

(** The eight working words a..h, also the running hash value. *)
Record state : Type := State { sa : N; sb : N; sc : N; sd : N;
                               se : N; sf : N; sg : N; sh : N }.

(** The initial hash value: the first 32 bits of the fractional parts of
    the square roots of the first 8 primes (FIPS 180-4, 5.3.3). *)
Definition initial_word (i : nat) : N :=
  w32 (N.sqrt (nth i (primes 8) 0 * 2 ^ 64)).

Definition H0 : state :=
  Eval vm_compute in
    State (initial_word 0) (initial_word 1) (initial_word 2) (initial_word 3)
          (initial_word 4) (initial_word 5) (initial_word 6) (initial_word 7).

(** The [count] low octets of [x], big-endian. *)
Definition be_octets (count : nat) (x : N) : list N :=
  List.map (fun i => (x / 256 ^ N.of_nat i) mod 256) (rev (seq 0 count)).

(** Padding: the bit 1, zeros up to 56 mod 64 octets, the bit length on
    eight octets. *)
Definition pad (msg : list N) : list N :=
  let len := N.of_nat (length msg) in
  let zeros := N.to_nat ((119 - len mod 64) mod 64) in
  msg ++ 0x80 :: repeat 0 zeros ++ be_octets 8 (8 * len).

Fixpoint be_words (octets : list N) : list N :=
  match octets with
  | b0 :: b1 :: b2 :: b3 :: rest =>
    (((b0 * 256 + b1) * 256 + b2) * 256 + b3) :: be_words rest
  | _ => []
  end.

(** The first [count] blocks of sixteen words. *)
Fixpoint blocks (count : nat) (words : list N) : list (list N) :=
  match count with
  | O => []
  | S count' => firstn 16 words :: blocks count' (skipn 16 words)
  end.

(** The message schedule, kept newest-first: [extend n sched] adds
    W(t) for the next [n] indices. *)
Fixpoint extend (n : nat) (sched : list N) : list N :=
  match n with
  | O => sched
  | S n' =>
    let wt := add (add (sigma1 (nth 1 sched 0)) (nth 6 sched 0))
                  (add (sigma0 (nth 14 sched 0)) (nth 15 sched 0)) in
    extend n' (wt :: sched)
  end.

Definition schedule (block : list N) : list N :=
  rev (extend 48 (rev block)).

Definition round (s : state) (kw : N * N) : state :=
  let '(k, w) := kw in
  let t1 := add (add (add (sh s) (Sigma1 (se s))) (Ch (se s) (sf s) (sg s)))
                (add k w) in
  let t2 := add (Sigma0 (sa s)) (Maj (sa s) (sb s) (sc s)) in
  State (add t1 t2) (sa s) (sb s) (sc s) (add (sd s) t1) (se s) (sf s) (sg s).

Definition compress (h : state) (block : list N) : state :=
  let s := fold_left round (combine K (schedule block)) h in
  State (add (sa h) (sa s)) (add (sb h) (sb s)) (add (sc h) (sc s))
        (add (sd h) (sd s)) (add (se h) (se s)) (add (sf h) (sf s))
        (add (sg h) (sg s)) (add (sh h) (sh s)).

Definition state_octets (s : state) : list N :=
  be_octets 4 (sa s) ++ be_octets 4 (sb s) ++ be_octets 4 (sc s) ++
  be_octets 4 (sd s) ++ be_octets 4 (se s) ++ be_octets 4 (sf s) ++
  be_octets 4 (sg s) ++ be_octets 4 (sh s).

Definition digest (msg : list N) : list N :=
  let words := be_words (pad msg) in
  state_octets (fold_left compress (blocks (length words / 16) words) H0).

Definition xor_pad (c : N) (key : list N) : list N :=
  List.map (N.lxor c) key.

(** HMAC with SHA-256: block size 64, a longer key is hashed first. *)
Definition hmac (key msg : list N) : list N :=
  let key0 := if (64 <? length key)%nat then digest key else key in
  let key1 := key0 ++ repeat 0 (64 - length key0)%nat in
  digest (xor_pad 0x5c key1 ++ digest (xor_pad 0x36 key1 ++ msg)).

End SHA256.

(** [crypto.createHmac('sha256', key).update(data).digest('hex')] *)
Definition createHmac_sha256_hex (key data : JsString) : JsString :=
  List.concat (List.map (hex_octet false)
                        (SHA256.hmac (Buffer_from key) (Buffer_from data))).

(** ** Numbers *)

(** [Finite m s] is the number m / 10^s. *)
Inductive JsNumber : Type :=
| NaN
| Infinity (negative : bool)
| Finite (m : Z) (s : nat).

Definition is_finite (x : JsNumber) : bool :=
  match x with Finite _ _ => true | _ => false end.

Definition pow10 (n : nat) : Z := (10 ^ Z.of_nat n)%Z.

(** A double, the value arithmetic works on: [DFinite m e] is m * 2^e,
    with |m| < 2^53 and -1074 <= e <= 971.  The sign of a zero is not
    kept: no operation of the validator tells the two zeros apart. *)
Inductive Double : Type :=
| DNaN
| DInfinity (negative : bool)
| DFinite (m : Z) (e : Z).

(** n / d rounded to the nearest integer, a tie to the even one. *)
Definition round_half_even (n d : Z) : Z :=
  let f := (n / d)%Z in
  let r := (n mod d)%Z in
  if (2 * r <? d)%Z then f
  else if (d <? 2 * r)%Z then (f + 1)%Z
  else if Z.even f then f else (f + 1)%Z.

(** The fraction (a / q) / 2^e, as a numerator and a denominator. *)
Definition scale (a q e : Z) : Z * Z :=
  if (0 <=? e)%Z then (a, q * 2 ^ e)%Z else (a * 2 ^ (- e), q)%Z.

(** The exponent of the double nearest to a / q, for a, q > 0: the e at
    which (a / q) / 2^e has 53 bits, and -1074 where that would be lower
    (the value is subnormal). *)
Definition double_exponent (a q : Z) : Z :=
  let e0 := (Z.log2 a - Z.log2 q - 52)%Z in
  let '(n, d) := scale a q e0 in
  Z.max (if (n / d <? 2 ^ 52)%Z then e0 - 1 else e0)%Z (-1074).

(** The double of sign [negative], significand [f] and exponent [e]; an
    infinity beyond the largest exponent. *)
Definition make_double (negative : bool) (f e : Z) : Double :=
  if (971 <? e)%Z then DInfinity negative
  else DFinite (if negative then - f else f)%Z e.

(** The double nearest to the rational p / q, for q > 0 (IEEE 754
    binary64, roundTiesToEven). *)
Definition round_to_double (p q : Z) : Double :=
  if (p =? 0)%Z then DFinite 0 0 else
  let a := Z.abs p in
  let e := double_exponent a q in
  let '(n, d) := scale a q e in
  let f := round_half_even n d in
  if (f =? 2 ^ 53)%Z then make_double (p <? 0)%Z (2 ^ 52) (e + 1)
  else make_double (p <? 0)%Z f e.

(** The double a number value is: the one its decimal reads as. *)
Definition ToDouble (x : JsNumber) : Double :=
  match x with
  | NaN => DNaN
  | Infinity negative => DInfinity negative
  | Finite m s => round_to_double m (pow10 s)
  end.

Definition isNaN (x : Double) : bool :=
  match x with DNaN => true | _ => false end.

(** [x - y]: the exact difference, rounded. *)
Definition Number_subtract (x y : Double) : Double :=
  match x, y with
  | DNaN, _ | _, DNaN => DNaN
  | DInfinity a, DInfinity b => if Bool.eqb a b then DNaN else DInfinity a
  | DInfinity a, DFinite _ _ => DInfinity a
  | DFinite _ _, DInfinity b => DInfinity (negb b)
  | DFinite m e, DFinite m' e' =>
    let e0 := Z.min e e' in
    let d := (m * 2 ^ (e - e0) - m' * 2 ^ (e' - e0))%Z in
    if (0 <=? e0)%Z then round_to_double (d * 2 ^ e0) 1
    else round_to_double d (2 ^ (- e0))
  end.

Definition Math_abs (x : Double) : Double :=
  match x with
  | DNaN => DNaN
  | DInfinity _ => DInfinity false
  | DFinite m e => DFinite (Z.abs m) e
  end.

(** [x <= y] *)
Definition Number_le (x y : Double) : bool :=
  match x, y with
  | DNaN, _ | _, DNaN => false
  | DInfinity a, DInfinity b => a || negb b
  | DInfinity a, DFinite _ _ => a
  | DFinite _ _, DInfinity b => negb b
  | DFinite m e, DFinite m' e' =>
    let e0 := Z.min e e' in
    (m * 2 ^ (e - e0) <=? m' * 2 ^ (e' - e0))%Z
  end.

Fixpoint uint_units (d : Decimal.uint) : JsString :=
  match d with
  | Decimal.Nil => []
  | Decimal.D0 d' => 0x30 :: uint_units d'
  | Decimal.D1 d' => 0x31 :: uint_units d'
  | Decimal.D2 d' => 0x32 :: uint_units d'
  | Decimal.D3 d' => 0x33 :: uint_units d'
  | Decimal.D4 d' => 0x34 :: uint_units d'
  | Decimal.D5 d' => 0x35 :: uint_units d'
  | Decimal.D6 d' => 0x36 :: uint_units d'
  | Decimal.D7 d' => 0x37 :: uint_units d'
  | Decimal.D8 d' => 0x38 :: uint_units d'
  | Decimal.D9 d' => 0x39 :: uint_units d'
  end.

(** The decimal digits of a natural number, most significant first. *)
Definition decimal_digits (n : N) : JsString := uint_units (N.to_uint n).

Definition is_zero_digit (c : N) : bool := c =? 0x30.

Fixpoint drop_while {A} (p : A → bool) (l : list A) : list A :=
  match l with
  | x :: l' => if p x then drop_while p l' else l
  | [] => []
  end.

Definition strip_trailing_zeros (digits : JsString) : JsString :=
  rev (drop_while is_zero_digit (rev digits)).

(** [Number::toString(x)], radix 10 (ECMA-262 6.1.6.1.20): with s the
    digits of x without trailing zeros, k their count and n the position of
    the decimal point, plain notation for -6 < n <= 21 and exponent notation
    otherwise. *)
Definition Number_toString (x : JsNumber) : JsString :=
  match x with
  | NaN => js "NaN"
  | Infinity negative => (if negative then js "-" else []) ++ js "Infinity"
  | Finite m sc =>
    if (m =? 0)%Z then js "0" else
    let all_digits := decimal_digits (Z.to_N (Z.abs m)) in
    let s := strip_trailing_zeros all_digits in
    let k := Z.of_nat (length s) in
    let n := (Z.of_nat (length all_digits) - Z.of_nat sc)%Z in
    (if (m <? 0)%Z then js "-" else []) ++
    (if (k <=? n)%Z && (n <=? 21)%Z then
       s ++ repeat 0x30 (Z.to_nat (n - k))
     else if (0 <? n)%Z && (n <=? 21)%Z then
       firstn (Z.to_nat n) s ++ js "." ++ skipn (Z.to_nat n) s
     else if (-6 <? n)%Z && (n <=? 0)%Z then
       js "0." ++ repeat 0x30 (Z.to_nat (- n)) ++ s
     else
       let e := (n - 1)%Z in
       (match s with
        | [d] => [d]
        | d :: ds => d :: js "." ++ ds
        | [] => []
        end) ++ js "e" ++ (if (e <? 0)%Z then js "-" else js "+") ++
       decimal_digits (Z.to_N (Z.abs e)))
  end.

(** ** Values *)

Local Unset Elimination Schemes.
Inductive JsValue : Type :=
| VUndefined
| VNull
| VBoolean (b : bool)
| VNumber (x : JsNumber)
| VString (s : JsString)
| VArray (items : list JsValue)
| VObject (props : list (JsString * JsValue)).
Local Set Elimination Schemes.

(** A plain object: its own properties in creation order. *)
Abbreviation Props := (list (JsString * JsValue)).

(** [ToBoolean], the test of [if (v)] and of [!v]. *)
Definition ToBoolean (v : JsValue) : bool :=
  match v with
  | VUndefined | VNull => false
  | VBoolean b => b
  | VNumber NaN => false
  | VNumber (Infinity _) => true
  | VNumber (Finite m _) => negb (m =? 0)%Z
  | VString s => negb (bool_decide (s = []))
  | VArray _ | VObject _ => true
  end.

(** [String(v)]: an array prints its elements joined by commas, [null] and
    [undefined] elements as nothing; a plain object prints as
    [[object Object]]. *)
Fixpoint ToString (v : JsValue) : JsString :=
  match v with
  | VUndefined => js "undefined"
  | VNull => js "null"
  | VBoolean b => if b then js "true" else js "false"
  | VNumber x => Number_toString x
  | VString s => s
  | VArray items =>
    join (js ",")
         (List.map (fun item => match item with
                                | VUndefined | VNull => []
                                | _ => ToString item
                                end) items)
  | VObject _ => js "[object Object]"
  end.

(** [String(v)] raises TypeError on a plain object with an own property
    [toString]: the property hides the inherited method and is no function,
    and [valueOf] gives no primitive.  An array raises when the string of
    one of its elements does. *)
Fixpoint String_raises (v : JsValue) : bool :=
  match v with
  | VArray items => existsb String_raises items
  | VObject props => bool_decide (js "toString" ∈ List.map fst props)
  | _ => false
  end.

Definition String_ (v : JsValue) : Result JsString :=
  if String_raises v then Throw TypeError else Ok (ToString v).

(** ** Objects: own properties and their enumeration order *)

(** [o[k]]: the value of the property, [undefined] when there is none. *)
Fixpoint get_prop (props : Props) (k : JsString) : JsValue :=
  match props with
  | [] => VUndefined
  | (k', v) :: rest => if bool_decide (k' = k) then v else get_prop rest k
  end.

(** The object with the own data property [k] defined as [v]: updated in
    place, or created last.  This is what an object literal, [JSON.parse]
    and [Object.defineProperty] do with any key. *)
Fixpoint set_prop {V} (props : list (JsString * V)) (k : JsString) (v : V)
  : list (JsString * V) :=
  match props with
  | [] => [(k, v)]
  | (k', v') :: rest =>
    if bool_decide (k' = k) then (k, v) :: rest else (k', v') :: set_prop rest k v
  end.

(** [o[k] = v] on an object the class created with [{}].  For the key
    [__proto__] the assignment finds the accessor of [Object.prototype] and
    calls its setter: the prototype of [o] is replaced when [v] is an object
    or [null], and no own property is defined; nothing the class does
    afterwards reads the prototype.  Any other key is defined or updated as an
    own data property. *)
Definition assign_prop {V} (props : list (JsString * V)) (k : JsString) (v : V)
  : list (JsString * V) :=
  if bool_decide (k = js "__proto__") then props else set_prop props k v.

Definition is_digit (c : N) : bool := in_range 0x30 0x39 c.

(** The value of a string of decimal digits. *)
Definition digits_value (digits : JsString) : N :=
  fold_left (fun acc c => 10 * acc + (c - 0x30)) digits 0.

(** An array index: the canonical decimal string of an integer below
    2^32 - 1. *)
Definition array_index (k : JsString) : option N :=
  match k with
  | [] => None
  | c :: rest =>
    if forallb is_digit k && (negb (c =? 0x30) || bool_decide (rest = []))
       && (length k <=? 10)%nat && (digits_value k <? 4294967295)
    then Some (digits_value k) else None
  end.

Definition is_array_index (k : JsString) : bool :=
  match array_index k with Some _ => true | None => false end.

Fixpoint insert_by_index {V} (p : JsString * V) (l : list (JsString * V))
  : list (JsString * V) :=
  match l with
  | [] => [p]
  | q :: l' =>
    if digits_value (fst q) <? digits_value (fst p)
    then q :: insert_by_index p l' else p :: l
  end.

(** [OrdinaryOwnPropertyKeys]: array indices in ascending numeric order,
    then the other string keys in creation order.  This is the order of
    [Object.keys], [Object.entries] and [JSON.stringify]. *)
Definition own_properties {V} (props : list (JsString * V)) : list (JsString * V) :=
  fold_right insert_by_index [] (List.filter (fun p => is_array_index (fst p)) props)
  ++ List.filter (fun p => negb (is_array_index (fst p))) props.

Definition Object_keys (props : Props) : list JsString :=
  List.map fst (own_properties props).

Definition Object_entries (props : Props) : list (JsString * JsValue) :=
  own_properties props.

(** [Array.prototype.sort()] on strings, without a comparator: a stable sort
    by code units. *)
Fixpoint sort_insert (x : JsString) (sorted : list JsString) : list JsString :=
  match sorted with
  | [] => [x]
  | y :: sorted' =>
    if str_ltb y x then y :: sort_insert x sorted' else x :: sorted
  end.

Definition Array_sort (l : list JsString) : list JsString :=
  fold_right sort_insert [] l.

(** ** JSON.stringify *)

(** [UnicodeEscape]: a backslash, u and four lowercase hexadecimal digits. *)
Definition UnicodeEscape (c : N) : JsString :=
  js "\u" ++ [hex_digit false (c / 0x1000); hex_digit false (c / 0x100);
              hex_digit false (c / 0x10); hex_digit false c].

Definition json_escape_unit (c : N) : JsString :=
  if c =? 0x08 then js "\b"
  else if c =? 0x09 then js "\t"
  else if c =? 0x0A then js "\n"
  else if c =? 0x0C then js "\f"
  else if c =? 0x0D then js "\r"
  else if c =? 0x22 then [0x5C; 0x22]
  else if c =? 0x5C then [0x5C; 0x5C]
  else if c <? 0x20 then UnicodeEscape c
  else [c].

(** The body of [QuoteJSONString]: the code points of the string in turn, a
    surrogate pair copied, an unpaired surrogate escaped. *)
Fixpoint json_quote_units (s : JsString) : JsString :=
  match s with
  | [] => []
  | c :: rest =>
    if is_high_surrogate c then
      match rest with
      | d :: rest' =>
        if is_low_surrogate d then c :: d :: json_quote_units rest'
        else UnicodeEscape c ++ json_quote_units rest
      | [] => UnicodeEscape c
      end
    else if is_low_surrogate c then UnicodeEscape c ++ json_quote_units rest
    else json_escape_unit c ++ json_quote_units rest
  end.

Definition QuoteJSONString (s : JsString) : JsString :=
  0x22 :: json_quote_units s ++ [0x22].

(** The members of an object whose value serialises, as [key:value]. *)
Definition json_members (rendered : list (JsString * option JsString))
  : list JsString :=
  List.concat
    (List.map (fun p => match snd p with
                        | Some text => [QuoteJSONString (fst p) ++ js ":" ++ text]
                        | None => []
                        end) rendered).

(** [SerializeJSONProperty] without a replacer or indentation: [None] is
    the result [undefined].  A non-finite number and an [undefined] array
    element print as [null]; a property whose value is [undefined] is
    left out.  Members come in own-property order. *)
Fixpoint SerializeJSONProperty (v : JsValue) : option JsString :=
  match v with
  | VUndefined => None
  | VNull => Some (js "null")
  | VBoolean b => Some (if b then js "true" else js "false")
  | VNumber x => Some (if is_finite x then Number_toString x else js "null")
  | VString s => Some (QuoteJSONString s)
  | VArray items =>
    Some (js "[" ++
          join (js ",")
               (List.map (fun item => match SerializeJSONProperty item with
                                      | Some text => text
                                      | None => js "null"
                                      end) items) ++
          js "]")
  | VObject props =>
    let rendered :=
      List.map (fun p => (fst p, SerializeJSONProperty (snd p))) props in
    Some (js "{" ++ join (js ",") (json_members (own_properties rendered)) ++ js "}")
  end.

Definition JSON_stringify (v : JsValue) : option JsString :=
  SerializeJSONProperty v.

(** ** encodeURIComponent *)

(** [uriUnreserved]: letters, digits and [- _ . ! ~ * ' ( )]. *)
Definition uriUnreserved (c : N) : bool :=
  in_range 0x41 0x5A c || in_range 0x61 0x7A c || in_range 0x30 0x39 c
  || bool_decide (c ∈ js "-_.!~*'()").

(** The UTF-8 octets of a code point, each as [%XX] in uppercase. *)
Definition percent_encode (cp : N) : JsString :=
  List.concat (List.map (fun b => 0x25 :: hex_octet true b) (utf8_octets cp)).

(** [Encode(string, uriUnreserved)] (ECMA-262 19.2.6.5): an unpaired
    surrogate raises URIError. *)
Fixpoint encodeURIComponent (s : JsString) : Result JsString :=
  match s with
  | [] => Ok []
  | c :: rest =>
    if uriUnreserved c then
      let* r := encodeURIComponent rest in Ok (c :: r)
    else if is_low_surrogate c then Throw URIError
    else if is_high_surrogate c then
      match rest with
      | d :: rest' =>
        if is_low_surrogate d then
          let* r := encodeURIComponent rest' in
          Ok (percent_encode (pair_code_point c d) ++ r)
        else Throw URIError
      | [] => Throw URIError
      end
    else
      let* r := encodeURIComponent rest in Ok (percent_encode c ++ r)
  end.

(** ** String.prototype.trim and parseInt *)

(** [WhiteSpace] and [LineTerminator] code points. *)
Definition is_whitespace (c : N) : bool :=
  in_range 0x09 0x0D c || (c =? 0x20) || (c =? 0xA0) || (c =? 0x1680)
  || in_range 0x2000 0x200A c || (c =? 0x2028) || (c =? 0x2029)
  || (c =? 0x202F) || (c =? 0x205F) || (c =? 0x3000) || (c =? 0xFEFF).

Definition String_trim (s : JsString) : JsString :=
  rev (drop_while is_whitespace (rev (drop_while is_whitespace s))).

Fixpoint take_while {A} (p : A → bool) (l : list A) : list A :=
  match l with
  | x :: l' => if p x then x :: take_while p l' else []
  | [] => []
  end.

(** [parseInt(string, 10)]: leading white space, an optional sign, then the
    longest prefix of decimal digits, read as the nearest double; [NaN]
    when there is no digit. *)
Definition parseInt (s : JsString) : Double :=
  let s1 := drop_while is_whitespace s in
  let negative := match s1 with c :: _ => c =? 0x2D | [] => false end in
  let s2 := match s1 with
            | c :: rest => if (c =? 0x2B) || (c =? 0x2D) then rest else s1
            | [] => []
            end in
  match take_while is_digit s2 with
  | [] => DNaN
  | digits =>
    let value := Z.of_N (digits_value digits) in
    round_to_double (if negative then - value else value)%Z 1
  end.

(** ** The clock *)

(** What a call can observe of its environment: the reading of [Date.now()],
    in milliseconds since the epoch. *)
Record World : Type := { Date_now : Z }.

(** [Math.floor(Date.now() / 1000)]: the integer quotient, as a double. *)
Definition currentTime (w : World) : Double :=
  round_to_double (Date_now w / 1000)%Z 1.

(** ** The class SignatureValidator *)

Module SignatureValidator.

Record t : Type := { secret : JsString }.

Definition empty_secret_message : string := "Secret 不能为空!".

(** [constructor(secret)] *)
Definition constructor (secret : JsString) : Result t :=
  if negb (ToBoolean (VString secret))
     || bool_decide (String_trim secret = [])
  then Throw (Error empty_secret_message)
  else Ok {| secret := secret |}.

(** [_isValidValue(value)] *)
Definition _isValidValue (value : JsValue) : bool :=
  match value with
  | VNull | VUndefined => false
  | VString s => negb (bool_decide (s = []))
  | VObject props => negb (length (Object_keys props) =? 0)%nat
  | VArray items => negb (length items =? 0)%nat
  | _ => true
  end.

(** [_sortObjectKeys(obj)].  The recursive calls on the property values are
    made first, so that the recursion is structural; [result[key]] is then
    assigned from them, key by key in sorted order, as [reduce] does. *)
Fixpoint _sortObjectKeys (obj : JsValue) : JsValue :=
  match obj with
  | VArray items => VArray (List.map _sortObjectKeys items)
  | VObject props =>
    let sorted_values :=
      List.map (fun p => (fst p, _sortObjectKeys (snd p))) props in
    VObject
      (fold_left (fun result key =>
                    assign_prop result key (get_prop sorted_values key))
                 (Array_sort (Object_keys props)) [])
  | _ => obj
  end.

(** [_normalizeValue(value)]: [JSON.stringify] for what [typeof] calls an
    object and is not [null], [String] for the rest. *)
Definition _normalizeValue (value : JsValue) : JsString :=
  match value with
  | VArray _ | VObject _ =>
    match JSON_stringify (_sortObjectKeys value) with
    | Some text => text
    | None => ToString VUndefined
    end
  | _ => ToString value
  end.

(** The callback of [sortedKeys.map] in [_buildSignString]: one
    [key=value] part. *)
Definition signPart (params : Props) (key : JsString) : Result JsString :=
  let value := _normalizeValue (get_prop params key) in
  let* encodedKey := encodeURIComponent key in
  let* encodedValue := encodeURIComponent value in
  Ok (encodedKey ++ js "=" ++ encodedValue).

(** [_buildSignString(params)] *)
Definition _buildSignString (params : Props) : Result JsString :=
  let sortedKeys := Array_sort (Object_keys params) in
  let* parts := mapM (signPart params) sortedKeys in
  Ok (join (js "&") parts).

Definition defaultExcludeKeys : gset JsString :=
  {[ js "sign"; js "signature" ]}.

(** The loop of [generateSignature] over [Object.entries(params)]. *)
Definition filterParams (finalExcludeKeys : gset JsString) (params : Props)
  : Props :=
  fold_left (fun filteredParams entry =>
               let '(key, value) := entry in
               if negb (bool_decide (key ∈ finalExcludeKeys))
                  && _isValidValue value
               then assign_prop filteredParams key value
               else filteredParams)
            (Object_entries params) [].

(** The parameters that are signed: the filtered ones and, when given, the
    time stamp. *)
Definition signedParams (params : Props) (timestamp : option JsNumber)
           (excludeKeys : option (gset JsString)) : Props :=
  let finalExcludeKeys :=
    match excludeKeys with Some keys => keys | None => defaultExcludeKeys end in
  let filteredParams := filterParams finalExcludeKeys params in
  match timestamp with
  | Some ts => assign_prop filteredParams (js "timestamp") (VNumber ts)
  | None => filteredParams
  end.

(** [generateSignature(params, timestamp = null, excludeKeys = null)] *)
Definition generateSignature (this : t) (params : Props)
           (timestamp : option JsNumber) (excludeKeys : option (gset JsString))
  : Result JsString :=
  let* signString := _buildSignString (signedParams params timestamp excludeKeys) in
  Ok (createHmac_sha256_hex (secret this) signString).

(** [_checkTimestamp(timestamp, tolerance)].  The body raises when
    [String(timestamp)] does, and the [catch] clause then returns
    [false]. *)
Definition _checkTimestamp (w : World) (timestamp : JsValue) (tolerance : JsNumber)
  : bool :=
  let body :=
    let* ts := match timestamp with
               | VNumber x => Ok (ToDouble x)
               | _ => let* text := String_ timestamp in Ok (parseInt text)
               end in
    if isNaN ts then Ok false
    else Ok (Number_le (Math_abs (Number_subtract (currentTime w) ts))
                       (ToDouble tolerance)) in
  match body with
  | Ok result => result
  | Throw _ => false
  end.

(** [crypto.timingSafeEqual(a, b)] *)
Definition timingSafeEqual (a b : list N) : Result bool :=
  if (length a =? length b)%nat then Ok (bool_decide (a = b))
  else Throw RangeError.

(** [validate(params, signature, timestampTolerance = null)].  [stale] is the
    condition under which the time stamp check returns [false]. *)
Definition validate (w : World) (this : t) (params : Props)
           (signature : JsString) (timestampTolerance : option JsNumber)
  : Result bool :=
  let stale :=
    match timestampTolerance with
    | Some tolerance =>
      ToBoolean (get_prop params (js "timestamp"))
      && negb (_checkTimestamp w (get_prop params (js "timestamp")) tolerance)
    | None => false
    end in
  if stale then Ok false
  else
    let* expectedSign := generateSignature this params None None in
    try_catch (timingSafeEqual (Buffer_from expectedSign) (Buffer_from signature))
              (fun _ => Ok false).

(** [quickSign(params, secret)] *)
Definition quickSign (params : Props) (secret : JsString) : Result JsString :=
  let* validator := constructor secret in
  generateSignature validator params None None.

(** [quickValidate(params, signature, secret)] *)
Definition quickValidate (w : World) (params : Props) (signature : JsString)
           (secret : JsString) : Result bool :=
  let* validator := constructor secret in
  validate w validator params signature None.

End SignatureValidator.

Import SignatureValidator.

(** ** The route that creates an order

    The statements of [POST] in [src/app/api/payment/create/route.ts] that
    build the request sent to the gateway, from [paymentParams] to
    [requestData].  [body] is the parsed request body, a plain object
    whenever these statements are reached. *)

(** [a || b] *)
Definition logical_or (a b : JsValue) : JsValue := if ToBoolean a then a else b.

(** [{...o, [k]: v}]: the own properties of [o] in the order of enumeration,
    then [k]. *)
Definition spread_with (props : Props) (k : JsString) (v : JsValue) : Props :=
  set_prop (own_properties props) k v.

Module CreateRoute.

(** [PAY302_CONFIG]: three strings read from the environment, [''] for a
    variable that is not set. *)
Record Config : Type := { appId : JsString; secret : JsString; apiUrl : JsString }.

(** The object literal [paymentParams] of [POST], from the parsed request
    body. *)
Definition paymentParams (PAY302_CONFIG : Config) (body : Props) : Props :=
  [(js "app_id", VString (appId PAY302_CONFIG));
   (js "secret", VString (secret PAY302_CONFIG));
   (js "user_name", get_prop body (js "user_name"));
   (js "email", get_prop body (js "email"));
   (js "amount", get_prop body (js "amount"));
   (js "back_url", logical_or (get_prop body (js "back_url")) (VString []));
   (js "fail_url", logical_or (get_prop body (js "fail_url")) (VString []));
   (js "suc_url", logical_or (get_prop body (js "suc_url")) (VString []));
   (js "extra", logical_or (get_prop body (js "extra")) (VObject []))].

(** [const signature = validator.generateSignature(paymentParams)], with the
    validator constructed from the configured secret. *)
Definition signature (PAY302_CONFIG : Config) (body : Props) : Result JsString :=
  let* validator := constructor (secret PAY302_CONFIG) in
  generateSignature validator (paymentParams PAY302_CONFIG body) None None.

(** [const requestData = {...paymentParams, signature}], the body sent to the
    gateway. *)
Definition requestData (PAY302_CONFIG : Config) (body : Props) : Result Props :=
  let* signature := signature PAY302_CONFIG body in
  Ok (spread_with (paymentParams PAY302_CONFIG body) (js "signature")
                  (VString signature)).

End CreateRoute.

(** * Specification

    The predicates in which the properties are stated, their examples and
    the tactics of the proofs. *)

(** ** Well-formed strings *)

(** [String.prototype.isWellFormed]: no unpaired surrogate. *)
Fixpoint isWellFormed (s : JsString) : bool :=
  match s with
  | [] => true
  | c :: rest =>
    if is_high_surrogate c then
      match rest with
      | d :: rest' => is_low_surrogate d && isWellFormed rest'
      | [] => false
      end
    else negb (is_low_surrogate c) && isWellFormed rest
  end.

(** What [encodeURIComponent] does with a string: it returns on the
    well-formed ones and raises URIError on the others. *)
Definition encode_outcome (s : JsString) : Prop :=
  if isWellFormed s
  then ∃ text, encodeURIComponent s = Ok text
  else encodeURIComponent s = Throw URIError.

(** A key of [params] and its normalised value can be URI-encoded. *)
Definition encodable_entry (params : Props) (key : JsString) : bool :=
  isWellFormed key && isWellFormed (_normalizeValue (get_prop params key)).

(** Every key of [params] and every normalised value is well-formed
    UTF-16. *)
Definition encodable (params : Props) : Prop :=
  Forall (fun key => encodable_entry params key = true) (Object_keys params).

(** Text made of code units below the surrogates. *)
Definition plain (s : JsString) : Prop := Forall (fun c => c < 0xD800) s.

(** The result of [JSON.stringify], when it is a string, is well-formed. *)
Definition well_formed_text (text : option JsString) : Prop :=
  match text with
  | Some t => isWellFormed t = true
  | None => True
  end.

(** The key and, when the value is a string, the value are well-formed
    UTF-16. *)
Definition well_formed_entry (entry : JsString * JsValue) : bool :=
  isWellFormed (fst entry)
  && match snd entry with
     | VString s => isWellFormed s
     | _ => true
     end.

(** ** Hexadecimal digests *)

Definition is_lower_hex (c : N) : bool :=
  in_range 0x30 0x39 c || in_range 0x61 0x66 c.

(** ** White space *)

Definition whitespace_code_points : list N :=
  [0x0009; 0x000A; 0x000B; 0x000C; 0x000D; 0x0020; 0x00A0; 0x1680;
   0x2000; 0x2001; 0x2002; 0x2003; 0x2004; 0x2005; 0x2006; 0x2007;
   0x2008; 0x2009; 0x200A; 0x2028; 0x2029; 0x202F; 0x205F; 0x3000; 0xFEFF].

(** The string is empty or holds white space only. *)
Definition blank (s : JsString) : Prop :=
  Forall (fun c => c ∈ whitespace_code_points) s.

Global Instance blank_dec s : Decision (blank s).
Proof. unfold blank. apply _. Defined.

(** ** The filter of [generateSignature] *)

(** The entry becomes a property of [filteredParams]: it passes the test
    of the loop (the key is not excluded and the value is not empty), and
    the assignment defines a property (the key is not [__proto__]). *)
Definition kept (excludeKeys : gset JsString) (entry : JsString * JsValue) : bool :=
  negb (bool_decide (fst entry ∈ excludeKeys)) && _isValidValue (snd entry)
  && negb (bool_decide (fst entry = js "__proto__")).

Definition filterStep (excludeKeys : gset JsString) (filteredParams : Props)
           (entry : JsString * JsValue) : Props :=
  if kept excludeKeys entry
  then set_prop filteredParams (fst entry) (snd entry)
  else filteredParams.

(** The values the signature leaves out: [null], [undefined], the empty
    string, the empty array and the object without keys. *)
Definition empty_value (v : JsValue) : Prop :=
  v = VNull ∨ v = VUndefined ∨ v = VString [] ∨ v = VArray [] ∨ v = VObject [].

(** ** The replay window *)

(** The replay-window test of [validate]. *)
Definition stale (w : World) (params : Props) (timestampTolerance : option JsNumber)
  : bool :=
  match timestampTolerance with
  | Some tolerance =>
    ToBoolean (get_prop params (js "timestamp"))
    && negb (_checkTimestamp w (get_prop params (js "timestamp")) tolerance)
  | None => false
  end.

(** The double is the integer [z], held exactly. *)
Definition holds_integer (x : Double) (z : Z) : Prop :=
  match x with
  | DFinite m e => (e ≤ 0 ∧ m = z * 2 ^ (- e))%Z
  | _ => False
  end.

(** ** The alphabet of the canonical string *)

(** A code unit of a canonical string: unreserved, or one of [% = &]. *)
Definition canonical_unit (c : N) : bool :=
  uriUnreserved c || bool_decide (c ∈ js "%=&").

Definition encoded_unit (c : N) : bool := uriUnreserved c || (c =? 0x25).

(** The string is a sequence of 16-bit code units. *)
Definition code_units (s : JsString) : Prop := Forall (fun c => c < 0x10000) s.

(** The octets as [%XX], as [percent_encode] writes them. *)
Definition percent_octets (octets : list N) : JsString :=
  List.concat (List.map (fun b => 0x25 :: hex_octet true b) octets).

(** Every key and every normalised value of the object is a string of
    16-bit code units. *)
Definition code_unit_entries (params : Props) : Prop :=
  Forall (fun k => code_units k ∧ code_units (_normalizeValue (get_prop params k)))
         params.*1.

(** ** The entries that are signed *)

(** [delete o[k]] *)
Definition delete_prop (props : Props) (k : JsString) : Props :=
  List.filter (fun p => negb (bool_decide (fst p = k))) props.

(** The set [finalExcludeKeys] of [generateSignature]. *)
Definition finalExcludeKeys (excludeKeys : option (gset JsString)) : gset JsString :=
  match excludeKeys with Some keys => keys | None => defaultExcludeKeys end.

(** The entry is one the loop of [generateSignature] copies. *)
Definition signed_entry (params : Props) (excludeKeys : option (gset JsString))
           (k : JsString) (v : JsValue) : Prop :=
  (k, v) ∈ params ∧ (k ∉ finalExcludeKeys excludeKeys) ∧ (¬ empty_value v)
  ∧ k ≠ js "__proto__".

(** ** The order of enumeration *)

(** The order in which [Object.keys] and [JSON.stringify] list the keys of
    an object whose properties were created in the order of [sort]: array
    indices by value, before every other key; the other keys by code
    units. *)
Definition key_le (a b : JsString) : Prop :=
  match array_index a, array_index b with
  | Some i, Some j => i ≤ j
  | Some _, None => True
  | None, Some _ => False
  | None, None => str_ltb b a = false
  end.

(** The keys that an assignment [result[key] = ...] defines. *)
Definition assignable (keys : list JsString) : list JsString :=
  List.filter (fun key => negb (bool_decide (key = js "__proto__"))) keys.

(** The order of two properties whose keys are array indices. *)
Definition index_le {V} (p q : JsString * V) : Prop :=
  digits_value (fst p) ≤ digits_value (fst q).

(** ** Time stamps that do not parse *)

(** The value of [params.timestamp] is truthy, is no number, and gives no
    number to [parseInt]: [true], a plain object, or a string that does not
    start, after white space and a sign, with a digit. *)
Definition unparseable_timestamp (v : JsValue) : Prop :=
  v = VBoolean true
  ∨ (∃ props, v = VObject props)
  ∨ (∃ s, v = VString s ∧ s ≠ [] ∧ parseInt s = DNaN).


(** ** Induction on values *)

Section JsValue_induction.
Variable P : JsValue → Prop.
Hypothesis Hundefined : P VUndefined.
Hypothesis Hnull : P VNull.
Hypothesis Hboolean : ∀ b, P (VBoolean b).
Hypothesis Hnumber : ∀ x, P (VNumber x).
Hypothesis Hstring : ∀ s, P (VString s).
Hypothesis Harray : ∀ items, Forall P items → P (VArray items).
Hypothesis Hobject :
  ∀ props, Forall (fun p => P (snd p)) props → P (VObject props).

Fixpoint JsValue_ind (v : JsValue) : P v :=
  match v with
  | VUndefined => Hundefined
  | VNull => Hnull
  | VBoolean b => Hboolean b
  | VNumber x => Hnumber x
  | VString s => Hstring s
  | VArray items =>
    Harray items
           ((fix all (l : list JsValue) : Forall P l :=
               match l with
               | [] => @List.Forall_nil _ P
               | x :: l' => @List.Forall_cons _ P x l' (JsValue_ind x) (all l')
               end) items)
  | VObject props =>
    Hobject props
            ((fix all (l : Props) : Forall (fun p => P (snd p)) l :=
                match l with
                | [] => @List.Forall_nil _ _
                | p :: l' =>
                  @List.Forall_cons _ (fun p => P (snd p)) p l'
                              (match p as p0 return P (snd p0) with
                               | (_, x) => JsValue_ind x
                               end)
                              (all l')
                end) props)
  end.
End JsValue_induction.

(** ** Semantic equality of parameter values *)

(** Two objects hold the same properties: the keys of each are distinct, and
    every key of one is a key of the other, with related values. *)
Definition same_properties (R : JsValue → JsValue → Prop) (p1 p2 : Props) : Prop :=
  NoDup p1.*1 ∧ NoDup p2.*1 ∧
  (∀ k v1, (k, v1) ∈ p1 → ∃ v2, (k, v2) ∈ p2 ∧ R v1 v2) ∧
  (∀ k v2, (k, v2) ∈ p2 → ∃ v1, (k, v1) ∈ p1 ∧ R v1 v2).

(** Equality of values up to the creation order of the properties of the
    objects in them, at every depth.  Array elements keep their order. *)
Local Unset Elimination Schemes.
Inductive sem_eq : JsValue → JsValue → Prop :=
| sem_eq_undefined : sem_eq VUndefined VUndefined
| sem_eq_null : sem_eq VNull VNull
| sem_eq_boolean b : sem_eq (VBoolean b) (VBoolean b)
| sem_eq_number x : sem_eq (VNumber x) (VNumber x)
| sem_eq_string s : sem_eq (VString s) (VString s)
| sem_eq_array items1 items2 :
    Forall2 sem_eq items1 items2 → sem_eq (VArray items1) (VArray items2)
| sem_eq_object p1 p2 :
    same_properties sem_eq p1 p2 → sem_eq (VObject p1) (VObject p2).
Local Set Elimination Schemes.

(** ** Examples *)

Definition demo_secret : JsString := js "your_secret_key_here".
Definition demo_validator : t := {| secret := demo_secret |}.

(** [{app_id: "A1", amount: 39.99, email: "", note: null, extra: {}}] *)
Definition payment_params : Props :=
  [(js "app_id", VString (js "A1"));
   (js "amount", VNumber (Finite 3999 2));
   (js "email", VString []);
   (js "note", VNull);
   (js "extra", VObject [])].

Definition payment_signature : JsString :=
  Eval vm_compute in
    createHmac_sha256_hex demo_secret (js "amount=39.99&app_id=A1").

(** [{note: "\uD800"}]: a string holding an unpaired surrogate, as
    [JSON.parse] gives for the text ["\ud800"]. *)
Definition surrogate_params : Props := [(js "note", VString [0xD800])].

(** An object created with one key, [\uDC00] followed by [id]. *)
Definition surrogate_key_params : Props :=
  [(0xDC00 :: js "id", VNumber (Finite 7 0))].

(** [{"__proto__": 0, "a": 1}], as [JSON.parse] creates it: [__proto__] is
    an own property of the object. *)
Definition proto_params : Props :=
  [(js "__proto__", VNumber (Finite 0 0)); (js "a", VNumber (Finite 1 0))].

(** [{timestamp: 1400, note: "\uD800"}] *)
Definition stale_surrogate_params : Props :=
  [(js "timestamp", VNumber (Finite 1400 0)); (js "note", VString [0xD800])].

(** [{timestamp: 0}] and [{timestamp: 1000}] *)
Definition epoch_params : Props := [(js "timestamp", VNumber (Finite 0 0))].
Definition timed_params : Props := [(js "timestamp", VNumber (Finite 1000 0))].

Definition epoch_signature : JsString :=
  Eval vm_compute in createHmac_sha256_hex demo_secret (js "timestamp=0").
Definition timed_signature : JsString :=
  Eval vm_compute in createHmac_sha256_hex demo_secret (js "timestamp=1000").

(** The clock at 1000 s and at 2000 s after the epoch. *)
Definition clock_1000 : World := {| Date_now := 1000000 |}.
Definition clock_2000 : World := {| Date_now := 2000000 |}.

(** [{a: {x: 1, y: [true, {p: "q", r: null}]}, b: 2}] and the same
    parameters written in another order, at both depths. *)
Definition nested_params : Props :=
  [(js "a", VObject [(js "x", VNumber (Finite 1 0));
                     (js "y", VArray [VBoolean true;
                                      VObject [(js "p", VString (js "q"));
                                               (js "r", VNull)]])]);
   (js "b", VNumber (Finite 2 0))].

Definition nested_params_reordered : Props :=
  [(js "b", VNumber (Finite 2 0));
   (js "a", VObject [(js "y", VArray [VBoolean true;
                                      VObject [(js "r", VNull);
                                               (js "p", VString (js "q"))]]);
                     (js "x", VNumber (Finite 1 0))])].

(** [{note: "a b+c"}], [{timestamp: "soon", note: "\uD800"}] *)
Definition spaced_params : Props := [(js "note", VString (js "a b+c"))].
Definition malformed_timestamp_params : Props :=
  [(js "timestamp", VString (js "soon")); (js "note", VString [0xD800])].

(** A clock at one second past the epoch. *)
Definition rounding_clock : World := {| Date_now := 1000 |}.

(** [{b: 1, "10": 2, "9": 3, a: 4}] *)
Definition indexed_props : Props :=
  [(js "b", VNumber (Finite 1 0)); (js "10", VNumber (Finite 2 0));
   (js "9", VNumber (Finite 3 0)); (js "a", VNumber (Finite 4 0))].

(** ** Tactics *)

(** A decidable proposition, by evaluation. *)
Ltac by_compute := apply (bool_decide_unpack _); vm_compute; exact I.

Ltac div_mod_lia := zify; Z.to_euclidean_division_equations; lia.

(** Membership in an explicit list. *)
Ltac solve_elem_of :=
  repeat first [apply list_elem_of_here | apply list_elem_of_further].

(** [sem_eq] on explicit values; the objects inside are taken from the
    context. *)
Ltac solve_sem_eq :=
  first [ assumption
        | by constructor
        | apply sem_eq_array;
          repeat (apply List.Forall2_cons; [solve_sem_eq|]);
          apply List.Forall2_nil ].

Ltac solve_same_entries :=
  let k := fresh "k" in
  let v := fresh "v" in
  let Hin := fresh "Hin" in
  intros k v Hin;
  repeat (apply elem_of_cons in Hin as [[= -> ->]|Hin]);
  [eexists; split; [solve_elem_of|solve_sem_eq]..|by apply elem_of_nil in Hin].

(** [sem_eq] on two explicit objects. *)
Ltac solve_sem_eq_object :=
  apply sem_eq_object; split_and!;
  [by_compute|by_compute|solve_same_entries|solve_same_entries].

(** * Properties *)

(** ** Completion records and lists *)

Lemma bind_Ok {A B} (r : Result A) (k : A → Result B) (b : B) :
  bind r k = Ok b ↔ ∃ a, r = Ok a ∧ k a = Ok b.
Proof.
  destruct r as [a|e]; simpl; split.
  - eauto.
  - intros (a' & [= ->] & H); exact H.
  - discriminate.
  - intros (a' & [=] & _).
Qed.

Lemma mapM_outcome {A B} (f : A → Result B) (ok : A → bool) (l : list A) :
  (∀ x, x ∈ l → if ok x then ∃ y, f x = Ok y else f x = Throw URIError) →
  if forallb ok l then ∃ ys, mapM f l = Ok ys else mapM f l = Throw URIError.
Proof.
  induction l as [|x l IH]; intros Hf; simpl; [eauto|].
  pose proof (Hf x (list_elem_of_here x l)) as Hx.
  destruct (ok x); simpl.
  - destruct Hx as [y ->]. simpl.
    specialize (IH (fun z Hz => Hf z (list_elem_of_further z x l Hz))).
    destruct (forallb ok l).
    + destruct IH as [ys ->]. simpl. eauto.
    + rewrite IH. reflexivity.
  - rewrite Hx. reflexivity.
Qed.

Lemma mapM_ext_in {A B} (f g : A → Result B) (l : list A) :
  (∀ x, x ∈ l → f x = g x) → mapM f l = mapM g l.
Proof.
  induction l as [|x l IH]; intros H; simpl; [done|].
  rewrite H by left. rewrite IH; [done|].
  intros y Hy. apply H. by right.
Qed.

Lemma fold_left_ext_in {A B} (f g : A → B → A) (l : list B) (a : A) :
  (∀ a x, x ∈ l → f a x = g a x) → fold_left f l a = fold_left g l a.
Proof.
  revert a. induction l as [|x l IH]; intros a H; simpl; [done|].
  rewrite H by left. apply IH. intros a' y Hy. apply H. by right.
Qed.

Lemma forallb_Forall_iff {A} (p : A → bool) l :
  forallb p l = true ↔ Forall (fun x => p x = true) l.
Proof. rewrite forallb_forall, Forall_forall. 
  split; intros H x Hx; apply H; by apply list_elem_of_In. Qed.

Lemma drop_while_nil {A} (p : A → bool) l :
  drop_while p l = [] ↔ Forall (fun x => p x = true) l.
Proof.
  induction l as [|x l IH]; simpl.
  - split; [constructor|done].
  - destruct (p x) eqn:Hx.
    + rewrite IH. split; [by constructor|by inversion 1].
    + split; [done|]. inversion 1; congruence.
Qed.

Lemma drop_while_head {A} (p : A → bool) l x l' :
  drop_while p l = x :: l' → p x = false.
Proof.
  induction l as [|y l IH]; simpl; [done|].
  destruct (p y) eqn:Hy; [done|]. by intros [= <- _].
Qed.

(** ** [encodeURIComponent] and well-formed strings *)

Lemma uriUnreserved_not_surrogate c :
  uriUnreserved c = true → is_high_surrogate c = false ∧ is_low_surrogate c = false.
Proof.
  unfold uriUnreserved, is_high_surrogate, is_low_surrogate, in_range.
  intros H.
  assert (c < 0x80).
  { repeat (apply orb_prop in H as [H|H]).
    - apply andb_prop in H as [_ H]; apply N.leb_le in H; lia.
    - apply andb_prop in H as [_ H]; apply N.leb_le in H; lia.
    - apply andb_prop in H as [_ H]; apply N.leb_le in H; lia.
    - apply bool_decide_eq_true in H.
      unfold js in H. cbn in H.
      repeat (apply elem_of_cons in H as [->|H]; [lia|]).
      by apply elem_of_nil in H. }
  split; apply andb_false_iff; left; apply N.leb_gt; lia.
Qed.

Lemma surrogate_exclusive c :
  is_high_surrogate c = true → is_low_surrogate c = false.
Proof.
  unfold is_high_surrogate, is_low_surrogate, in_range.
  intros [_ H]%andb_prop. apply N.leb_le in H.
  apply andb_false_iff; left; apply N.leb_gt; lia.
Qed.

Lemma encode_outcome_bind (s : JsString) (k : JsString → JsString) :
  encode_outcome s →
  if isWellFormed s
  then ∃ text, (let* r := encodeURIComponent s in Ok (k r)) = Ok text
  else (let* r := encodeURIComponent s in Ok (k r)) = Throw URIError.
Proof.
  unfold encode_outcome. destruct (isWellFormed s).
  - intros [t ->]. simpl. eauto.
  - intros ->. reflexivity.
Qed.

Lemma encodeURIComponent_outcome_le (n : nat) (s : JsString) :
  (length s ≤ n)%nat → encode_outcome s.
Proof.
  revert s. induction n as [|n IH]; intros [|c rest] Hlen; simpl in Hlen;
    try lia; try (red; simpl; eauto; fail).
  unfold encode_outcome. cbn [isWellFormed encodeURIComponent].
  destruct (uriUnreserved c) eqn:Hu.
  { apply uriUnreserved_not_surrogate in Hu as [-> ->]. cbn [negb andb].
    apply encode_outcome_bind, IH. lia. }
  destruct (is_high_surrogate c) eqn:Hh.
  { rewrite (surrogate_exclusive c Hh).
    destruct rest as [|d rest']; [reflexivity|].
    destruct (is_low_surrogate d); cbn [andb]; [|reflexivity].
    apply encode_outcome_bind, IH. simpl in Hlen. lia. }
  destruct (is_low_surrogate c); cbn [negb andb]; [reflexivity|].
  apply encode_outcome_bind, IH. lia.
Qed.

Lemma encodeURIComponent_outcome (s : JsString) : encode_outcome s.
Proof. apply (encodeURIComponent_outcome_le (length s)). lia. Qed.

(** ** The code-unit order and [sort] *)

Lemma str_ltb_irrefl a : str_ltb a a = false.
Proof.
  induction a as [|x a IH]; simpl; [done|].
  rewrite N.ltb_irrefl, N.eqb_refl, IH. done.
Qed.

Lemma str_ltb_cons x a y b :
  str_ltb (x :: a) (y :: b) = true ↔ x < y ∨ (x = y ∧ str_ltb a b = true).
Proof.
  simpl. rewrite orb_true_iff, andb_true_iff, N.ltb_lt, N.eqb_eq. tauto.
Qed.

Lemma str_ltb_trans a b c :
  str_ltb a b = true → str_ltb b c = true → str_ltb a c = true.
Proof.
  revert b c. induction a as [|x a IH]; intros [|y b] [|z c]; try done.
  rewrite !str_ltb_cons. intros [Hxy|[-> Hab]] [Hyz|[-> Hbc]].
  - left; lia.
  - by left.
  - by left.
  - right. split; [done|]. by apply (IH b).
Qed.

Lemma str_ltb_total a b :
  str_ltb a b = false → str_ltb b a = false → a = b.
Proof.
  revert b. induction a as [|x a IH]; intros [|y b]; try done.
  intros Hab Hba.
  destruct (N.lt_total x y) as [Hlt|[->|Hgt]].
  - assert (str_ltb (x :: a) (y :: b) = true) by (apply str_ltb_cons; by left).
    congruence.
  - f_equal. apply IH.
    + destruct (str_ltb a b) eqn:E; [|done].
      assert (str_ltb (y :: a) (y :: b) = true) by (apply str_ltb_cons; by right).
      congruence.
    + destruct (str_ltb b a) eqn:E; [|done].
      assert (str_ltb (y :: b) (y :: a) = true) by (apply str_ltb_cons; by right).
      congruence.
  - assert (str_ltb (y :: b) (x :: a) = true) by (apply str_ltb_cons; by left).
    congruence.
Qed.

Lemma str_ltb_asym a b : str_ltb a b = true → str_ltb b a = false.
Proof.
  intros Hab. destruct (str_ltb b a) eqn:Hba; [|done].
  pose proof (str_ltb_trans _ _ _ Hab Hba) as H.
  by rewrite str_ltb_irrefl in H.
Qed.

(** [y <= h] and [h < x] give [y < x]. *)
Lemma str_ltb_le_lt y h x :
  str_ltb h y = false → str_ltb h x = true → str_ltb y x = true.
Proof.
  intros Hhy Hhx. destruct (str_ltb y h) eqn:Hyh.
  - by apply (str_ltb_trans _ h).
  - by rewrite (str_ltb_total _ _ Hyh Hhy).
Qed.

Lemma sort_insert_Permutation x l : sort_insert x l ≡ₚ x :: l.
Proof.
  induction l as [|y l IH]; simpl; [done|].
  destruct (str_ltb y x); [|done].
  rewrite IH. apply perm_swap.
Qed.

Lemma Array_sort_Permutation l : Array_sort l ≡ₚ l.
Proof.
  induction l as [|x l IH]; simpl; [done|].
  rewrite sort_insert_Permutation. by rewrite IH.
Qed.

Lemma sort_insert_comm x y l :
  sort_insert x (sort_insert y l) = sort_insert y (sort_insert x l).
Proof.
  induction l as [|h l IH]; simpl.
  - destruct (str_ltb y x) eqn:Hyx, (str_ltb x y) eqn:Hxy; try done.
    + by rewrite (str_ltb_asym _ _ Hyx) in Hxy.
    + by rewrite (str_ltb_total _ _ Hxy Hyx).
  - destruct (str_ltb h y) eqn:Hhy, (str_ltb h x) eqn:Hhx; simpl;
      rewrite ?Hhy, ?Hhx.
    + by rewrite IH.
    + rewrite (str_ltb_le_lt _ _ _ Hhx Hhy). simpl. by rewrite ?Hhy.
    + rewrite (str_ltb_le_lt _ _ _ Hhy Hhx). simpl. by rewrite ?Hhx.
    + destruct (str_ltb y x) eqn:Hyx, (str_ltb x y) eqn:Hxy; simpl;
        rewrite ?Hhy, ?Hhx; try done.
      * by rewrite (str_ltb_asym _ _ Hyx) in Hxy.
      * by rewrite (str_ltb_total _ _ Hxy Hyx).
Qed.

(** Sorting depends on the strings present, not on their order. *)
Lemma Array_sort_Permutation_eq l1 l2 :
  l1 ≡ₚ l2 → Array_sort l1 = Array_sort l2.
Proof.
  induction 1 as [|x l1 l2 _ IH|x y l|l1 l2 l3 _ IH1 _ IH2]; simpl.
  - done.
  - by rewrite IH.
  - apply sort_insert_comm.
  - by rewrite IH1.
Qed.

(** ** White space and [trim] *)

Lemma is_whitespace_spec c :
  is_whitespace c = true ↔ c ∈ whitespace_code_points.
Proof.
  split.
  - unfold is_whitespace, in_range. intros H.
    assert (Hc : c = 0x0009 ∨ c = 0x000A ∨ c = 0x000B ∨ c = 0x000C ∨ c = 0x000D
            ∨ c = 0x0020 ∨ c = 0x00A0 ∨ c = 0x1680
            ∨ c = 0x2000 ∨ c = 0x2001 ∨ c = 0x2002 ∨ c = 0x2003 ∨ c = 0x2004
            ∨ c = 0x2005 ∨ c = 0x2006 ∨ c = 0x2007 ∨ c = 0x2008 ∨ c = 0x2009
            ∨ c = 0x200A ∨ c = 0x2028 ∨ c = 0x2029 ∨ c = 0x202F ∨ c = 0x205F
            ∨ c = 0x3000 ∨ c = 0xFEFF).
    { repeat (apply orb_prop in H as [H|H]);
        try (apply andb_prop in H as [H1 H2];
             apply N.leb_le in H1; apply N.leb_le in H2);
        try apply N.eqb_eq in H; lia. }
    unfold whitespace_code_points.
    repeat (destruct Hc as [->|Hc]; [set_solver|]). subst. set_solver.
  - unfold whitespace_code_points. intros H.
    repeat (apply elem_of_cons in H as [->|H]; [reflexivity|]).
    by apply elem_of_nil in H.
Qed.

Lemma String_trim_nil s : String_trim s = [] ↔ blank s.
Proof.
  unfold String_trim, blank.
  rewrite <- (Forall_iff (fun c => is_whitespace c = true)) by apply is_whitespace_spec.
  rewrite <- drop_while_nil.
  split.
  - intros H. apply (f_equal (@rev N)) in H. rewrite rev_involutive in H.
    simpl in H. apply drop_while_nil in H.
    apply Forall_rev in H. rewrite rev_involutive in H.
    destruct (drop_while is_whitespace s) as [|x l'] eqn:Hd; [done|].
    apply drop_while_head in Hd. inversion H; congruence.
  - intros ->. reflexivity.
Qed.

(** ** The shape of a hexadecimal digest *)

Lemma hex_digit_lower n : is_lower_hex (hex_digit false n) = true.
Proof.
  unfold is_lower_hex, hex_digit, in_range.
  pose proof (N.mod_upper_bound n 16 ltac:(lia)) as Hlt.
  set (d := n mod 16) in *. cbv zeta.
  destruct (d <? 10) eqn:Hd.
  - apply N.ltb_lt in Hd. apply orb_true_iff; left.
    apply andb_true_iff; split; apply N.leb_le; lia.
  - apply N.ltb_ge in Hd. apply orb_true_iff; right.
    apply andb_true_iff; split; apply N.leb_le; lia.
Qed.

Lemma be_octets_length count x : length (SHA256.be_octets count x) = count.
Proof.
  unfold SHA256.be_octets.
  by rewrite length_map, length_rev, length_seq.
Qed.

Lemma digest_length msg : length (SHA256.digest msg) = 32%nat.
Proof.
  unfold SHA256.digest, SHA256.state_octets.
  rewrite !length_app, !be_octets_length. reflexivity.
Qed.

Lemma hmac_length key msg : length (SHA256.hmac key msg) = 32%nat.
Proof. apply digest_length. Qed.

Lemma hex_octets_shape (octets : list N) :
  length (List.concat (List.map (hex_octet false) octets))
  = (2 * length octets)%nat
  ∧ Forall (fun c => is_lower_hex c = true)
           (List.concat (List.map (hex_octet false) octets)).
Proof.
  induction octets as [|b l [IHlen IHhex]]; simpl; [by split|].
  split; [lia|].
  repeat constructor; auto using hex_digit_lower.
Qed.

Lemma createHmac_sha256_hex_shape key data :
  length (createHmac_sha256_hex key data) = 64%nat
  ∧ Forall (fun c => is_lower_hex c = true) (createHmac_sha256_hex key data).
Proof.
  unfold createHmac_sha256_hex.
  destruct (hex_octets_shape (SHA256.hmac (Buffer_from key) (Buffer_from data)))
    as [Hlen Hhex].
  by rewrite hmac_length in Hlen.
Qed.

(** ** Own properties: assignment, lookup and enumeration *)

Section Properties.
Context {V : Type}.
Implicit Types (props : list (JsString * V)) (k : JsString) (v : V).
Implicit Types (g : JsString * V → bool) (f : JsString → bool).

Lemma set_prop_fresh props k v :
  k ∉ props.*1 → set_prop props k v = props ++ [(k, v)].
Proof.
  induction props as [|[k' v'] props IH]; simpl; [done|].
  intros Hk. apply not_elem_of_cons in Hk as [Hne Hk].
  rewrite bool_decide_eq_false_2 by done. by rewrite IH.
Qed.

Lemma set_prop_keys props k v :
  (set_prop props k v).*1 =
  if bool_decide (k ∈ props.*1) then props.*1 else props.*1 ++ [k].
Proof.
  induction props as [|[k' v'] props IH]; [done|].
  cbn [set_prop fmap list_fmap fst].
  destruct (decide (k' = k)) as [->|Hne].
  - rewrite !bool_decide_eq_true_2; [done|by left|done].
  - rewrite (bool_decide_eq_false_2 (k' = k)) by done.
    cbn [fmap list_fmap fst]. fold (fmap (M:=list) (@fst JsString V)).
    rewrite IH.
    destruct (decide (k ∈ props.*1)) as [Hin|Hin].
    + rewrite !bool_decide_eq_true_2; [done|by right|done].
    + rewrite !bool_decide_eq_false_2; [done| |done].
      intros [?|?]%elem_of_cons; congruence.
Qed.

(** Assigning a property the filter rejects whatever its value leaves the
    filtered properties as they were. *)
Lemma filter_set_prop_rejected g props k v :
  (∀ v', g (k, v') = false) →
  List.filter g (set_prop props k v) = List.filter g props.
Proof.
  intros Hg. induction props as [|[k' v'] props IH]; simpl.
  - by rewrite Hg.
  - destruct (decide (k' = k)) as [->|Hne].
    + rewrite bool_decide_eq_true_2 by done. simpl. by rewrite !Hg.
    + rewrite bool_decide_eq_false_2 by done. simpl. by rewrite IH.
Qed.

(** A filter on keys commutes with assigning a key it accepts. *)
Lemma filter_key_set_prop f props k v :
  f k = true →
  List.filter (fun p => f (fst p)) (set_prop props k v)
  = set_prop (List.filter (fun p => f (fst p)) props) k v.
Proof.
  intros Hf. induction props as [|[k' v'] props IH]; simpl.
  - by rewrite Hf.
  - destruct (decide (k' = k)) as [->|Hne].
    + rewrite bool_decide_eq_true_2 by done. simpl. rewrite Hf. simpl.
      by rewrite bool_decide_eq_true_2.
    + rewrite bool_decide_eq_false_2 by done. simpl.
      destruct (f k'); simpl; [|done].
      rewrite bool_decide_eq_false_2 by done. by rewrite IH.
Qed.

Lemma insert_by_index_Permutation (p : JsString * V) l :
  insert_by_index p l ≡ₚ p :: l.
Proof.
  induction l as [|q l IH]; simpl; [done|].
  destruct (_ <? _); [|done]. rewrite IH. apply perm_swap.
Qed.

Lemma filter_partition_Permutation g props :
  List.filter g props ++ List.filter (fun p => negb (g p)) props ≡ₚ props.
Proof.
  induction props as [|p props IH]; simpl; [done|].
  destruct (g p); simpl.
  - by rewrite IH.
  - rewrite <- Permutation_middle. by rewrite IH.
Qed.

Lemma own_properties_Permutation props : own_properties props ≡ₚ props.
Proof.
  unfold own_properties.
  rewrite <- (filter_partition_Permutation
                (fun p => is_array_index (fst p)) props) at 3.
  apply Permutation_app_tail.
  induction (List.filter _ props) as [|p l IH]; simpl; [done|].
  by rewrite insert_by_index_Permutation, IH.
Qed.

Lemma own_properties_keys_NoDup props :
  NoDup props.*1 → NoDup (own_properties props).*1.
Proof. by rewrite own_properties_Permutation. Qed.

Lemma own_properties_length props :
  length (own_properties props) = length props.
Proof. by rewrite own_properties_Permutation. Qed.

(** Enumeration after assigning a key that is not an array index. *)
Lemma own_properties_set_prop props k v :
  is_array_index k = false →
  own_properties (set_prop props k v)
  = fold_right insert_by_index []
               (List.filter (fun p => is_array_index (fst p)) props)
    ++ set_prop (List.filter (fun p => negb (is_array_index (fst p))) props) k v.
Proof.
  intros Hk. unfold own_properties. f_equal.
  - f_equal. apply filter_set_prop_rejected. intros v'. exact Hk.
  - apply (filter_key_set_prop (fun k => negb (is_array_index k))).
    by rewrite Hk.
Qed.

End Properties.

(** Assignment to a key other than [__proto__] defines the property. *)
Lemma assign_prop_other {V} (props : list (JsString * V)) k v :
  k ≠ js "__proto__" → assign_prop props k v = set_prop props k v.
Proof. intros Hk. unfold assign_prop. by rewrite bool_decide_eq_false_2. Qed.

Lemma get_prop_elem (props : Props) k v :
  NoDup props.*1 → (k, v) ∈ props → get_prop props k = v.
Proof.
  induction props as [|[k' v'] props IH]; simpl.
  - intros _ H. by apply elem_of_nil in H.
  - intros [Hk' Hnd]%NoDup_cons [[= -> ->]|Hin]%elem_of_cons.
    + by rewrite bool_decide_eq_true_2.
    + rewrite bool_decide_eq_false_2; [by apply IH|].
      intros ->. apply Hk'. by apply (list_elem_of_fmap_2 fst) in Hin.
Qed.

Lemma get_prop_absent (props : Props) k :
  k ∉ props.*1 → get_prop props k = VUndefined.
Proof.
  induction props as [|[k' v'] props IH]; simpl; [done|].
  intros [Hne Hk]%not_elem_of_cons.
  rewrite bool_decide_eq_false_2 by done. by apply IH.
Qed.

Lemma get_prop_set_prop (props : Props) k v k' :
  get_prop (set_prop props k v) k' =
  if bool_decide (k = k') then v else get_prop props k'.
Proof.
  induction props as [|[k0 v0] props IH]; simpl.
  - done.
  - destruct (decide (k0 = k)) as [->|Hne].
    + rewrite bool_decide_eq_true_2 by done. simpl.
      by destruct (bool_decide (k = k')).
    + rewrite (bool_decide_eq_false_2 (k0 = k)) by done. simpl.
      rewrite IH. destruct (decide (k0 = k')) as [->|Hne'].
      * rewrite bool_decide_eq_true_2 by done.
        by rewrite bool_decide_eq_false_2 by done.
      * by rewrite (bool_decide_eq_false_2 (k0 = k')) by done.
Qed.

Lemma get_prop_fmap (f : JsValue → JsValue) (props : Props) k :
  k ∈ props.*1 →
  get_prop (List.map (fun p => (fst p, f (snd p))) props) k = f (get_prop props k).
Proof.
  induction props as [|[k' v] props IH]; simpl.
  - intros H. by apply elem_of_nil in H.
  - intros Hin. destruct (decide (k' = k)) as [->|Hne].
    + by rewrite !bool_decide_eq_true_2.
    + rewrite !bool_decide_eq_false_2 by done. apply IH.
      apply elem_of_cons in Hin as [?|?]; [congruence|done].
Qed.

Lemma Object_keys_Permutation (props : Props) : Object_keys props ≡ₚ props.*1.
Proof. unfold Object_keys. by rewrite own_properties_Permutation. Qed.

Lemma set_prop_keys_NoDup (props : Props) k v :
  NoDup props.*1 → NoDup (set_prop props k v).*1.
Proof.
  intros Hnd. rewrite set_prop_keys. case_bool_decide as Hk; [done|].
  apply NoDup_app. split_and!; [done| |apply NoDup_singleton].
  intros x Hx ->%list_elem_of_singleton. done.
Qed.

Lemma elem_of_set_prop (props : Props) k v k' v' :
  NoDup props.*1 →
  (k', v') ∈ set_prop props k v
  ↔ (k' = k ∧ v' = v) ∨ (k' ≠ k ∧ (k', v') ∈ props).
Proof.
  induction props as [|[k0 v0] props IH]; simpl.
  - intros _. rewrite list_elem_of_singleton, elem_of_nil.
    split; [intros [= -> ->]; by left|intros [[-> ->]|[_ []]]; done].
  - intros [Hk0 Hnd]%NoDup_cons. destruct (decide (k0 = k)) as [->|Hne].
    + rewrite bool_decide_eq_true_2 by done. rewrite !elem_of_cons.
      split.
      * intros [[= -> ->]|Hin]; [by left|]. right. split; [|by right].
        intros ->. apply Hk0. by apply (list_elem_of_fmap_2 fst) in Hin.
      * intros [[-> ->]|[Hne [[= -> ->]|Hin]]]; [by left|done|by right].
    + rewrite bool_decide_eq_false_2 by done. rewrite !elem_of_cons, IH by done.
      split.
      * intros [[= -> ->]|[[-> ->]|[Hne' Hin]]]; [right|by left|right]; split;
          try done; [by left|by right].
      * intros [[-> ->]|[Hne' [[= -> ->]|Hin]]]; [right; by left|by left|].
        right. right. done.
Qed.

Lemma filter_keys_NoDup (g : JsString * JsValue → bool) (props : Props) :
  NoDup props.*1 → NoDup (List.filter g props).*1.
Proof.
  induction props as [|[k v] props IH]; simpl; [done|].
  intros [Hk Hnd]%NoDup_cons. destruct (g (k, v)); simpl; [|by apply IH].
  apply NoDup_cons. split; [|by apply IH].
  intros ([k' v'] & Heq & Hin)%list_elem_of_fmap. simpl in Heq. subst k'.
  apply list_elem_of_In, filter_In in Hin as [Hin _].
  apply Hk. apply list_elem_of_fmap. exists (k, v'). split; [done|].
  by apply list_elem_of_In.
Qed.

(** ** Outcomes of the constructor, [generateSignature] and [validate] *)

Lemma constructor_outcome (s : JsString) :
  constructor s =
  if decide (blank s) then Throw (Error empty_secret_message)
  else Ok {| secret := s |}.
Proof.
  unfold constructor.
  destruct (decide (blank s)) as [Hb|Hb].
  - apply String_trim_nil in Hb. rewrite bool_decide_eq_true_2 by done.
    by rewrite orb_true_r.
  - assert (String_trim s ≠ []) by (by rewrite String_trim_nil).
    rewrite (bool_decide_eq_false_2 (String_trim s = [])) by done.
    assert (s ≠ []) by (intros ->; apply Hb; constructor).
    simpl. by rewrite bool_decide_eq_false_2.
Qed.

Lemma _buildSignString_outcome (params : Props) :
  (encodable params → ∃ text, _buildSignString params = Ok text) ∧
  (¬ encodable params → _buildSignString params = Throw URIError).
Proof.
  unfold _buildSignString, encodable.
  set (f := signPart params).
  pose proof (mapM_outcome f (encodable_entry params)
                (Array_sort (Object_keys params))) as H.
  assert (Hf : ∀ x, x ∈ Array_sort (Object_keys params) →
               if encodable_entry params x then ∃ y, f x = Ok y
               else f x = Throw URIError).
  { intros key _. unfold f, signPart, encodable_entry.
    pose proof (encodeURIComponent_outcome key) as Hk.
    pose proof (encodeURIComponent_outcome
                  (_normalizeValue (get_prop params key))) as Hv.
    unfold encode_outcome in *.
    destruct (isWellFormed key); simpl.
    - destruct Hk as [ek ->]. simpl.
      destruct (isWellFormed _).
      + destruct Hv as [ev ->]. simpl. eauto.
      + rewrite Hv. reflexivity.
    - rewrite Hk. reflexivity. }
  specialize (H Hf). clear Hf.
  destruct (forallb _ _) eqn:Hall.
  - destruct H as [ys ->]. simpl. split; [eauto|].
    intros Hn. exfalso. apply Hn.
    apply forallb_Forall_iff in Hall.
    by rewrite <- (Array_sort_Permutation (Object_keys params)).
  - rewrite H. simpl. split; [|done].
    intros He. exfalso.
    rewrite <- (Array_sort_Permutation (Object_keys params)) in He.
    apply forallb_Forall_iff in He. congruence.
Qed.

Lemma generateSignature_outcome this params timestamp excludeKeys :
  (encodable (signedParams params timestamp excludeKeys) →
   ∃ signString,
     _buildSignString (signedParams params timestamp excludeKeys) = Ok signString
     ∧ generateSignature this params timestamp excludeKeys
       = Ok (createHmac_sha256_hex (secret this) signString)) ∧
  (¬ encodable (signedParams params timestamp excludeKeys) →
   generateSignature this params timestamp excludeKeys = Throw URIError).
Proof.
  unfold generateSignature.
  destruct (_buildSignString_outcome (signedParams params timestamp excludeKeys))
    as [Hok Hthrow].
  split.
  - intros He. destruct (Hok He) as [text Htext]. exists text.
    by rewrite Htext.
  - intros He. by rewrite (Hthrow He).
Qed.

Lemma timingSafeEqual_catch (a b : list N) :
  try_catch (timingSafeEqual a b) (fun _ => Ok false) = Ok (bool_decide (a = b)).
Proof.
  unfold timingSafeEqual.
  destruct (length a =? length b)%nat eqn:Hlen; simpl; [done|].
  apply Nat.eqb_neq in Hlen. f_equal. symmetry.
  apply bool_decide_eq_false. intros ->. done.
Qed.

Lemma validate_outcome w this params signature timestampTolerance :
  validate w this params signature timestampTolerance =
  if stale w params timestampTolerance then Ok false
  else
    let* expectedSign := generateSignature this params None None in
    Ok (bool_decide (Buffer_from expectedSign = Buffer_from signature)).
Proof.
  unfold validate. fold (stale w params timestampTolerance).
  destruct (stale _ _ _); [done|].
  destruct (generateSignature _ _ _ _); simpl; [|done].
  apply timingSafeEqual_catch.
Qed.

(** ** The filter of [generateSignature] *)

Lemma filterParams_fold excludeKeys params :
  filterParams excludeKeys params
  = fold_left (filterStep excludeKeys) (Object_entries params) [].
Proof.
  unfold filterParams. generalize (@nil (JsString * JsValue)).
  induction (Object_entries params) as [|[k v] entries IH]; intros acc;
    cbn [fold_left]; [done|].
  rewrite IH. f_equal. unfold filterStep, kept, assign_prop. cbn [fst snd].
  destruct (negb _ && _); [|done].
  by destruct (bool_decide (k = js "__proto__")).
Qed.

(** Entries under an excluded key play no part in the loop. *)
Lemma filterStep_skip_excluded excludeKeys entries acc :
  fold_left (filterStep excludeKeys) entries acc
  = fold_left (filterStep excludeKeys)
              (List.filter (fun p => negb (bool_decide (fst p ∈ excludeKeys))) entries)
              acc.
Proof.
  revert acc. induction entries as [|[k v] entries IH]; intros acc; simpl; [done|].
  destruct (bool_decide (k ∈ excludeKeys)) eqn:Hk; simpl; [|apply IH].
  rewrite <- IH. f_equal. unfold filterStep, kept. simpl. by rewrite Hk.
Qed.

(** On distinct keys the loop is a filter. *)
Lemma filterStep_filter excludeKeys entries acc :
  NoDup (acc.*1 ++ entries.*1) →
  fold_left (filterStep excludeKeys) entries acc
  = acc ++ List.filter (kept excludeKeys) entries.
Proof.
  revert acc. induction entries as [|[k v] entries IH]; intros acc Hnd; simpl.
  - by rewrite app_nil_r.
  - unfold filterStep at 2. destruct (kept excludeKeys (k, v)); simpl.
    + rewrite set_prop_fresh.
      2:{ simpl in Hnd. apply NoDup_app in Hnd as (_ & Hd & _).
          intros Hin. apply (Hd _ Hin). by left. }
      rewrite IH; [by rewrite <- app_assoc|].
      rewrite fmap_app. simpl. by rewrite <- app_assoc.
    + apply IH. simpl in Hnd.
      apply NoDup_app in Hnd as (Ha & Hd & [_ He]%NoDup_cons).
      apply NoDup_app. split_and!; [done| |done].
      intros x Hx Hx'. apply (Hd x Hx). by right.
Qed.

Lemma filterParams_filter excludeKeys params :
  NoDup params.*1 →
  filterParams excludeKeys params
  = List.filter (kept excludeKeys) (own_properties params).
Proof.
  intros Hnd. rewrite filterParams_fold.
  rewrite filterStep_filter; [done|].
  by apply own_properties_keys_NoDup.
Qed.

(** Assigning an excluded key that is not an array index changes nothing
    in the parameters that are kept. *)
Lemma filterParams_set_excluded excludeKeys params k v :
  k ∈ excludeKeys → is_array_index k = false →
  filterParams excludeKeys (set_prop params k v) = filterParams excludeKeys params.
Proof.
  intros Hex Hidx. rewrite !filterParams_fold.
  rewrite (filterStep_skip_excluded _ (Object_entries (set_prop params k v))).
  rewrite (filterStep_skip_excluded _ (Object_entries params)).
  f_equal. unfold Object_entries.
  rewrite own_properties_set_prop by done. unfold own_properties.
  rewrite !List.filter_app. f_equal.
  apply filter_set_prop_rejected.
  intros v'. simpl. by rewrite bool_decide_eq_true_2.
Qed.

Lemma empty_props_keys (props : Props) :
  (length (Object_keys props) =? 0)%nat = true ↔ props = [].
Proof.
  unfold Object_keys. rewrite length_map, own_properties_length.
  rewrite Nat.eqb_eq. by destruct props.
Qed.

Lemma _isValidValue_spec v : _isValidValue v = false ↔ empty_value v.
Proof.
  unfold empty_value. destruct v as [| |b|x|s|items|props]; simpl;
    try (split; [auto 6 | done]);
    try (split; [done | intros [|[|[|[|]]]]; discriminate]).
  - rewrite negb_false_iff, bool_decide_eq_true.
    split; [intros ->; auto 6 | by intros [|[|[[= ->]|[|]]]]].
  - destruct items; simpl;
      (split; [try done; auto 6 | by intros [|[|[|[|]]]]]).
  - rewrite negb_false_iff, empty_props_keys.
    split; [intros ->; auto 6 | by intros [|[|[|[|[= ->]]]]]].
Qed.

Lemma _isValidValue_true v : _isValidValue v = true ↔ ¬ empty_value v.
Proof.
  rewrite <- _isValidValue_spec. by destruct (_isValidValue v).
Qed.

(** The properties of [filteredParams] after the loop: the entries that
    pass its test, but for an entry under [__proto__]. *)
Lemma elem_of_filterParams excludeKeys params k v :
  NoDup params.*1 →
  (k, v) ∈ filterParams excludeKeys params
  ↔ (k, v) ∈ params ∧ (k ∉ excludeKeys) ∧ (¬ empty_value v)
    ∧ k ≠ js "__proto__".
Proof.
  intros Hnd. rewrite filterParams_filter by done.
  rewrite list_elem_of_In, filter_In, <- list_elem_of_In.
  rewrite own_properties_Permutation.
  unfold kept. simpl.
  rewrite !andb_true_iff, !negb_true_iff, !bool_decide_eq_false, _isValidValue_true.
  tauto.
Qed.

Lemma filterParams_keys_NoDup excludeKeys params :
  NoDup params.*1 → NoDup (filterParams excludeKeys params).*1.
Proof.
  intros Hnd. rewrite filterParams_filter by done.
  by apply filter_keys_NoDup, own_properties_keys_NoDup.
Qed.

(** Of the parameters under distinct keys other than [__proto__], the loop
    of [generateSignature] keeps exactly those whose key is not excluded
    and whose value is not [null], [undefined], the empty string, the empty
    array or the object without keys; so 0, [false] and non-empty arrays
    and objects stay.  The example of the specification has the canonical
    string [amount=39.99&app_id=A1]. *)
Lemma emptiness_filtering (excludeKeys : gset JsString) (params : Props) :
  NoDup params.*1 →
  (∀ k v, k ≠ js "__proto__" →
          (k, v) ∈ filterParams excludeKeys params
          ↔ (k, v) ∈ params ∧ (k ∉ excludeKeys) ∧ (¬ empty_value v))
  ∧ (¬ empty_value (VNumber (Finite 0 0)))
  ∧ (¬ empty_value (VBoolean false))
  ∧ (∀ x items, ¬ empty_value (VArray (x :: items)))
  ∧ (∀ p props, ¬ empty_value (VObject (p :: props)))
  ∧ _buildSignString (signedParams payment_params None None)
    = Ok (js "amount=39.99&app_id=A1").
Proof.
  intros Hnd. split_and!.
  - intros k v Hk. rewrite elem_of_filterParams by done. tauto.
  - by intros [|[|[|[|]]]].
  - by intros [|[|[|[|]]]].
  - by intros x items [|[|[|[|]]]].
  - by intros p props [|[|[|[|]]]].
  - vm_compute. reflexivity.
Qed.

(** ** Well-formed parameters *)

Lemma not_surrogate_below c :
  c < 0xD800 → is_high_surrogate c = false ∧ is_low_surrogate c = false.
Proof.
  intros Hc. unfold is_high_surrogate, is_low_surrogate, in_range.
  split; apply andb_false_iff; left; apply N.leb_gt; lia.
Qed.

Lemma isWellFormed_cons_plain c s :
  c < 0xD800 → isWellFormed (c :: s) = isWellFormed s.
Proof.
  intros Hc. simpl. by destruct (not_surrogate_below c Hc) as [-> ->].
Qed.

Lemma isWellFormed_app_le (n : nat) (a b : JsString) :
  (length a ≤ n)%nat →
  isWellFormed a = true → isWellFormed b = true → isWellFormed (a ++ b) = true.
Proof.
  revert a. induction n as [|n IH]; intros [|c a] Hlen Ha Hb; simpl in Hlen;
    try lia; try exact Hb.
  cbn [app isWellFormed] in *.
  destruct (is_high_surrogate c).
  - destruct a as [|d a]; [done|]. cbn [app].
    apply andb_prop in Ha as [-> Ha]. cbn [andb]. apply IH; [simpl in Hlen; lia|done|done].
  - apply andb_prop in Ha as [-> Ha]. cbn [andb]. apply IH; [lia|done|done].
Qed.

Lemma isWellFormed_app a b :
  isWellFormed a = true → isWellFormed b = true → isWellFormed (a ++ b) = true.
Proof. apply (isWellFormed_app_le (length a)). lia. Qed.

Lemma plain_isWellFormed s : plain s → isWellFormed s = true.
Proof.
  induction 1 as [|c s Hc _ IH]; [done|].
  by rewrite isWellFormed_cons_plain.
Qed.

Lemma plain_js (text : string) : plain (js text).
Proof.
  unfold plain, js. apply Forall_forall. intros c Hin.
  apply list_elem_of_fmap in Hin as (a & -> & _).
  pose proof (N_ascii_bounded a). lia.
Qed.

Lemma plain_app a b : plain a → plain b → plain (a ++ b).
Proof. apply Forall_app_2. Qed.

Lemma plain_uint_units d : plain (uint_units d).
Proof. induction d; simpl; constructor; try done; lia. Qed.

Lemma plain_decimal_digits n : plain (decimal_digits n).
Proof. apply plain_uint_units. Qed.

Lemma plain_drop_while (p : N → bool) s : plain s → plain (drop_while p s).
Proof.
  induction 1 as [|c s Hc Hs IH]; simpl; [constructor|].
  destruct (p c); [done|by constructor].
Qed.

Lemma plain_rev s : plain s → plain (rev s).
Proof. apply List.Forall_rev. Qed.

Lemma plain_repeat c n : c < 0xD800 → plain (repeat c n).
Proof. intros Hc. induction n; simpl; by constructor. Qed.

Lemma plain_firstn n s : plain s → plain (firstn n s).
Proof. apply Forall_take. Qed.

Lemma plain_skipn n s : plain s → plain (skipn n s).
Proof. apply Forall_drop. Qed.

Lemma plain_Number_toString x : plain (Number_toString x).
Proof.
  destruct x as [|neg|m sc]; unfold Number_toString.
  - apply plain_js.
  - apply plain_app; [destruct neg; [apply plain_js|constructor]|apply plain_js].
  - destruct (m =? 0)%Z; [apply plain_js|].
    set (digits := decimal_digits _).
    assert (Hd : plain digits) by apply plain_decimal_digits.
    assert (Hs : plain (strip_trailing_zeros digits)).
    { unfold strip_trailing_zeros. by apply plain_rev, plain_drop_while, plain_rev. }
    cbv zeta.
    apply plain_app; [destruct (m <? 0)%Z; [apply plain_js|constructor]|].
    repeat match goal with
           | |- plain (if ?b then _ else _) => destruct b
           end.
    + apply plain_app; [done|]. by apply plain_repeat.
    + apply plain_app; [by apply plain_firstn|].
      apply plain_app; [apply plain_js|by apply plain_skipn].
    + apply plain_app; [apply plain_js|].
      apply plain_app; [by apply plain_repeat|done].
    + apply plain_app.
      { destruct (strip_trailing_zeros digits) as [|d [|d' ds]]; [constructor|done|].
        apply Forall_cons in Hs as [Hd0 Hs]. constructor; [done|].
        apply plain_app; [apply plain_js|done]. }
      apply plain_app; [apply plain_js|].
      apply plain_app; [|apply plain_decimal_digits].
      match goal with |- plain (if ?b then _ else _) => destruct b end;
        apply plain_js.
Qed.

Lemma hex_digit_plain upper n : hex_digit upper n < 0xD800.
Proof.
  unfold hex_digit. pose proof (N.mod_upper_bound n 16 ltac:(lia)).
  cbv zeta. destruct (_ <? 10); [lia|]. destruct upper; lia.
Qed.

Lemma plain_UnicodeEscape c : plain (UnicodeEscape c).
Proof.
  unfold UnicodeEscape. repeat constructor; try apply hex_digit_plain; done.
Qed.

Lemma isWellFormed_json_escape_unit c :
  is_high_surrogate c = false → is_low_surrogate c = false →
  isWellFormed (json_escape_unit c) = true.
Proof.
  intros Hh Hl. unfold json_escape_unit.
  repeat match goal with
         | |- isWellFormed (if ?b then _ else _) = true => destruct b eqn:?
         end;
    try (apply plain_isWellFormed; repeat constructor; done).
  - apply plain_isWellFormed, plain_UnicodeEscape.
  - simpl. by rewrite Hh, Hl.
Qed.

Lemma isWellFormed_json_quote_units_le (n : nat) (s : JsString) :
  (length s ≤ n)%nat → isWellFormed (json_quote_units s) = true.
Proof.
  revert s. induction n as [|n IH]; intros [|c s] Hlen; simpl in Hlen;
    try lia; try done.
  cbn [json_quote_units].
  destruct (is_high_surrogate c) eqn:Hh.
  - destruct s as [|d s].
    + apply plain_isWellFormed, plain_UnicodeEscape.
    + destruct (is_low_surrogate d) eqn:Hd.
      * cbn [isWellFormed]. rewrite Hh, Hd. cbn [andb].
        apply IH. simpl in Hlen. lia.
      * apply isWellFormed_app;
          [apply plain_isWellFormed, plain_UnicodeEscape|apply IH; lia].
  - destruct (is_low_surrogate c) eqn:Hl.
    + apply isWellFormed_app;
        [apply plain_isWellFormed, plain_UnicodeEscape|apply IH; lia].
    + apply isWellFormed_app;
        [by apply isWellFormed_json_escape_unit|apply IH; lia].
Qed.

Lemma isWellFormed_QuoteJSONString s : isWellFormed (QuoteJSONString s) = true.
Proof.
  unfold QuoteJSONString. rewrite isWellFormed_cons_plain by done.
  apply isWellFormed_app; [|done].
  apply (isWellFormed_json_quote_units_le (length s)). lia.
Qed.

Lemma isWellFormed_join sep parts :
  isWellFormed sep = true →
  Forall (fun p => isWellFormed p = true) parts →
  isWellFormed (join sep parts) = true.
Proof.
  intros Hsep. induction 1 as [|p parts Hp Hparts IH]; [done|].
  destruct parts as [|q parts]; [done|].
  change (join sep (p :: q :: parts)) with (p ++ sep ++ join sep (q :: parts)).
  by repeat apply isWellFormed_app.
Qed.

Lemma isWellFormed_json_members rendered :
  Forall (fun p => well_formed_text (snd p)) rendered →
  Forall (fun member => isWellFormed member = true) (json_members rendered).
Proof.
  unfold json_members.
  induction 1 as [|[k [text|]] rendered Hp _ IH];
    cbn [List.concat List.map snd fst]; [constructor| |done].
  apply Forall_app_2; [|done]. constructor; [|constructor].
  apply isWellFormed_app; [apply isWellFormed_QuoteJSONString|].
  apply isWellFormed_app; [apply plain_isWellFormed, plain_js|exact Hp].
Qed.

(** The text of [JSON.stringify] is well-formed UTF-16 whatever the strings
    in the value: unpaired surrogates are escaped. *)
Lemma isWellFormed_SerializeJSONProperty v :
  well_formed_text (SerializeJSONProperty v).
Proof.
  induction v as [| |b|x|s|items IH|props IH] using JsValue_ind;
    cbn [SerializeJSONProperty well_formed_text].
  - done.
  - apply plain_isWellFormed, plain_js.
  - destruct b; apply plain_isWellFormed, plain_js.
  - destruct (is_finite x); apply plain_isWellFormed;
      [apply plain_Number_toString|apply plain_js].
  - apply isWellFormed_QuoteJSONString.
  - apply isWellFormed_app; [apply plain_isWellFormed, plain_js|].
    apply isWellFormed_app; [|apply plain_isWellFormed, plain_js].
    apply isWellFormed_join; [apply plain_isWellFormed, plain_js|].
    induction IH as [|item items Hitem _ IHitems]; cbn [List.map];
      constructor; [|done].
    destruct (SerializeJSONProperty item) as [t|];
      [exact Hitem|apply plain_isWellFormed, plain_js].
  - apply isWellFormed_app; [apply plain_isWellFormed, plain_js|].
    apply isWellFormed_app; [|apply plain_isWellFormed, plain_js].
    apply isWellFormed_join; [apply plain_isWellFormed, plain_js|].
    apply isWellFormed_json_members.
    rewrite own_properties_Permutation.
    induction IH as [|[k v] props Hv _ IHprops]; cbn [List.map];
      constructor; done.
Qed.

(** Only a string value can bring an unpaired surrogate into the canonical
    string. *)
Lemma isWellFormed__normalizeValue v :
  (∀ s, v ≠ VString s) → isWellFormed (_normalizeValue v) = true.
Proof.
  intros Hkind. destruct v as [| |b|x|s|items|props]; unfold _normalizeValue.
  - apply plain_isWellFormed, plain_js.
  - apply plain_isWellFormed, plain_js.
  - destruct b; apply plain_isWellFormed, plain_js.
  - apply plain_isWellFormed, plain_Number_toString.
  - by destruct (Hkind s).
  - pose proof (isWellFormed_SerializeJSONProperty
                  (_sortObjectKeys (VArray items))) as Htext.
    unfold JSON_stringify.
    destruct (SerializeJSONProperty _) as [text|];
      [exact Htext|apply plain_isWellFormed, plain_js].
  - pose proof (isWellFormed_SerializeJSONProperty
                  (_sortObjectKeys (VObject props))) as Htext.
    unfold JSON_stringify.
    destruct (SerializeJSONProperty _) as [text|];
      [exact Htext|apply plain_isWellFormed, plain_js].
Qed.

Lemma encodable_entry_well_formed params key :
  encodable_entry params key = well_formed_entry (key, get_prop params key).
Proof.
  unfold encodable_entry, well_formed_entry. simpl. f_equal.
  destruct (get_prop params key) as [| |b|x|s|items|props] eqn:Hv;
    try reflexivity; apply isWellFormed__normalizeValue; by intros s'.
Qed.

Lemma get_prop_first (props : Props) k :
  k ∈ props.*1 → (k, get_prop props k) ∈ props.
Proof.
  induction props as [|[k' v] props IH]; simpl.
  - intros H. by apply elem_of_nil in H.
  - intros Hin. destruct (decide (k' = k)) as [->|Hne].
    + rewrite bool_decide_eq_true_2 by done. by left.
    + rewrite bool_decide_eq_false_2 by done. right. apply IH.
      apply elem_of_cons in Hin as [?|?]; [congruence|done].
Qed.

(** Under distinct keys, [encodable] speaks of every entry. *)
Lemma encodable_entries (params : Props) :
  NoDup params.*1 →
  encodable params ↔ Forall (fun p => well_formed_entry p = true) params.
Proof.
  intros Hnd. unfold encodable.
  rewrite Object_keys_Permutation, !Forall_forall. split.
  - intros H [k v] Hin.
    rewrite <- (get_prop_elem params k v) by done.
    rewrite <- encodable_entry_well_formed. apply H.
    by apply (list_elem_of_fmap_2 fst) in Hin.
  - intros H k Hk. rewrite encodable_entry_well_formed.
    by apply H, get_prop_first.
Qed.

Lemma filterParams_NoDup excludeKeys params :
  NoDup (filterParams excludeKeys params).*1.
Proof.
  rewrite filterParams_fold.
  assert (H : ∀ entries acc, NoDup acc.*1 →
              NoDup (fold_left (filterStep excludeKeys) entries acc).*1).
  { induction entries as [|p entries IH]; intros acc Hacc; simpl; [done|].
    apply IH. unfold filterStep. destruct (kept _ _); [|done].
    by apply set_prop_keys_NoDup. }
  apply H. constructor.
Qed.

Lemma signedParams_NoDup params timestamp excludeKeys :
  NoDup (signedParams params timestamp excludeKeys).*1.
Proof.
  unfold signedParams. destruct timestamp.
  - apply set_prop_keys_NoDup, filterParams_NoDup.
  - apply filterParams_NoDup.
Qed.

Lemma elem_of_set_prop_inv {V} (props : list (JsString * V)) k v p :
  p ∈ set_prop props k v → p = (k, v) ∨ p ∈ props.
Proof.
  induction props as [|[k' v'] props IH]; simpl.
  - intros ->%list_elem_of_singleton. by left.
  - destruct (bool_decide (k' = k)).
    + intros [->|Hin]%elem_of_cons; [by left|right; by right].
    + intros [->|Hin]%elem_of_cons; [right; by left|].
      destruct (IH Hin) as [->|Hin']; [by left|right; by right].
Qed.

(** The signed parameters are entries of [params], and the time stamp. *)
Lemma elem_of_filterParams_inv excludeKeys params p :
  p ∈ filterParams excludeKeys params → p ∈ params.
Proof.
  rewrite filterParams_fold. unfold Object_entries.
  assert (H : ∀ entries acc,
              p ∈ fold_left (filterStep excludeKeys) entries acc →
              p ∈ acc ∨ p ∈ entries).
  { induction entries as [|[k v] entries IH]; intros acc Hin; simpl in *;
      [by left|].
    destruct (IH _ Hin) as [Hacc|Hrest]; [|right; by right].
    unfold filterStep in Hacc. destruct (kept _ _); [|by left].
    apply elem_of_set_prop_inv in Hacc as [->|Hacc]; [|by left].
    right. by left. }
  intros Hin. destruct (H _ _ Hin) as [Hnil|Hown].
  - by apply elem_of_nil in Hnil.
  - by rewrite own_properties_Permutation in Hown.
Qed.

Lemma signedParams_well_formed params timestamp excludeKeys :
  Forall (fun p => well_formed_entry p = true) params →
  Forall (fun p => well_formed_entry p = true)
         (signedParams params timestamp excludeKeys).
Proof.
  rewrite !Forall_forall. intros H p Hin. unfold signedParams in Hin.
  destruct timestamp as [ts|].
  - apply elem_of_set_prop_inv in Hin as [->|Hin]; [reflexivity|].
    by apply H, (elem_of_filterParams_inv _ _ _ Hin).
  - by apply H, (elem_of_filterParams_inv _ _ _ Hin).
Qed.


(** [generateSignature] returns when every signed entry is well-formed, and
    so when every entry of [params] is. *)
Lemma generateSignature_returns this params timestamp excludeKeys :
  Forall (fun p => well_formed_entry p = true) params →
  ∃ signature,
    generateSignature this params timestamp excludeKeys = Ok signature.
Proof.
  intros Hwf.
  destruct (generateSignature_outcome this params timestamp excludeKeys)
    as [Hok _].
  destruct Hok as (text & _ & Hgen); [|eauto].
  apply encodable_entries; [apply signedParams_NoDup|].
  by apply signedParams_well_formed.
Qed.

(** No property of [filteredParams] has the key [__proto__]. *)
Lemma filterParams_no_proto excludeKeys params :
  Forall (fun entry => fst entry ≠ js "__proto__")
         (filterParams excludeKeys params).
Proof.
  rewrite filterParams_fold.
  assert (H : ∀ entries acc,
              Forall (fun entry => fst entry ≠ js "__proto__") acc →
              Forall (fun entry => fst entry ≠ js "__proto__")
                     (fold_left (filterStep excludeKeys) entries acc)).
  { induction entries as [|[k v] entries IH]; intros acc Hacc; simpl; [done|].
    apply IH. unfold filterStep. destruct (kept _ _) eqn:Hkept; [|done].
    apply Forall_forall. intros p [->|Hp]%elem_of_set_prop_inv.
    - unfold kept in Hkept. simpl in *.
      apply andb_prop in Hkept as [_ Hk].
      by apply negb_true_iff, bool_decide_eq_false in Hk.
    - rewrite Forall_forall in Hacc. by apply Hacc. }
  apply H. constructor.
Qed.

(** ** The canonical string and the order of keys *)

(** [_sortObjectKeys] on an object, in the shape of the source: the sorted
    keys are folded into a fresh object, each with the sorted value of
    [obj[key]]. *)
Lemma _sortObjectKeys_object (props : Props) :
  _sortObjectKeys (VObject props)
  = VObject
      (fold_left (fun result key =>
                    assign_prop result key (_sortObjectKeys (get_prop props key)))
                 (Array_sort (Object_keys props)) []).
Proof.
  cbn [_sortObjectKeys]. f_equal.
  apply fold_left_ext_in. intros result key Hkey. f_equal.
  apply get_prop_fmap.
  by rewrite <- Object_keys_Permutation,
    <- (Array_sort_Permutation (Object_keys props)).
Qed.

(** The canonical string depends on the keys present and on the normalised
    value of each, not on the order of creation. *)
Lemma _buildSignString_ext (p1 p2 : Props) :
  p1.*1 ≡ₚ p2.*1 →
  (∀ k, k ∈ p1.*1 →
        _normalizeValue (get_prop p1 k) = _normalizeValue (get_prop p2 k)) →
  _buildSignString p1 = _buildSignString p2.
Proof.
  intros Hkeys Hvalues. unfold _buildSignString.
  rewrite (Array_sort_Permutation_eq (Object_keys p1) (Object_keys p2))
    by (by rewrite !Object_keys_Permutation).
  rewrite (mapM_ext_in (signPart p1) (signPart p2)); [done|].
  intros key Hkey. unfold signPart. rewrite Hvalues; [done|].
  rewrite Hkeys, <- Object_keys_Permutation.
  by rewrite <- (Array_sort_Permutation (Object_keys p2)).
Qed.

Lemma same_properties_keys R p1 p2 :
  same_properties R p1 p2 → p1.*1 ≡ₚ p2.*1.
Proof.
  intros (Hnd1 & Hnd2 & H12 & H21).
  apply NoDup_Permutation; [done|done|].
  intros k. rewrite !list_elem_of_fmap. split.
  - intros ([k' v1] & -> & Hin). destruct (H12 _ _ Hin) as (v2 & Hin2 & _).
    by exists (k', v2).
  - intros ([k' v2] & -> & Hin). destruct (H21 _ _ Hin) as (v1 & Hin1 & _).
    by exists (k', v1).
Qed.

Lemma same_properties_get R p1 p2 k :
  same_properties R p1 p2 → k ∈ p1.*1 →
  (k, get_prop p1 k) ∈ p1 ∧ (k, get_prop p2 k) ∈ p2
  ∧ R (get_prop p1 k) (get_prop p2 k).
Proof.
  intros (Hnd1 & Hnd2 & H12 & _) ([k' v1] & -> & Hin)%list_elem_of_fmap.
  destruct (H12 _ _ Hin) as (v2 & Hin2 & HR). simpl.
  by rewrite (get_prop_elem p1 k' v1), (get_prop_elem p2 k' v2).
Qed.

(** [_sortObjectKeys] gives equal results on semantically equal values. *)
Lemma _sortObjectKeys_sem_eq v1 :
  ∀ v2, sem_eq v1 v2 → _sortObjectKeys v1 = _sortObjectKeys v2.
Proof.
  induction v1 as [| |b|x|s|items IH|props IH] using JsValue_ind;
    intros v2 Heq; inversion Heq as [| | | | |i1 i2 Hitems|p1 p2 Hprops]; subst;
    try reflexivity.
  - simpl. f_equal. clear Heq. induction Hitems as [|a b l1 l2 Hab _ IHl]; simpl; [done|].
    apply Forall_cons in IH as [IHa IHt]. f_equal; auto.
  - cbn [_sortObjectKeys]. f_equal.
    rewrite (Array_sort_Permutation_eq (Object_keys props) (Object_keys p2)).
    2:{ rewrite !Object_keys_Permutation. by eapply same_properties_keys. }
    apply fold_left_ext_in. intros result key Hkey. f_equal.
    assert (Hin2 : key ∈ p2.*1).
    { rewrite <- Object_keys_Permutation.
      by rewrite <- (Array_sort_Permutation (Object_keys p2)). }
    assert (Hin1 : key ∈ props.*1).
    { by rewrite (same_properties_keys _ _ _ Hprops). }
    rewrite !get_prop_fmap by done.
    destruct (same_properties_get _ _ _ key Hprops Hin1) as (Hg1 & _ & HR).
    rewrite Forall_forall in IH.
    by apply (IH (key, get_prop props key)).
Qed.

Lemma _isValidValue_sem_eq v1 v2 :
  sem_eq v1 v2 → _isValidValue v1 = _isValidValue v2.
Proof.
  intros Heq. inversion Heq as [| | | | |i1 i2 Hitems|p1 p2 Hprops]; subst;
    try reflexivity.
  - simpl. by rewrite (Forall2_length _ _ _ Hitems).
  - simpl. unfold Object_keys.
    rewrite !length_map, !own_properties_length, <- !(length_fmap fst).
    by rewrite (same_properties_keys _ _ _ Hprops).
Qed.

Lemma _normalizeValue_sem_eq v1 v2 :
  sem_eq v1 v2 → _normalizeValue v1 = _normalizeValue v2.
Proof.
  intros Heq. pose proof (_sortObjectKeys_sem_eq _ _ Heq) as Hsort.
  inversion Heq; subst; try reflexivity; unfold _normalizeValue; by rewrite Hsort.
Qed.

(** The loop of [generateSignature] keeps semantically equal parameters
    semantically equal. *)
Lemma filterParams_same_properties excludeKeys p1 p2 :
  same_properties sem_eq p1 p2 →
  same_properties sem_eq (filterParams excludeKeys p1) (filterParams excludeKeys p2).
Proof.
  intros (Hnd1 & Hnd2 & H12 & H21).
  split_and!; try by apply filterParams_keys_NoDup.
  - intros k v1 (Hin & Hex & Hv & Hk)%elem_of_filterParams; [|done].
    destruct (H12 _ _ Hin) as (v2 & Hin2 & Heq). exists v2. split; [|done].
    apply elem_of_filterParams; [done|]. split_and!; [done|done| |done].
    by rewrite <- _isValidValue_true, <- (_isValidValue_sem_eq _ _ Heq),
      _isValidValue_true.
  - intros k v2 (Hin & Hex & Hv & Hk)%elem_of_filterParams; [|done].
    destruct (H21 _ _ Hin) as (v1 & Hin1 & Heq). exists v1. split; [|done].
    apply elem_of_filterParams; [done|]. split_and!; [done|done| |done].
    by rewrite <- _isValidValue_true, (_isValidValue_sem_eq _ _ Heq),
      _isValidValue_true.
Qed.

Lemma _buildSignString_same_properties p1 p2 :
  same_properties sem_eq p1 p2 → _buildSignString p1 = _buildSignString p2.
Proof.
  intros Hsame. apply _buildSignString_ext.
  - by eapply same_properties_keys.
  - intros k Hk. apply _normalizeValue_sem_eq.
    by apply (same_properties_get _ _ _ k Hsame).
Qed.

Lemma set_prop_same_properties p1 p2 k v :
  sem_eq v v → same_properties sem_eq p1 p2 →
  same_properties sem_eq (set_prop p1 k v) (set_prop p2 k v).
Proof.
  intros Hv (Hnd1 & Hnd2 & H12 & H21).
  split_and!; try by apply set_prop_keys_NoDup.
  - intros k' v1 Hin. apply elem_of_set_prop in Hin; [|done].
    destruct Hin as [[-> ->]|[Hne Hin]].
    + exists v. split; [|done]. apply elem_of_set_prop; [done|]. by left.
    + destruct (H12 _ _ Hin) as (v2 & Hin2 & Heq). exists v2. split; [|done].
      apply elem_of_set_prop; [done|]. by right.
  - intros k' v2 Hin. apply elem_of_set_prop in Hin; [|done].
    destruct Hin as [[-> ->]|[Hne Hin]].
    + exists v. split; [|done]. apply elem_of_set_prop; [done|]. by left.
    + destruct (H21 _ _ Hin) as (v1 & Hin1 & Heq). exists v1. split; [|done].
      apply elem_of_set_prop; [done|]. by right.
Qed.

Lemma signedParams_same_properties p1 p2 timestamp excludeKeys :
  same_properties sem_eq p1 p2 →
  same_properties sem_eq (signedParams p1 timestamp excludeKeys)
                  (signedParams p2 timestamp excludeKeys).
Proof.
  intros Hsame. unfold signedParams.
  destruct timestamp as [ts|].
  - apply set_prop_same_properties; [constructor|].
    by apply filterParams_same_properties.
  - by apply filterParams_same_properties.
Qed.

(** The canonical string of parameters under distinct keys depends only on
    the set of their entries. *)
Lemma _buildSignString_same_entries (p1 p2 : Props) :
  NoDup p1.*1 → NoDup p2.*1 →
  (∀ k v, (k, v) ∈ p1 ↔ (k, v) ∈ p2) →
  _buildSignString p1 = _buildSignString p2.
Proof.
  intros Hnd1 Hnd2 Hsame. apply _buildSignString_ext.
  - apply NoDup_Permutation; [done|done|].
    intros k. rewrite !list_elem_of_fmap.
    split; intros ([k' v] & -> & Hin); exists (k', v); split; try done;
      by apply Hsame.
  - intros k ([k' v] & -> & Hin)%list_elem_of_fmap. simpl.
    rewrite (get_prop_elem p1 k' v) by done.
    rewrite (get_prop_elem p2 k' v); [done|done|by apply Hsame].
Qed.

Lemma nested_params_sem_eq :
  sem_eq (VObject nested_params) (VObject nested_params_reordered).
Proof.
  assert (sem_eq (VObject [(js "p", VString (js "q")); (js "r", VNull)])
                 (VObject [(js "r", VNull); (js "p", VString (js "q"))]))
    by solve_sem_eq_object.
  assert (sem_eq
            (VObject [(js "x", VNumber (Finite 1 0));
                      (js "y", VArray [VBoolean true;
                                       VObject [(js "p", VString (js "q"));
                                                (js "r", VNull)]])])
            (VObject [(js "y", VArray [VBoolean true;
                                       VObject [(js "r", VNull);
                                                (js "p", VString (js "q"))]]);
                      (js "x", VNumber (Finite 1 0))]))
    by solve_sem_eq_object.
  solve_sem_eq_object.
Qed.

(** ** The replay window *)

Lemma pow10_pos s : (0 < pow10 s)%Z.
Proof. unfold pow10. apply Z.pow_pos_nonneg; lia. Qed.

(** *** Integers as doubles *)

Section Integers.
Local Open Scope Z_scope.

Lemma round_half_even_exact n d : 0 < d → round_half_even (n * d) d = n.
Proof.
  intros Hd. unfold round_half_even.
  rewrite Z.div_mul, Z.mod_mul by lia.
  replace (2 * 0 <? d) with true by (symmetry; apply Z.ltb_lt; lia). done.
Qed.

Lemma scale_integer a k e :
  0 ≤ k → e ≤ 0 → ∃ d, 0 < d ∧ scale (a * 2 ^ k) (2 ^ k) e = (a * 2 ^ (- e) * d, d).
Proof.
  intros Hk He. unfold scale.
  assert (0 < 2 ^ k) as Hpow by (apply Z.pow_pos_nonneg; lia).
  exists (2 ^ k). split; [done|].
  destruct (0 <=? e) eqn:H0.
  - apply Z.leb_le in H0. assert (e = 0) as -> by lia. simpl. f_equal; lia.
  - f_equal. lia.
Qed.

Lemma double_exponent_integer a k :
  0 < a < 2 ^ 53 → 0 ≤ k →
  double_exponent (a * 2 ^ k) (2 ^ k) = Z.log2 a - 52
  ∧ 2 ^ 52 ≤ a * 2 ^ (- (Z.log2 a - 52)) < 2 ^ 53.
Proof.
  intros [Ha Ha53] Hk. unfold double_exponent.
  rewrite Z.log2_mul_pow2, Z.log2_pow2 by lia.
  set (l := Z.log2 a).
  assert (0 ≤ l) as Hl by apply Z.log2_nonneg.
  destruct (Z.log2_spec a Ha) as [Hlo Hhi]. fold l in Hlo, Hhi.
  assert (l < 53) as Hl53 by (by apply Z.log2_lt_pow2).
  replace (k + l - k - 52) with (l - 52) by lia.
  set (e := l - 52).
  assert (e ≤ 0) as He by lia.
  assert (2 ^ l * 2 ^ (- e) = 2 ^ 52) as Hscale.
  { rewrite <- Z.pow_add_r by lia. f_equal. lia. }
  assert (2 ^ (Z.succ l) * 2 ^ (- e) = 2 ^ 53) as Hscale'.
  { rewrite <- Z.pow_add_r by lia. f_equal. lia. }
  assert (0 < 2 ^ (- e)) as Hpe by (apply Z.pow_pos_nonneg; lia).
  assert (2 ^ 52 ≤ a * 2 ^ (- e) < 2 ^ 53) as Hbits by nia.
  split; [|done].
  destruct (scale_integer a k e Hk He) as (d & Hd & ->).
  rewrite Z.div_mul by lia.
  replace (a * 2 ^ (- e) <? 2 ^ 52) with false by (symmetry; apply Z.ltb_ge; lia).
  lia.
Qed.

(** An integer below 2^53 in magnitude is a double: rounding keeps it. *)
Lemma round_to_double_integer z k :
  Z.abs z < 2 ^ 53 → 0 ≤ k →
  holds_integer (round_to_double (z * 2 ^ k) (2 ^ k)) z.
Proof.
  intros Hz Hk. unfold round_to_double.
  assert (0 < 2 ^ k) as Hpow by (apply Z.pow_pos_nonneg; lia).
  destruct (z * 2 ^ k =? 0) eqn:Hzero.
  { apply Z.eqb_eq in Hzero. simpl. split; [done|]. nia. }
  apply Z.eqb_neq in Hzero.
  assert (z ≠ 0) as Hz0 by (intros ->; lia).
  replace (Z.abs (z * 2 ^ k)) with (Z.abs z * 2 ^ k) by (rewrite Z.abs_mul; lia).
  destruct (double_exponent_integer (Z.abs z) k) as [-> Hbits]; [lia|done|].
  set (e := Z.log2 (Z.abs z) - 52) in *.
  assert (e ≤ 0) as He.
  { unfold e. assert (Z.log2 (Z.abs z) < 53); [|lia].
    apply Z.log2_lt_pow2; lia. }
  cbv zeta.
  destruct (scale_integer (Z.abs z) k e Hk He) as (d & Hd & ->).
  rewrite round_half_even_exact by done.
  replace (Z.abs z * 2 ^ (- e) =? 2 ^ 53) with false by (symmetry; apply Z.eqb_neq; lia).
  unfold make_double.
  replace (971 <? e) with false by (symmetry; apply Z.ltb_ge; lia).
  simpl. split; [done|].
  destruct (z * 2 ^ k <? 0) eqn:Hneg.
  - apply Z.ltb_lt in Hneg. nia.
  - apply Z.ltb_ge in Hneg. nia.
Qed.

Lemma Number_subtract_integers x y a b :
  holds_integer x a → holds_integer y b → Z.abs (a - b) < 2 ^ 53 →
  holds_integer (Number_subtract x y) (a - b).
Proof.
  destruct x as [| |m e], y as [| |m' e']; try done.
  intros [He ->] [He' ->] Hdiff. cbn [Number_subtract]. cbv zeta.
  set (e0 := Z.min e e').
  assert (e0 ≤ 0) as He0 by lia.
  replace (0 <=? e0) with (e0 =? 0) by (destruct (Z.eqb_spec e0 0), (Z.leb_spec 0 e0); lia).
  assert (a * 2 ^ (- e) * 2 ^ (e - e0) - b * 2 ^ (- e') * 2 ^ (e' - e0)
          = (a - b) * 2 ^ (- e0)) as ->.
  { rewrite <- !Z.mul_assoc, <- !Z.pow_add_r by lia.
    replace (- e + (e - e0)) with (- e0) by lia.
    replace (- e' + (e' - e0)) with (- e0) by lia. lia. }
  destruct (Z.eqb_spec e0 0) as [->|Hne].
  - simpl. rewrite Z.mul_1_r.
    replace ((a - b) * 1) with ((a - b) * 2 ^ 0) by (simpl; lia).
    by apply (round_to_double_integer (a - b) 0).
  - apply round_to_double_integer; [done|lia].
Qed.

Lemma Math_abs_integer x a : holds_integer x a → holds_integer (Math_abs x) (Z.abs a).
Proof.
  destruct x as [| |m e]; try done. intros [He ->]. split; [done|].
  rewrite Z.abs_mul. f_equal. apply Z.abs_eq. apply Z.pow_nonneg. lia.
Qed.

Lemma Number_le_integers x y a b :
  holds_integer x a → holds_integer y b → Number_le x y = (a <=? b).
Proof.
  destruct x as [| |m e], y as [| |m' e']; try done.
  intros [He ->] [He' ->]. cbn [Number_le]. cbv zeta.
  set (e0 := Z.min e e').
  rewrite <- !Z.mul_assoc, <- !Z.pow_add_r by lia.
  replace (- e + (e - e0)) with (- e0) by lia.
  replace (- e' + (e' - e0)) with (- e0) by lia.
  assert (0 < 2 ^ (- e0)) by (apply Z.pow_pos_nonneg; lia).
  destruct (Z.leb_spec a b), (Z.leb_spec (a * 2 ^ (- e0)) (b * 2 ^ (- e0))); nia.
Qed.

Lemma ToDouble_integer z :
  Z.abs z < 2 ^ 53 → holds_integer (ToDouble (Finite z 0)) z.
Proof.
  intros Hz. cbn [ToDouble]. change (pow10 0) with (2 ^ 0).
  rewrite <- (Z.mul_1_r z) at 1. change 1 with (2 ^ 0) at 1.
  by apply round_to_double_integer.
Qed.

(** The check of a time stamp that is a number. *)
Lemma _checkTimestamp_number w x tolerance :
  _checkTimestamp w (VNumber x) tolerance
  = if isNaN (ToDouble x) then false
    else Number_le (Math_abs (Number_subtract (currentTime w) (ToDouble x)))
                   (ToDouble tolerance).
Proof. unfold _checkTimestamp. cbn [bind]. by destruct (isNaN _). Qed.

(** The check of a time stamp that is no number: [String] raises, or
    [parseInt] reads its result. *)
Lemma _checkTimestamp_text w timestamp tolerance :
  (∀ x, timestamp ≠ VNumber x) →
  _checkTimestamp w timestamp tolerance
  = match String_ timestamp with
    | Throw _ => false
    | Ok text =>
      if isNaN (parseInt text) then false
      else Number_le (Math_abs (Number_subtract (currentTime w) (parseInt text)))
                     (ToDouble tolerance)
    end.
Proof.
  intros Hkind. unfold _checkTimestamp.
  destruct timestamp as [| |b|x|s|items|props]; try (by destruct (Hkind x));
    destruct (String_ _); cbn [bind]; try done; by destruct (isNaN _).
Qed.

(** On integers that doubles hold exactly, with a difference that is held
    exactly too, [_checkTimestamp] is the comparison of the integers. *)
Lemma _checkTimestamp_integers w ts tolerance :
  Z.abs (Date_now w / 1000) < 2 ^ 52 → Z.abs ts < 2 ^ 52 →
  Z.abs tolerance < 2 ^ 53 →
  _checkTimestamp w (VNumber (Finite ts 0)) (Finite tolerance 0)
  = (Z.abs (Date_now w / 1000 - ts) <=? tolerance).
Proof.
  intros Hnow Hts Htol. rewrite _checkTimestamp_number. unfold currentTime.
  pose proof (ToDouble_integer ts ltac:(lia)) as Hx.
  pose proof (ToDouble_integer tolerance Htol) as Ht.
  assert (holds_integer (round_to_double (Date_now w / 1000) 1) (Date_now w / 1000))
    as Hc.
  { rewrite <- (Z.mul_1_r (Date_now w / 1000)) at 1. change 1 with (2 ^ 0) at 1 2.
    apply round_to_double_integer; lia. }
  destruct (ToDouble (Finite ts 0)) as [| |m e] eqn:Hd; try done.
  cbn [isNaN]. rewrite <- Hd in *.
  apply Number_le_integers; [|done].
  apply Math_abs_integer, Number_subtract_integers; [done|done|lia].
Qed.

End Integers.

(** A time stamp other than 0 that lies beyond the tolerance is rejected,
    whatever the signature: here for integers that doubles hold exactly. *)
Lemma validate_rejects_stale_timestamp w this params signature (ts tolerance : Z) :
  get_prop params (js "timestamp") = VNumber (Finite ts 0) →
  ts ≠ 0%Z →
  (Z.abs (Date_now w / 1000) < 2 ^ 52)%Z → (Z.abs ts < 2 ^ 52)%Z →
  (Z.abs tolerance < 2 ^ 53)%Z →
  (tolerance < Z.abs (Date_now w / 1000 - ts))%Z →
  validate w this params signature (Some (Finite tolerance 0)) = Ok false.
Proof.
  intros Hts Hnz Hnow Hsafe Htol Hstale. rewrite validate_outcome. unfold stale.
  rewrite Hts, _checkTimestamp_integers by done.
  cbn [ToBoolean]. apply Z.eqb_neq in Hnz as ->.
  by apply Z.leb_gt in Hstale as ->.
Qed.

(** A time stamp that is not a number and does not parse fails the check:
    [validate] returns [false]. *)
Lemma validate_unparseable_timestamp w this params signature tolerance :
  ToBoolean (get_prop params (js "timestamp")) = true →
  (∀ x, get_prop params (js "timestamp") ≠ VNumber x) →
  parseInt (ToString (get_prop params (js "timestamp"))) = DNaN →
  validate w this params signature (Some tolerance) = Ok false.
Proof.
  intros Htruthy Hkind Hparse. rewrite validate_outcome. unfold stale.
  rewrite Htruthy, _checkTimestamp_text by done. unfold String_.
  destruct (String_raises _); [done|]. by rewrite Hparse.
Qed.

(** A signature whose bytes are not those of the expected signature, for
    instance one of another length, is rejected without an exception. *)
Lemma validate_rejects_other_signature w this params signature expected
      timestampTolerance :
  generateSignature this params None None = Ok expected →
  Buffer_from expected ≠ Buffer_from signature →
  validate w this params signature timestampTolerance = Ok false.
Proof.
  intros Hgen Hne. rewrite validate_outcome.
  destruct (stale _ _ _); [done|].
  rewrite Hgen. simpl. by rewrite bool_decide_eq_false_2.
Qed.

(** The round trip through the convenience functions [quickSign] and
    [quickValidate]. *)
Lemma quickValidate_round_trip w params secret signature :
  quickSign params secret = Ok signature →
  quickValidate w params signature secret = Ok true.
Proof.
  unfold quickSign, quickValidate. rewrite constructor_outcome.
  destruct (decide (blank secret)); simpl; [done|].
  intros Hsig. rewrite validate_outcome. simpl. rewrite Hsig. simpl.
  by rewrite bool_decide_eq_true_2.
Qed.

(** ** The alphabet of the canonical string *)

Lemma hex_digit_upper_unreserved n : uriUnreserved (hex_digit true n) = true.
Proof.
  unfold hex_digit.
  assert (n mod 16 < 16) as Hlt by (apply N.mod_lt; lia).
  remember (n mod 16) as d eqn:Hd. clear Hd.
  unfold uriUnreserved, in_range.
  destruct (d <? 10) eqn:Hd.
  - apply N.ltb_lt in Hd.
    replace (0x30 <=? 0x30 + d) with true by (symmetry; apply N.leb_le; lia).
    replace (0x30 + d <=? 0x39) with true by (symmetry; apply N.leb_le; lia).
    simpl. by rewrite !orb_true_r.
  - apply N.ltb_ge in Hd.
    replace (0x41 <=? 0x41 + (d - 10)) with true by (symmetry; apply N.leb_le; lia).
    replace (0x41 + (d - 10) <=? 0x5A) with true by (symmetry; apply N.leb_le; lia).
    done.
Qed.

Lemma percent_encode_units cp :
  Forall (fun c => encoded_unit c = true) (percent_encode cp).
Proof.
  unfold percent_encode.
  induction (utf8_octets cp) as [|b l IH]; simpl; [constructor|].
  constructor; [done|].
  constructor; [unfold encoded_unit; by rewrite hex_digit_upper_unreserved|].
  constructor; [unfold encoded_unit; by rewrite hex_digit_upper_unreserved|].
  exact IH.
Qed.

Lemma encodeURIComponent_units_le (n : nat) (s text : JsString) :
  (length s ≤ n)%nat →
  encodeURIComponent s = Ok text →
  Forall (fun c => encoded_unit c = true) text.
Proof.
  revert s text. induction n as [|n IH]; intros s text Hlen.
  - destruct s; [|simpl in Hlen; lia]. intros [= <-]. constructor.
  - destruct s as [|c rest]; [intros [= <-]; constructor|].
    simpl in Hlen. cbn [encodeURIComponent].
    destruct (uriUnreserved c) eqn:Hc.
    { intros (r & Hr & [= <-])%bind_Ok. constructor.
      - unfold encoded_unit. by rewrite Hc.
      - apply (IH rest); [lia|done]. }
    destruct (is_low_surrogate c); [done|].
    destruct (is_high_surrogate c).
    { destruct rest as [|d rest']; [done|].
      destruct (is_low_surrogate d); [|done].
      intros (r & Hr & [= <-])%bind_Ok.
      apply Forall_app. split; [apply percent_encode_units|].
      apply (IH rest'); [simpl in Hlen; lia|done]. }
    intros (r & Hr & [= <-])%bind_Ok.
    apply Forall_app. split; [apply percent_encode_units|].
    apply (IH rest); [lia|done].
Qed.

Lemma encodeURIComponent_units (s text : JsString) :
  encodeURIComponent s = Ok text →
  Forall (fun c => encoded_unit c = true) text.
Proof. by apply (encodeURIComponent_units_le (length s)). Qed.

Lemma uriUnreserved_ascii c : uriUnreserved c = true → c < 0x80.
Proof.
  unfold uriUnreserved, in_range. intros H.
  repeat (apply orb_prop in H as [H|H]).
  - apply andb_prop in H as [_ H]; apply N.leb_le in H; lia.
  - apply andb_prop in H as [_ H]; apply N.leb_le in H; lia.
  - apply andb_prop in H as [_ H]; apply N.leb_le in H; lia.
  - apply bool_decide_eq_true in H.
    unfold js in H. cbn in H.
    repeat (apply elem_of_cons in H as [->|H]; [lia|]).
    by apply elem_of_nil in H.
Qed.

Lemma canonical_unit_ascii c : canonical_unit c = true → c < 0x80.
Proof.
  unfold canonical_unit. intros [H|H]%orb_prop; [by apply uriUnreserved_ascii|].
  apply bool_decide_eq_true in H. unfold js in H. cbn in H.
  repeat (apply elem_of_cons in H as [->|H]; [lia|]).
  by apply elem_of_nil in H.
Qed.

Lemma encoded_unit_canonical c : encoded_unit c = true → canonical_unit c = true.
Proof.
  unfold encoded_unit, canonical_unit.
  intros [->|H]%orb_prop; [done|].
  apply N.eqb_eq in H as ->. by rewrite orb_true_r.
Qed.

Lemma mapM_Forall2 {A B} (f : A → Result B) (l : list A) (ys : list B) :
  mapM f l = Ok ys ↔ Forall2 (fun x y => f x = Ok y) l ys.
Proof.
  revert ys. induction l as [|x l IH]; intros ys; simpl.
  - split; [intros [= <-]; constructor|by intros ->%Forall2_nil_inv_l].
  - split.
    + intros (y & Hy & (ys' & Hys & [= <-])%bind_Ok)%bind_Ok.
      constructor; [done|]. by apply IH.
    + intros (y & ys' & Hy & Hys & ->)%Forall2_cons_inv_l.
      rewrite Hy. simpl. apply IH in Hys. by rewrite Hys.
Qed.

Lemma join_units (P : N → Prop) sep parts :
  Forall P sep → Forall (Forall P) parts → Forall P (join sep parts).
Proof.
  intros Hsep. induction 1 as [|p rest Hp Hrest IH]; simpl; [constructor|].
  destruct rest as [|q rest]; [done|].
  apply Forall_app. split; [done|]. apply Forall_app. split; done.
Qed.

Lemma signPart_units params key part :
  signPart params key = Ok part →
  Forall (fun c => canonical_unit c = true) part.
Proof.
  unfold signPart.
  intros (ek & Hek & (ev & Hev & [= <-])%bind_Ok)%bind_Ok.
  apply Forall_app. split.
  { eapply Forall_impl; [by eapply encodeURIComponent_units|].
    apply encoded_unit_canonical. }
  apply (proj2 (Forall_app _ (js "=") ev)). split; [by repeat constructor|].
  eapply Forall_impl; [by eapply encodeURIComponent_units|].
  apply encoded_unit_canonical.
Qed.

Lemma _buildSignString_units params text :
  _buildSignString params = Ok text →
  Forall (fun c => canonical_unit c = true) text.
Proof.
  unfold _buildSignString.
  intros (parts & Hparts & [= <-])%bind_Ok.
  apply join_units; [by repeat constructor|].
  apply mapM_Forall2 in Hparts.
  induction Hparts as [|k p ks ps Hp _ IH]; constructor; [|done].
  by eapply signPart_units.
Qed.

Lemma utf8_octets_ascii c : c < 0x80 → utf8_octets c = [c].
Proof. intros H. unfold utf8_octets. by apply N.ltb_lt in H as ->. Qed.

Lemma Buffer_from_ascii s : Forall (fun c => c < 0x80) s → Buffer_from s = s.
Proof.
  induction 1 as [|c rest Hc _ IH]; [done|].
  cbn [Buffer_from].
  destruct (not_surrogate_below c) as [-> ->]; [lia|].
  by rewrite utf8_octets_ascii, IH.
Qed.

Lemma utf8_octets_head c :
  0x80 ≤ c → ∃ b octets, utf8_octets c = b :: octets ∧ 0x80 ≤ b.
Proof.
  intros H. unfold utf8_octets.
  destruct (c <? 0x80) eqn:H1; [apply N.ltb_lt in H1; lia|].
  destruct (c <? 0x800);
    [eexists _, _; split; [done|etrans; [|apply N.le_add_r]; lia]|].
  destruct (c <? 0x10000); eexists _, _;
    (split; [done|etrans; [|apply N.le_add_r]; lia]).
Qed.

(** Octets that are all ASCII are the octets of one string only: the
    string of these code units. *)
Lemma Buffer_from_ascii_inv_le (n : nat) s :
  (length s ≤ n)%nat →
  Forall (fun b => b < 0x80) (Buffer_from s) → Buffer_from s = s.
Proof.
  revert s. induction n as [|n IH]; intros [|c rest] Hlen; simpl in Hlen;
    try lia; try done.
  cbn [Buffer_from].
  assert (∀ cp tail, 0x80 ≤ cp → ¬ Forall (fun b => b < 0x80) (utf8_octets cp ++ tail))
    as Hhigh.
  { intros cp tail Hcp Hall.
    destruct (utf8_octets_head cp Hcp) as (b & octets & Heq & Hb).
    rewrite Heq in Hall. simpl in Hall. apply Forall_cons in Hall as [Hlt _]. lia. }
  destruct (is_high_surrogate c) eqn:Hh.
  { intros Hall. exfalso.
    destruct rest as [|d rest'].
    - apply (Hhigh 0xFFFD []); [lia|]. by rewrite app_nil_r.
    - destruct (is_low_surrogate d).
      + apply (Hhigh _ _) in Hall; [done|]. unfold pair_code_point. lia.
      + apply (Hhigh _ _) in Hall; [done|lia]. }
  destruct (is_low_surrogate c) eqn:Hl.
  { intros Hall. exfalso. apply (Hhigh _ _) in Hall; [done|lia]. }
  intros Hall.
  destruct (N.lt_ge_cases c 0x80) as [Hc|Hc].
  - rewrite utf8_octets_ascii in * by done. simpl in *.
    apply Forall_cons in Hall as [_ Hall]. f_equal. apply IH; [lia|done].
  - exfalso. by apply (Hhigh _ _) in Hall.
Qed.

Lemma Buffer_from_ascii_inv s :
  Forall (fun b => b < 0x80) (Buffer_from s) → Buffer_from s = s.
Proof. by apply (Buffer_from_ascii_inv_le (length s)). Qed.

Lemma is_lower_hex_ascii c : is_lower_hex c = true → c < 0x80.
Proof.
  unfold is_lower_hex, in_range.
  intros [H|H]%orb_prop; apply andb_prop in H as [_ H]; apply N.leb_le in H; lia.
Qed.

(** [validate] returns [true] for one signature only, the string that
    [generateSignature] returns. *)
Lemma validate_true_inv w this params signature timestampTolerance :
  validate w this params signature timestampTolerance = Ok true →
  generateSignature this params None None = Ok signature.
Proof.
  rewrite validate_outcome.
  destruct (stale _ _ _); [done|].
  intros (expected & Hgen & [= Heq%bool_decide_eq_true])%bind_Ok.
  rewrite Hgen. f_equal.
  assert (Forall (fun c => c < 0x80) expected) as Hascii.
  { unfold generateSignature in Hgen.
    apply bind_Ok in Hgen as (text & _ & [= <-]).
    eapply Forall_impl; [apply createHmac_sha256_hex_shape|].
    apply is_lower_hex_ascii. }
  rewrite (Buffer_from_ascii _ Hascii) in Heq.
  rewrite <- (Buffer_from_ascii_inv signature); [done|].
  by rewrite <- Heq.
Qed.

(** ** The entries that are signed *)

Lemma elem_of_signedParams params timestamp excludeKeys k v :
  NoDup params.*1 →
  (k, v) ∈ signedParams params timestamp excludeKeys ↔
  match timestamp with
  | Some ts =>
    (k = js "timestamp" ∧ v = VNumber ts)
    ∨ (k ≠ js "timestamp" ∧ signed_entry params excludeKeys k v)
  | None => signed_entry params excludeKeys k v
  end.
Proof.
  intros Hnd. unfold signedParams, signed_entry, finalExcludeKeys.
  destruct timestamp as [ts|].
  - rewrite assign_prop_other by by_compute.
    rewrite elem_of_set_prop by apply filterParams_NoDup.
    by rewrite elem_of_filterParams.
  - by rewrite elem_of_filterParams.
Qed.

(** Parameters with the same signed entries have the same canonical string
    and the same signature. *)
Lemma generateSignature_same_signed this p1 p2 timestamp ex1 ex2 :
  NoDup p1.*1 → NoDup p2.*1 →
  (∀ k v, signed_entry p1 ex1 k v ↔ signed_entry p2 ex2 k v) →
  _buildSignString (signedParams p1 timestamp ex1)
  = _buildSignString (signedParams p2 timestamp ex2)
  ∧ generateSignature this p1 timestamp ex1 = generateSignature this p2 timestamp ex2.
Proof.
  intros Hnd1 Hnd2 Hsame.
  assert (_buildSignString (signedParams p1 timestamp ex1)
          = _buildSignString (signedParams p2 timestamp ex2)) as Heq.
  { apply _buildSignString_same_entries; try apply signedParams_NoDup.
    intros k v. rewrite !elem_of_signedParams by done.
    destruct timestamp; by rewrite Hsame. }
  split; [done|]. unfold generateSignature. by rewrite Heq.
Qed.

Lemma delete_prop_NoDup params k : NoDup params.*1 → NoDup (delete_prop params k).*1.
Proof. apply filter_keys_NoDup. Qed.

Lemma elem_of_delete_prop params k k' v :
  (k', v) ∈ delete_prop params k ↔ k' ≠ k ∧ (k', v) ∈ params.
Proof.
  unfold delete_prop. rewrite list_elem_of_In, filter_In, <- list_elem_of_In. simpl.
  rewrite negb_true_iff, bool_decide_eq_false. tauto.
Qed.

Lemma generateSignature_empty_field this params k v timestamp excludeKeys :
  NoDup params.*1 → empty_value v →
  generateSignature this (set_prop params k v) timestamp excludeKeys
  = generateSignature this (delete_prop params k) timestamp excludeKeys.
Proof.
  intros Hnd Hempty.
  apply generateSignature_same_signed;
    [by apply set_prop_keys_NoDup|by apply delete_prop_NoDup|].
  intros k' v'. unfold signed_entry.
  rewrite elem_of_set_prop, elem_of_delete_prop by done.
  split.
  - intros ([[-> ->]|[? ?]] & ? & ? & ?); [done|tauto].
  - tauto.
Qed.

Lemma generateSignature_excluded_field this params k v timestamp keys :
  NoDup params.*1 → k ∈ keys →
  generateSignature this (set_prop params k v) timestamp (Some keys)
  = generateSignature this params timestamp (Some keys).
Proof.
  intros Hnd Hk.
  apply generateSignature_same_signed; [by apply set_prop_keys_NoDup|done|].
  intros k' v'. unfold signed_entry, finalExcludeKeys.
  rewrite elem_of_set_prop by done.
  split.
  - intros ([[-> ->]|[? ?]] & ? & ? & ?); [done|tauto].
  - intros (? & ? & ? & ?). split_and!; [|done..].
    right. split; [|done]. by intros ->.
Qed.

Lemma generateSignature_signature_field this params k v timestamp :
  k = js "signature" ∨ k = js "sign" →
  generateSignature this (set_prop params k v) timestamp None
  = generateSignature this params timestamp None.
Proof.
  intros Hk. unfold generateSignature, signedParams.
  rewrite filterParams_set_excluded; [done| |].
  - destruct Hk as [-> | ->]; by_compute.
  - destruct Hk as [-> | ->]; reflexivity.
Qed.

Lemma stale_set_prop w params k v timestampTolerance :
  k ≠ js "timestamp" →
  stale w (set_prop params k v) timestampTolerance = stale w params timestampTolerance.
Proof.
  intros Hk. unfold stale. rewrite get_prop_set_prop.
  by rewrite bool_decide_eq_false_2.
Qed.

Lemma validate_signature_field w this params k v signature timestampTolerance :
  k = js "signature" ∨ k = js "sign" →
  validate w this (set_prop params k v) signature timestampTolerance
  = validate w this params signature timestampTolerance.
Proof.
  intros Hk. rewrite !validate_outcome.
  rewrite stale_set_prop by (destruct Hk as [-> | ->]; by_compute).
  by rewrite generateSignature_signature_field.
Qed.

Lemma generateSignature_external_timestamp this params ts :
  NoDup params.*1 →
  generateSignature this params (Some ts) None
  = generateSignature this (set_prop params (js "timestamp") (VNumber ts)) None None.
Proof.
  intros Hnd. unfold generateSignature. f_equal.
  apply _buildSignString_same_entries; try apply signedParams_NoDup.
  intros k v.
  rewrite !elem_of_signedParams by (done || by apply set_prop_keys_NoDup).
  unfold signed_entry. rewrite elem_of_set_prop by done.
  split.
  - intros [[-> ->]|[Hk (Hin & Hex & Hv & Hp)]].
    + split_and!; [by left|by_compute| |by_compute].
      intros [H|[H|[H|[H|H]]]]; discriminate H.
    + split_and!; [by right|done|done|done].
  - intros ([[-> ->]|[Hk Hin]] & Hex & Hv & Hp); [by left|by right].
Qed.

Lemma join_nil_inv sep parts :
  join sep parts = [] → Forall (fun p => p ≠ []) parts → parts = [].
Proof.
  intros Hjoin Hparts. destruct Hparts as [|p rest Hp _]; [done|].
  simpl in Hjoin. destruct rest; [done|].
  by apply app_eq_nil in Hjoin as [-> _].
Qed.

Lemma signPart_not_nil params key part : signPart params key = Ok part → part ≠ [].
Proof.
  unfold signPart.
  intros (ek & _ & (ev & _ & [= <-])%bind_Ok)%bind_Ok Heq.
  apply app_eq_nil in Heq as [_ Heq]. discriminate Heq.
Qed.

(** The canonical string is empty for the object without properties only. *)
Lemma _buildSignString_nil params : _buildSignString params = Ok [] ↔ params = [].
Proof.
  split; [|by intros ->].
  unfold _buildSignString. intros (parts & Hparts & [= Hjoin])%bind_Ok.
  apply mapM_Forall2 in Hparts.
  apply join_nil_inv in Hjoin.
  2:{ clear Hjoin. induction Hparts as [|k p ks ps Hp _ IH]; constructor; [|done].
      by eapply signPart_not_nil. }
  subst parts. apply Forall2_nil_inv_r in Hparts.
  assert (Object_keys params = []) as Hkeys.
  { apply Permutation_nil_r. by rewrite <- (Array_sort_Permutation (Object_keys params)), Hparts. }
  pose proof (Object_keys_Permutation params) as Hperm.
  rewrite Hkeys in Hperm. apply Permutation_nil_l in Hperm.
  by destruct params.
Qed.

(** ** Normalised values *)

Lemma uint_units_zero d :
  Forall (fun c => is_zero_digit c = true) (uint_units d) → N.of_uint d = 0.
Proof.
  induction d; simpl; intros H; try done;
    apply Forall_cons in H as [Hc H]; try discriminate Hc.
  by apply IHd.
Qed.

Lemma strip_trailing_zeros_nil digits :
  strip_trailing_zeros digits = [] ↔ Forall (fun c => is_zero_digit c = true) digits.
Proof.
  unfold strip_trailing_zeros. split.
  - intros H. apply (f_equal (@rev N)) in H. rewrite rev_involutive in H. simpl in H.
    apply drop_while_nil in H. apply Forall_rev in H. by rewrite rev_involutive in H.
  - intros H. apply Forall_rev in H. apply drop_while_nil in H. by rewrite H.
Qed.

Lemma app_not_nil_r {A} (a b : list A) : b ≠ [] → a ++ b ≠ [].
Proof. intros Hb [_ H]%app_eq_nil. done. Qed.

Lemma app_not_nil_l {A} (a b : list A) : a ≠ [] → a ++ b ≠ [].
Proof. intros Ha [H _]%app_eq_nil. done. Qed.

Lemma Number_toString_not_nil x : Number_toString x ≠ [].
Proof.
  destruct x as [|[]|m sc]; try done.
  unfold Number_toString.
  destruct (m =? 0)%Z eqn:Hm; [done|]. apply Z.eqb_neq in Hm.
  set (all_digits := decimal_digits (Z.to_N (Z.abs m))).
  set (s := strip_trailing_zeros all_digits).
  assert (s ≠ []) as Hs.
  { intros Hnil%strip_trailing_zeros_nil%uint_units_zero.
    rewrite DecimalN.Unsigned.of_to in Hnil. lia. }
  apply app_not_nil_r.
  destruct (_ && _); [by apply app_not_nil_l|].
  destruct (_ && _); [by apply app_not_nil_r|].
  destruct (_ && _); [done|].
  by apply app_not_nil_r.
Qed.

Lemma _normalizeValue_not_nil v : _isValidValue v = true → _normalizeValue v ≠ [].
Proof.
  destruct v as [| |[]|x|s|items|props]; try done.
  - intros _. apply Number_toString_not_nil.
  - simpl. by intros Hs%negb_true_iff%bool_decide_eq_false.
Qed.

(** A string normalises to itself. *)
Lemma _normalizeValue_string s : _normalizeValue (VString s) = s.
Proof. reflexivity. Qed.

(** The canonical string depends on the keys and on the normalised value
    of each. *)
Lemma _buildSignString_same_normalized (p1 p2 : Props) :
  NoDup p1.*1 → NoDup p2.*1 →
  (∀ k text, (∃ v, (k, v) ∈ p1 ∧ _normalizeValue v = text)
             ↔ (∃ v, (k, v) ∈ p2 ∧ _normalizeValue v = text)) →
  _buildSignString p1 = _buildSignString p2.
Proof.
  intros Hnd1 Hnd2 Hsame. apply _buildSignString_ext.
  - apply NoDup_Permutation; [done|done|].
    intros k. rewrite !list_elem_of_fmap. split.
    + intros ([k' v] & -> & Hin).
      destruct (proj1 (Hsame k' (_normalizeValue v))) as (v' & Hin' & _); [by eauto|].
      by exists (k', v').
    + intros ([k' v] & -> & Hin).
      destruct (proj2 (Hsame k' (_normalizeValue v))) as (v' & Hin' & _); [by eauto|].
      by exists (k', v').
  - intros k ([k' v] & -> & Hin)%list_elem_of_fmap. simpl.
    destruct (proj1 (Hsame k' (_normalizeValue v))) as (v' & Hin' & Heq); [by eauto|].
    by rewrite (get_prop_elem p1 k' v), (get_prop_elem p2 k' v').
Qed.

Lemma generateSignature_value_text this params k v timestamp excludeKeys :
  NoDup params.*1 → _isValidValue v = true →
  generateSignature this (set_prop params k v) timestamp excludeKeys
  = generateSignature this (set_prop params k (VString (_normalizeValue v)))
                      timestamp excludeKeys.
Proof.
  intros Hnd Hvalid. unfold generateSignature. f_equal.
  assert (¬ empty_value (VString (_normalizeValue v))) as Htext.
  { apply _isValidValue_true. simpl. apply negb_true_iff, bool_decide_eq_false.
    by apply _normalizeValue_not_nil. }
  apply _isValidValue_true in Hvalid.
  apply _buildSignString_same_normalized; try apply signedParams_NoDup.
  intros k' text.
  split; intros (v' & Hin & Hnorm);
    apply elem_of_signedParams in Hin; try (by apply set_prop_keys_NoDup).
  - assert (signed_entry (set_prop params k v) excludeKeys k' v' →
            ∃ v'', signed_entry (set_prop params k (VString (_normalizeValue v)))
                                excludeKeys k' v''
                   ∧ _normalizeValue v'' = _normalizeValue v') as Hstep.
    { unfold signed_entry. rewrite elem_of_set_prop by done.
      intros ([[-> ->]|[Hk Hin']] & Hex & Hv & Hp).
      - exists (VString (_normalizeValue v)). split; [|done].
        split_and!; [|done..]. apply elem_of_set_prop; [done|]. by left.
      - exists v'. split; [|done].
        split_and!; [|done..]. apply elem_of_set_prop; [done|]. by right. }
    destruct timestamp as [ts|].
    + destruct Hin as [[-> ->]|[Hk Hin]].
      * exists (VNumber ts). split; [|done].
        apply elem_of_signedParams; [by apply set_prop_keys_NoDup|]. by left.
      * destruct (Hstep Hin) as (v'' & Hin'' & Heq). exists v''.
        split; [|congruence].
        apply elem_of_signedParams; [by apply set_prop_keys_NoDup|]. by right.
    + destruct (Hstep Hin) as (v'' & Hin'' & Heq). exists v''.
      split; [|congruence].
      by apply elem_of_signedParams; [by apply set_prop_keys_NoDup|].
  - assert (signed_entry (set_prop params k (VString (_normalizeValue v)))
                         excludeKeys k' v' →
            ∃ v'', signed_entry (set_prop params k v) excludeKeys k' v''
                   ∧ _normalizeValue v'' = _normalizeValue v') as Hstep.
    { unfold signed_entry. rewrite elem_of_set_prop by done.
      intros ([[-> ->]|[Hk Hin']] & Hex & Hv & Hp).
      - exists v. split; [|done].
        split_and!; [|done..]. apply elem_of_set_prop; [done|]. by left.
      - exists v'. split; [|done].
        split_and!; [|done..]. apply elem_of_set_prop; [done|]. by right. }
    destruct timestamp as [ts|].
    + destruct Hin as [[-> ->]|[Hk Hin]].
      * exists (VNumber ts). split; [|done].
        apply elem_of_signedParams; [by apply set_prop_keys_NoDup|]. by left.
      * destruct (Hstep Hin) as (v'' & Hin'' & Heq). exists v''.
        split; [|congruence].
        apply elem_of_signedParams; [by apply set_prop_keys_NoDup|]. by right.
    + destruct (Hstep Hin) as (v'' & Hin'' & Heq). exists v''.
      split; [|congruence].
      by apply elem_of_signedParams; [by apply set_prop_keys_NoDup|].
Qed.

(** ** The object [_sortObjectKeys] returns *)

(** [result[key] = f(key)] for the keys in turn, into [result]. *)
Lemma fold_left_assign_prop {V} (f : JsString → V) (keys : list JsString)
      (result : list (JsString * V)) :
  NoDup (result.*1 ++ keys) →
  fold_left (fun result key => assign_prop result key (f key)) keys result
  = result ++ List.map (fun key => (key, f key)) (assignable keys).
Proof.
  revert result. induction keys as [|k keys IH]; intros result Hnd; simpl.
  - by rewrite app_nil_r.
  - apply NoDup_app in Hnd as (Hres & Hdisj & Hkeys).
    apply NoDup_cons in Hkeys as [Hk Hkeys].
    unfold assign_prop at 2. destruct (bool_decide (k = js "__proto__")); simpl.
    + apply IH. apply NoDup_app. split_and!; [done| |done].
      intros x Hx Hin. apply (Hdisj x Hx). by right.
    + rewrite IH.
      * rewrite set_prop_fresh; [by rewrite <- app_assoc|].
        intros Hin. apply (Hdisj _ Hin). by left.
      * rewrite set_prop_keys.
        rewrite bool_decide_eq_false_2 by (intros Hin; apply (Hdisj _ Hin); by left).
        rewrite <- app_assoc. simpl.
        apply NoDup_app. split_and!; [done| |by constructor].
        intros x Hx [->|Hin]%elem_of_cons; [|by apply (Hdisj x Hx); right].
        apply (Hdisj _ Hx). by left.
Qed.

Lemma elem_of_assignable keys k : k ∈ assignable keys ↔ k ∈ keys ∧ k ≠ js "__proto__".
Proof.
  unfold assignable. rewrite list_elem_of_In, filter_In, <- list_elem_of_In.
  by rewrite negb_true_iff, bool_decide_eq_false.
Qed.

Lemma assignable_NoDup keys : NoDup keys → NoDup (assignable keys).
Proof.
  induction 1 as [|k keys Hk Hkeys IH]; simpl; [constructor|].
  destruct (negb _); [|done]. constructor; [|done].
  by intros [? _]%elem_of_assignable.
Qed.

Lemma keyed_map_keys {V} (f : JsString → V) (keys : list JsString) :
  (List.map (fun key => (key, f key)) keys).*1 = keys.
Proof. induction keys as [|k keys IH]; [done|]. cbn. f_equal. exact IH. Qed.

Lemma elem_of_keyed_map {V} (f : JsString → V) (keys : list JsString) k v :
  (k, v) ∈ List.map (fun key => (key, f key)) keys ↔ k ∈ keys ∧ v = f k.
Proof.
  induction keys as [|k' keys IH]; simpl.
  - rewrite !elem_of_nil. tauto.
  - rewrite !elem_of_cons, IH. split.
    + intros [[= -> ->]|[? ?]]; tauto.
    + intros [[->|?] ->]; tauto.
Qed.

Lemma Array_sort_NoDup keys : NoDup keys → NoDup (Array_sort keys).
Proof. intros H. by rewrite (Array_sort_Permutation keys). Qed.

Lemma Object_keys_NoDup (props : Props) : NoDup props.*1 → NoDup (Object_keys props).
Proof. intros H. by rewrite Object_keys_Permutation. Qed.

(** The object [_sortObjectKeys] returns, property by property. *)
Lemma _sortObjectKeys_properties (props : Props) :
  NoDup props.*1 →
  _sortObjectKeys (VObject props)
  = VObject (List.map (fun key => (key, _sortObjectKeys (get_prop props key)))
                      (assignable (Array_sort (Object_keys props)))).
Proof.
  intros Hnd. rewrite _sortObjectKeys_object. f_equal.
  rewrite fold_left_assign_prop; [done|].
  simpl. by apply Array_sort_NoDup, Object_keys_NoDup.
Qed.

Lemma sorted_keys_elem (props : Props) k :
  k ∈ Array_sort (Object_keys props) ↔ k ∈ props.*1.
Proof.
  by rewrite (Array_sort_Permutation (Object_keys props)), Object_keys_Permutation.
Qed.

(** ** The order of enumeration after sorting *)

Lemma sort_insert_elem x l y : y ∈ sort_insert x l ↔ y = x ∨ y ∈ l.
Proof. by rewrite (sort_insert_Permutation x l), elem_of_cons. Qed.

Lemma sort_insert_sorted x l :
  StronglySorted (fun a b => str_ltb b a = false) l →
  StronglySorted (fun a b => str_ltb b a = false) (sort_insert x l).
Proof.
  induction 1 as [|y l Hl IH Hy]; simpl; [by repeat constructor|].
  destruct (str_ltb y x) eqn:Hyx.
  - constructor; [done|]. apply Forall_forall. intros z [->|Hz]%sort_insert_elem.
    + by apply str_ltb_asym.
    + rewrite Forall_forall in Hy. by apply Hy.
  - constructor; [by constructor|]. constructor; [done|].
    apply Forall_forall. intros z Hz. rewrite Forall_forall in Hy.
    destruct (str_ltb z x) eqn:Hzx; [|done].
    by rewrite (str_ltb_le_lt y z x (Hy z Hz) Hzx) in Hyx.
Qed.

Lemma Array_sort_sorted l :
  StronglySorted (fun a b => str_ltb b a = false) (Array_sort l).
Proof.
  induction l as [|x l IH]; simpl; [constructor|]. by apply sort_insert_sorted.
Qed.

Section Enumeration.
Context {V : Type}.
Implicit Types (p : JsString * V) (l : list (JsString * V)).

Lemma insert_by_index_elem p l (q : JsString * V) : q ∈ insert_by_index p l ↔ q = p ∨ q ∈ l.
Proof. by rewrite (insert_by_index_Permutation p l), elem_of_cons. Qed.

Lemma insert_by_index_sorted p l :
  StronglySorted index_le l → StronglySorted index_le (insert_by_index p l).
Proof.
  induction 1 as [|q l Hl IH Hq]; simpl; [by repeat constructor|].
  destruct (digits_value (fst q) <? digits_value (fst p)) eqn:Hqp.
  - apply N.ltb_lt in Hqp.
    constructor; [done|]. apply Forall_forall. intros r [->|Hr]%insert_by_index_elem.
    + unfold index_le. lia.
    + rewrite Forall_forall in Hq. by apply Hq.
  - apply N.ltb_ge in Hqp.
    constructor; [by constructor|]. constructor; [done|].
    apply Forall_forall. intros r Hr. rewrite Forall_forall in Hq.
    specialize (Hq r Hr). unfold index_le in *. lia.
Qed.

Lemma fold_insert_by_index_sorted l :
  StronglySorted index_le (fold_right insert_by_index [] l).
Proof.
  induction l as [|p l IH]; simpl; [constructor|]. by apply insert_by_index_sorted.
Qed.

Lemma fold_insert_by_index_Permutation l : fold_right insert_by_index [] l ≡ₚ l.
Proof.
  induction l as [|p l IH]; simpl; [done|].
  by rewrite insert_by_index_Permutation, IH.
Qed.

Lemma StronglySorted_map_fst (R : JsString → JsString → Prop) l :
  StronglySorted (fun p q => R (fst p) (fst q)) l → StronglySorted R (List.map fst l).
Proof.
  induction 1 as [|p l Hl IH Hp]; simpl; constructor; [done|].
  apply Forall_forall. intros k Hk%list_elem_of_In%in_map_iff.
  destruct Hk as (q & <- & Hq%list_elem_of_In).
  rewrite Forall_forall in Hp. by apply Hp.
Qed.

Lemma StronglySorted_filter (R : relation (JsString * V)) g l :
  StronglySorted R l → StronglySorted R (List.filter g l).
Proof.
  induction 1 as [|p l Hl IH Hp]; simpl; [constructor|].
  destruct (g p); [|done]. constructor; [done|].
  apply Forall_forall. intros q Hq%list_elem_of_In%filter_In.
  destruct Hq as [Hq%list_elem_of_In _]. rewrite Forall_forall in Hp. by apply Hp.
Qed.

Lemma StronglySorted_keyed_map (R : JsString → JsString → Prop) (f : JsString → V) keys :
  StronglySorted R keys →
  StronglySorted (fun p q => R (fst p) (fst q)) (List.map (fun key => (key, f key)) keys).
Proof.
  induction 1 as [|k keys Hkeys IH Hk]; simpl; constructor; [done|].
  apply Forall_forall. intros q Hq%list_elem_of_In%in_map_iff.
  destruct Hq as (k' & <- & Hk'%list_elem_of_In). simpl.
  rewrite Forall_forall in Hk. by apply Hk.
Qed.

End Enumeration.

Lemma StronglySorted_impl_elem {A} (R R' : relation A) (l : list A) :
  (∀ x y, x ∈ l → y ∈ l → R x y → R' x y) →
  StronglySorted R l → StronglySorted R' l.
Proof.
  intros Himpl Hsorted. induction Hsorted as [|x l Hl IH Hx]; constructor.
  - apply IH. intros a b Ha Hb. apply Himpl; by right.
  - apply Forall_forall. intros y Hy. rewrite Forall_forall in Hx.
    apply Himpl; [by left|by right|by apply Hx].
Qed.

Lemma array_index_value k i : array_index k = Some i → i = digits_value k.
Proof.
  unfold array_index. destruct k as [|c rest]; [done|].
  destruct (_ && _); [|done]. by intros [= <-].
Qed.

Lemma is_array_index_true k : is_array_index k = true → array_index k = Some (digits_value k).
Proof.
  unfold is_array_index. destruct (array_index k) as [i|] eqn:Hk; [|done].
  by rewrite (array_index_value k i Hk).
Qed.

Lemma is_array_index_false k : is_array_index k = false → array_index k = None.
Proof. unfold is_array_index. by destruct (array_index k). Qed.

Lemma own_properties_sorted {V} (props : list (JsString * V)) :
  StronglySorted (fun p q => str_ltb (fst q) (fst p) = false) props →
  StronglySorted key_le (List.map fst (own_properties props)).
Proof.
  intros Hsorted. unfold own_properties. rewrite map_app.
  apply StronglySorted_app_2.
  - intros a b Ha Hb.
    apply list_elem_of_In, in_map_iff in Ha as ([a' va] & <- & Ha).
    apply list_elem_of_In, in_map_iff in Hb as ([b' vb] & <- & Hb).
    apply list_elem_of_In in Ha. rewrite fold_insert_by_index_Permutation in Ha.
    apply list_elem_of_In, filter_In in Ha as [_ Ha].
    apply filter_In in Hb as [_ Hb]. simpl in *.
    apply negb_true_iff in Hb.
    unfold key_le.
    by rewrite (is_array_index_true _ Ha), (is_array_index_false _ Hb).
  - apply StronglySorted_map_fst.
    eapply StronglySorted_impl_elem; [|apply fold_insert_by_index_sorted].
    intros p q Hp Hq Hle.
    rewrite fold_insert_by_index_Permutation in Hp, Hq.
    apply list_elem_of_In, filter_In in Hp as [_ Hp].
    apply list_elem_of_In, filter_In in Hq as [_ Hq].
    unfold key_le.
    by rewrite (is_array_index_true _ Hp), (is_array_index_true _ Hq).
  - apply StronglySorted_map_fst.
    eapply StronglySorted_impl_elem;
      [|apply (StronglySorted_filter _ _ _ Hsorted)].
    intros p q Hp Hq Hle.
    apply list_elem_of_In, filter_In in Hp as [_ Hp%negb_true_iff].
    apply list_elem_of_In, filter_In in Hq as [_ Hq%negb_true_iff].
    unfold key_le.
    by rewrite (is_array_index_false _ Hp), (is_array_index_false _ Hq).
Qed.

Lemma StronglySorted_assignable (R : relation JsString) keys :
  StronglySorted R keys → StronglySorted R (assignable keys).
Proof.
  induction 1 as [|k keys Hl IH Hk]; simpl; [constructor|].
  destruct (negb _); [|done]. constructor; [done|].
  apply Forall_forall. intros k' [Hk' _]%elem_of_assignable.
  rewrite Forall_forall in Hk. by apply Hk.
Qed.

Lemma _sortObjectKeys_enumeration_aux (props sorted : Props) :
  NoDup props.*1 →
  _sortObjectKeys (VObject props) = VObject sorted →
  StronglySorted key_le (Object_keys sorted)
  ∧ NoDup (Object_keys sorted)
  ∧ ∀ k, k ∈ Object_keys sorted ↔ k ∈ props.*1 ∧ k ≠ js "__proto__".
Proof.
  intros Hnd. rewrite _sortObjectKeys_properties by done. intros [= <-]. split_and!.
  - apply own_properties_sorted.
    apply (StronglySorted_keyed_map (fun a b => str_ltb b a = false)).
    apply StronglySorted_assignable, Array_sort_sorted.
  - rewrite Object_keys_Permutation, keyed_map_keys.
    by apply assignable_NoDup, Array_sort_NoDup, Object_keys_NoDup.
  - intros k. rewrite Object_keys_Permutation, keyed_map_keys.
    by rewrite elem_of_assignable, sorted_keys_elem.
Qed.

(** ** [encodeURIComponent] is injective *)

Lemma hex_digit_mod upper n : hex_digit upper n = hex_digit upper (n mod 16).
Proof. unfold hex_digit. by rewrite N.Div0.mod_mod. Qed.

Lemma hex_digit_upper_inj x y :
  x < 16 → y < 16 → hex_digit true x = hex_digit true y → x = y.
Proof.
  intros Hx Hy. unfold hex_digit.
  rewrite !N.mod_small by done.
  destruct (x <? 10) eqn:Hx10, (y <? 10) eqn:Hy10;
    try apply N.ltb_lt in Hx10; try apply N.ltb_lt in Hy10;
    try apply N.ltb_ge in Hx10; try apply N.ltb_ge in Hy10; lia.
Qed.

Lemma hex_octet_upper_inj b1 b2 :
  b1 < 256 → b2 < 256 → hex_octet true b1 = hex_octet true b2 → b1 = b2.
Proof.
  intros H1 H2. unfold hex_octet. intros [= Hhi Hlo].
  rewrite (hex_digit_mod true b1), (hex_digit_mod true b2) in Hlo.
  apply hex_digit_upper_inj in Hhi; [|div_mod_lia..].
  apply hex_digit_upper_inj in Hlo; [|div_mod_lia..].
  div_mod_lia.
Qed.

Lemma percent_octets_inj o1 o2 r1 r2 :
  Forall (fun b => b < 256) o1 → Forall (fun b => b < 256) o2 →
  length o1 = length o2 →
  percent_octets o1 ++ r1 = percent_octets o2 ++ r2 → o1 = o2 ∧ r1 = r2.
Proof.
  intros H1. revert o2. induction H1 as [|b1 o1 Hb1 _ IH]; intros o2 H2 Hlen.
  - destruct o2; [done|discriminate Hlen].
  - destruct H2 as [|b2 o2 Hb2 H2]; [discriminate Hlen|].
    injection Hlen as Hlen.
    unfold percent_octets. cbn [List.map List.concat].
    change (0x25 :: hex_octet true ?b) with ([0x25] ++ hex_octet true b).
    unfold hex_octet at 1 3. simpl.
    intros [= Hhi Hlo Hrest].
    destruct (IH o2 H2 Hlen Hrest) as [-> ->].
    split; [|done]. f_equal.
    apply hex_octet_upper_inj; [done|done|]. unfold hex_octet. by rewrite Hhi, Hlo.
Qed.

Lemma utf8_octets_bound cp :
  cp < 0x110000 → Forall (fun b => b < 256) (utf8_octets cp).
Proof.
  intros Hcp. unfold utf8_octets.
  destruct (cp <? 0x80) eqn:H1; [apply N.ltb_lt in H1; repeat constructor; lia|].
  destruct (cp <? 0x800) eqn:H2;
    [apply N.ltb_lt in H2; repeat constructor; div_mod_lia|].
  destruct (cp <? 0x10000) eqn:H3;
    [apply N.ltb_lt in H3; repeat constructor; div_mod_lia|].
  repeat constructor; div_mod_lia.
Qed.

Lemma utf8_octets_length cp1 cp2 b o1 o2 :
  cp1 < 0x110000 → cp2 < 0x110000 →
  utf8_octets cp1 = b :: o1 → utf8_octets cp2 = b :: o2 → length o1 = length o2.
Proof.
  intros Hcp1 Hcp2. unfold utf8_octets.
  destruct (cp1 <? 0x80) eqn:H1, (cp1 <? 0x800) eqn:H2, (cp1 <? 0x10000) eqn:H3,
           (cp2 <? 0x80) eqn:H1', (cp2 <? 0x800) eqn:H2', (cp2 <? 0x10000) eqn:H3';
    try apply N.ltb_lt in H1; try apply N.ltb_lt in H2; try apply N.ltb_lt in H3;
    try apply N.ltb_lt in H1'; try apply N.ltb_lt in H2'; try apply N.ltb_lt in H3';
    try apply N.ltb_ge in H1; try apply N.ltb_ge in H2; try apply N.ltb_ge in H3;
    try apply N.ltb_ge in H1'; try apply N.ltb_ge in H2'; try apply N.ltb_ge in H3';
    intros [= <- <-] [= Hb <-]; try reflexivity; exfalso; div_mod_lia.
Qed.

Lemma utf8_octets_inj cp1 cp2 :
  cp1 < 0x110000 → cp2 < 0x110000 → utf8_octets cp1 = utf8_octets cp2 → cp1 = cp2.
Proof.
  intros Hcp1 Hcp2. unfold utf8_octets.
  destruct (cp1 <? 0x80) eqn:H1, (cp1 <? 0x800) eqn:H2, (cp1 <? 0x10000) eqn:H3,
           (cp2 <? 0x80) eqn:H1', (cp2 <? 0x800) eqn:H2', (cp2 <? 0x10000) eqn:H3';
    try apply N.ltb_lt in H1; try apply N.ltb_lt in H2; try apply N.ltb_lt in H3;
    try apply N.ltb_lt in H1'; try apply N.ltb_lt in H2'; try apply N.ltb_lt in H3';
    try apply N.ltb_ge in H1; try apply N.ltb_ge in H2; try apply N.ltb_ge in H3;
    try apply N.ltb_ge in H1'; try apply N.ltb_ge in H2'; try apply N.ltb_ge in H3';
    intros Heq; try discriminate Heq; injection Heq; intros; div_mod_lia.
Qed.

Lemma utf8_octets_cons cp : ∃ b octets, utf8_octets cp = b :: octets.
Proof.
  unfold utf8_octets.
  destruct (cp <? 0x80); [by eexists _, _|].
  destruct (cp <? 0x800); [by eexists _, _|].
  destruct (cp <? 0x10000); by eexists _, _.
Qed.

Lemma percent_encode_inj cp1 cp2 r1 r2 :
  cp1 < 0x110000 → cp2 < 0x110000 →
  percent_encode cp1 ++ r1 = percent_encode cp2 ++ r2 → cp1 = cp2 ∧ r1 = r2.
Proof.
  intros Hcp1 Hcp2 Heq.
  change (percent_encode cp1) with (percent_octets (utf8_octets cp1)) in Heq.
  change (percent_encode cp2) with (percent_octets (utf8_octets cp2)) in Heq.
  pose proof (utf8_octets_bound cp1 Hcp1) as Hb1.
  pose proof (utf8_octets_bound cp2 Hcp2) as Hb2.
  destruct (utf8_octets_cons cp1) as (b1 & o1 & Ho1).
  destruct (utf8_octets_cons cp2) as (b2 & o2 & Ho2).
  assert (b1 = b2) as Hb.
  { rewrite Ho1 in Heq, Hb1. rewrite Ho2 in Heq, Hb2.
    unfold percent_octets in Heq. cbn [List.map List.concat] in Heq.
    unfold hex_octet at 1 3 in Heq. simpl in Heq.
    injection Heq as Hhi Hlo _.
    apply Forall_cons in Hb1 as [Hb1 _]. apply Forall_cons in Hb2 as [Hb2 _].
    apply hex_octet_upper_inj; [done|done|]. unfold hex_octet. by rewrite Hhi, Hlo. }
  subst b2.
  pose proof (utf8_octets_length cp1 cp2 b1 o1 o2 Hcp1 Hcp2 Ho1 Ho2) as Hlen.
  apply percent_octets_inj in Heq as [Hoct ->]; [|done|done|].
  - split; [|done]. by apply utf8_octets_inj.
  - rewrite Ho1, Ho2. simpl. by rewrite Hlen.
Qed.

(** What [encodeURIComponent] does with the first code unit or surrogate
    pair of a string it encodes. *)
Lemma encodeURIComponent_cons c rest text :
  encodeURIComponent (c :: rest) = Ok text →
  (uriUnreserved c = true ∧ ∃ r, encodeURIComponent rest = Ok r ∧ text = c :: r)
  ∨ (uriUnreserved c = false ∧ is_high_surrogate c = false
     ∧ ∃ r, encodeURIComponent rest = Ok r ∧ text = percent_encode c ++ r)
  ∨ (uriUnreserved c = false ∧ is_high_surrogate c = true
     ∧ ∃ d rest' r, rest = d :: rest' ∧ is_low_surrogate d = true
                   ∧ encodeURIComponent rest' = Ok r
                   ∧ text = percent_encode (pair_code_point c d) ++ r).
Proof.
  cbn [encodeURIComponent].
  destruct (uriUnreserved c).
  { intros (r & Hr & [= <-])%bind_Ok. left. eauto. }
  destruct (is_low_surrogate c); [done|].
  destruct (is_high_surrogate c).
  - destruct rest as [|d rest']; [done|].
    destruct (is_low_surrogate d) eqn:Hd; [|done].
    intros (r & Hr & [= <-])%bind_Ok. right. right.
    split_and!; [done..|]. by exists d, rest', r.
  - intros (r & Hr & [= <-])%bind_Ok. right. left. eauto.
Qed.

Lemma percent_encode_head cp : ∃ tail, percent_encode cp = 0x25 :: tail.
Proof.
  unfold percent_encode. destruct (utf8_octets_cons cp) as (b & o & ->).
  simpl. eauto.
Qed.

Lemma pair_code_point_bound c d :
  is_high_surrogate c = true → is_low_surrogate d = true →
  0x10000 ≤ pair_code_point c d < 0x110000.
Proof.
  unfold is_high_surrogate, is_low_surrogate, in_range, pair_code_point.
  intros [H1 H2]%andb_prop [H3 H4]%andb_prop.
  apply N.leb_le in H1, H2, H3, H4. lia.
Qed.

Lemma pair_code_point_inj c1 d1 c2 d2 :
  is_high_surrogate c1 = true → is_low_surrogate d1 = true →
  is_high_surrogate c2 = true → is_low_surrogate d2 = true →
  pair_code_point c1 d1 = pair_code_point c2 d2 → c1 = c2 ∧ d1 = d2.
Proof.
  unfold is_high_surrogate, is_low_surrogate, in_range, pair_code_point.
  intros [H1 H2]%andb_prop [H3 H4]%andb_prop [H5 H6]%andb_prop [H7 H8]%andb_prop.
  apply N.leb_le in H1, H2, H3, H4, H5, H6, H7, H8. lia.
Qed.

Lemma encodeURIComponent_nil_inv s : encodeURIComponent s = Ok [] → s = [].
Proof.
  destruct s as [|c rest]; [done|].
  intros [(_ & r & _ & [=])|[(_ & _ & r & _ & H)
                            |(_ & _ & d & rest' & r & _ & _ & _ & H)]]%encodeURIComponent_cons;
    [destruct (percent_encode_head c) as [t Ht]
    |destruct (percent_encode_head (pair_code_point c d)) as [t Ht]];
    rewrite Ht in H; discriminate H.
Qed.

(** [encodeURIComponent] is injective on strings of 16-bit code units. *)
Lemma encodeURIComponent_inj_le (n : nat) s1 s2 text :
  (length s1 ≤ n)%nat → code_units s1 → code_units s2 →
  encodeURIComponent s1 = Ok text → encodeURIComponent s2 = Ok text → s1 = s2.
Proof.
  revert s1 s2 text. induction n as [|n IH]; intros s1 s2 text Hlen Hu1 Hu2;
    (destruct s1 as [|c1 r1];
     [intros [= <-] H2; symmetry; by apply encodeURIComponent_nil_inv|]);
    [simpl in Hlen; lia|].
  destruct s2 as [|c2 r2];
    [intros H1 [= <-]; by apply encodeURIComponent_nil_inv in H1|].
  simpl in Hlen.
  apply Forall_cons in Hu1 as [Hc1 Hu1]. apply Forall_cons in Hu2 as [Hc2 Hu2].
  assert (uriUnreserved 0x25 = false) as Hpercent by reflexivity.
  intros [(Hun1 & q1 & Hq1 & ->)
         |[(Hun1 & Hh1 & q1 & Hq1 & ->)
          |(Hun1 & Hh1 & d1 & t1 & q1 & -> & Hd1 & Hq1 & ->)]]%encodeURIComponent_cons
         [(Hun2 & q2 & Hq2 & Heq)
         |[(Hun2 & Hh2 & q2 & Hq2 & Heq)
          |(Hun2 & Hh2 & d2 & t2 & q2 & -> & Hd2 & Hq2 & Heq)]]%encodeURIComponent_cons.
  - injection Heq as -> ->. f_equal. apply (IH r1 r2 q2); [lia|done..].
  - destruct (percent_encode_head c2) as [t Ht]. rewrite Ht in Heq.
    injection Heq as -> _. congruence.
  - destruct (percent_encode_head (pair_code_point c2 d2)) as [t Ht].
    rewrite Ht in Heq. injection Heq as -> _. congruence.
  - destruct (percent_encode_head c1) as [t Ht]. rewrite Ht in Heq.
    injection Heq as <- _. congruence.
  - apply percent_encode_inj in Heq as [-> ->]; [|lia..].
    f_equal. apply (IH r1 r2 q2); [lia|done..].
  - apply percent_encode_inj in Heq as [Hcp _]; [|lia|].
    + pose proof (pair_code_point_bound c2 d2 Hh2 Hd2). lia.
    + apply (pair_code_point_bound c2 d2 Hh2 Hd2).
  - destruct (percent_encode_head (pair_code_point c1 d1)) as [t Ht].
    rewrite Ht in Heq. injection Heq as <- _. congruence.
  - apply percent_encode_inj in Heq as [Hcp _]; [| |lia].
    + pose proof (pair_code_point_bound c1 d1 Hh1 Hd1). lia.
    + apply (pair_code_point_bound c1 d1 Hh1 Hd1).
  - apply percent_encode_inj in Heq as [Hcp ->];
      [|apply (pair_code_point_bound c1 d1 Hh1 Hd1)
       |apply (pair_code_point_bound c2 d2 Hh2 Hd2)].
    apply pair_code_point_inj in Hcp as [-> ->]; [|done..].
    f_equal. f_equal.
    apply Forall_cons in Hu1 as [_ Hu1]. apply Forall_cons in Hu2 as [_ Hu2].
    apply (IH t1 t2 q2); [simpl in Hlen; lia|done..].
Qed.

Lemma encodeURIComponent_inj s1 s2 text :
  code_units s1 → code_units s2 →
  encodeURIComponent s1 = Ok text → encodeURIComponent s2 = Ok text → s1 = s2.
Proof. by apply (encodeURIComponent_inj_le (length s1)). Qed.

(** Two texts that hold no separator and are followed by the end of the
    string or by a separator are equal when the strings are. *)
Lemma app_separator_inj (c : N) (p q t1 t2 : JsString) :
  c ∉ p → c ∉ q →
  (t1 = [] ∨ ∃ t, t1 = c :: t) → (t2 = [] ∨ ∃ t, t2 = c :: t) →
  p ++ t1 = q ++ t2 → p = q ∧ t1 = t2.
Proof.
  revert q. induction p as [|x p IH]; intros q Hp Hq Ht1 Ht2 Heq.
  - destruct q as [|y q]; [done|]. simpl in Heq. exfalso.
    destruct Ht1 as [->|[t ->]]; [done|].
    injection Heq as <- _. apply Hq. by left.
  - destruct q as [|y q].
    + simpl in Heq. exfalso.
      destruct Ht2 as [->|[t ->]]; [done|].
      injection Heq as -> _. apply Hp. by left.
    + injection Heq as -> Heq.
      destruct (IH q) as [-> ->]; try done.
      * intros Hin. apply Hp. by right.
      * intros Hin. apply Hq. by right.
Qed.

Lemma join_cons sep p rest :
  join sep (p :: rest) = p ++ match rest with [] => [] | _ => sep ++ join sep rest end.
Proof. destruct rest; simpl; [by rewrite app_nil_r|done]. Qed.

Lemma join_inj (c : N) (ps qs : list JsString) :
  Forall (fun p => (c ∉ p) ∧ p ≠ []) ps → Forall (fun p => (c ∉ p) ∧ p ≠ []) qs →
  join [c] ps = join [c] qs → ps = qs.
Proof.
  intros Hps. revert qs. induction Hps as [|p ps [Hp Hp'] Hps IH]; intros qs Hqs Heq.
  - symmetry. apply (join_nil_inv [c]); [done|].
    eapply Forall_impl; [done|]. by intros ? [_ ?].
  - destruct Hqs as [|q qs [Hq Hq'] Hqs].
    { exfalso. simpl in Heq. destruct ps; [done|].
      by apply app_eq_nil in Heq as [-> _]. }
    rewrite !join_cons in Heq.
    apply (app_separator_inj c) in Heq as [-> Heq]; try done.
    + f_equal. destruct ps as [|p' ps], qs as [|q' qs]; try done.
      apply IH; [done|]. simpl in Heq. by injection Heq.
    + destruct ps; [by left|right; eauto].
    + destruct qs; [by left|right; eauto].
Qed.

Lemma encoded_unit_not c x : encoded_unit c = false → Forall (fun u => encoded_unit u = true) x → c ∉ x.
Proof.
  intros Hc Hx Hin. rewrite Forall_forall in Hx. by rewrite (Hx c Hin) in Hc.
Qed.

Lemma signPart_inj p1 p2 k1 k2 part :
  code_units k1 → code_units k2 →
  code_units (_normalizeValue (get_prop p1 k1)) →
  code_units (_normalizeValue (get_prop p2 k2)) →
  signPart p1 k1 = Ok part → signPart p2 k2 = Ok part →
  k1 = k2 ∧ _normalizeValue (get_prop p1 k1) = _normalizeValue (get_prop p2 k2).
Proof.
  intros Hk1 Hk2 Hv1 Hv2. unfold signPart.
  intros (ek1 & Hek1 & (ev1 & Hev1 & [= <-])%bind_Ok)%bind_Ok
         (ek2 & Hek2 & (ev2 & Hev2 & [= Heq])%bind_Ok)%bind_Ok.
  apply (app_separator_inj 0x3D) in Heq as [-> [= ->]].
  - split; [by eapply encodeURIComponent_inj|by eapply encodeURIComponent_inj].
  - by eapply encoded_unit_not, encodeURIComponent_units.
  - by eapply encoded_unit_not, encodeURIComponent_units.
  - right. eauto.
  - right. eauto.
Qed.

Lemma signPart_no_separator params key part :
  signPart params key = Ok part → (0x26 ∉ part) ∧ part ≠ [].
Proof.
  intros Hpart. split; [|by eapply signPart_not_nil].
  intros Hin. pose proof (signPart_units _ _ _ Hpart) as Hunits.
  rewrite Forall_forall in Hunits. specialize (Hunits _ Hin).
  revert Hpart. unfold signPart.
  intros (ek & Hek & (ev & Hev & [= <-])%bind_Ok)%bind_Ok.
  apply elem_of_app in Hin as [Hin|Hin].
  - by apply (encoded_unit_not 0x26 ek eq_refl (encodeURIComponent_units _ _ Hek)).
  - apply elem_of_cons in Hin as [[=]|Hin].
    by apply (encoded_unit_not 0x26 ev eq_refl (encodeURIComponent_units _ _ Hev)).
Qed.

Lemma _buildSignString_inj p1 p2 text :
  code_unit_entries p1 → code_unit_entries p2 →
  _buildSignString p1 = Ok text → _buildSignString p2 = Ok text →
  p1.*1 ≡ₚ p2.*1
  ∧ ∀ k, k ∈ p1.*1 →
         _normalizeValue (get_prop p1 k) = _normalizeValue (get_prop p2 k).
Proof.
  intros Hu1 Hu2. unfold code_unit_entries in Hu1, Hu2.
  rewrite Forall_forall in Hu1. rewrite Forall_forall in Hu2.
  unfold _buildSignString.
  intros (parts1 & Hparts1 & [= <-])%bind_Ok (parts2 & Hparts2 & [= Heq])%bind_Ok.
  apply mapM_Forall2 in Hparts1, Hparts2.
  apply join_inj in Heq.
  2:{ clear -Hparts2. induction Hparts2; constructor; [|done].
      by eapply signPart_no_separator. }
  2:{ clear -Hparts1. induction Hparts1; constructor; [|done].
      by eapply signPart_no_separator. }
  subst parts2.
  assert (Forall (fun k => k ∈ p1.*1) (Array_sort (Object_keys p1))) as Hin1.
  { apply Forall_forall. intros k. by rewrite sorted_keys_elem. }
  assert (Forall (fun k => k ∈ p2.*1) (Array_sort (Object_keys p2))) as Hin2.
  { apply Forall_forall. intros k. by rewrite sorted_keys_elem. }
  assert (Array_sort (Object_keys p1) = Array_sort (Object_keys p2)
          ∧ Forall (fun k => _normalizeValue (get_prop p1 k)
                             = _normalizeValue (get_prop p2 k))
                   (Array_sort (Object_keys p1))) as [Hkeys Hvalues].
  { revert Hparts2 Hin1 Hin2.
    generalize (Array_sort (Object_keys p2)) as keys2.
    induction Hparts1 as [|k1 part keys1 parts Hpart _ IH]; intros keys2 Hparts2.
    - apply Forall2_nil_inv_r in Hparts2 as ->. by split.
    - apply Forall2_cons_inv_r in Hparts2 as (k2 & keys2' & Hpart2 & Hparts2 & ->).
      intros [Hk1 Hin1]%Forall_cons [Hk2 Hin2]%Forall_cons.
      destruct (Hu1 k1 Hk1) as [Hck1 Hcv1]. destruct (Hu2 k2 Hk2) as [Hck2 Hcv2].
      destruct (signPart_inj p1 p2 k1 k2 part) as [-> Hv]; try done.
      destruct (IH keys2' Hparts2 Hin1 Hin2) as [-> Hrest].
      split; [done|]. by constructor. }
  split.
  - rewrite <- !Object_keys_Permutation.
    rewrite <- (Array_sort_Permutation (Object_keys p1)), Hkeys.
    apply Array_sort_Permutation.
  - intros k Hk. rewrite Forall_forall in Hvalues. apply Hvalues.
    by apply sorted_keys_elem.
Qed.

(** ** Time stamps given as strings *)

Lemma digits_value_acc d acc :
  fold_left (fun acc c => 10 * acc + (c - 0x30)) (uint_units d) (N.pos acc)
  = N.pos (Pos.of_uint_acc d acc).
Proof.
  revert acc. induction d; intros acc; cbn [uint_units fold_left Pos.of_uint_acc];
    [done|..];
    match goal with
    | |- fold_left _ _ ?a = N.pos (Pos.of_uint_acc _ ?b) =>
      replace a with (N.pos b) by lia
    end; apply IHd.
Qed.

Lemma digits_value_uint_units d : digits_value (uint_units d) = N.of_uint d.
Proof.
  unfold digits_value, N.of_uint.
  induction d; cbn [uint_units fold_left Pos.of_uint]; [done|exact IHd|..];
    match goal with
    | |- fold_left _ _ ?a = N.pos (Pos.of_uint_acc _ ?b) =>
      replace a with (N.pos b) by lia
    end; apply digits_value_acc.
Qed.

Lemma digits_value_decimal_digits n : digits_value (decimal_digits n) = n.
Proof.
  unfold decimal_digits. by rewrite digits_value_uint_units, DecimalN.Unsigned.of_to.
Qed.

Lemma uint_units_digits d : Forall (fun c => is_digit c = true) (uint_units d).
Proof. induction d; simpl; constructor; done. Qed.

Lemma decimal_digits_cons n : ∃ c rest, decimal_digits n = c :: rest ∧ is_digit c = true.
Proof.
  pose proof (uint_units_digits (N.to_uint n)) as Hdigits.
  unfold decimal_digits.
  destruct (uint_units (N.to_uint n)) as [|c rest] eqn:Hunits.
  - exfalso.
    assert (N.of_uint (N.to_uint n) = 0) as Hzero.
    { apply uint_units_zero. rewrite Hunits. constructor. }
    rewrite DecimalN.Unsigned.of_to in Hzero. subst n. discriminate Hunits.
  - apply Forall_cons in Hdigits as [Hc _]. by exists c, rest.
Qed.

Lemma is_digit_not_whitespace c : is_digit c = true → is_whitespace c = false.
Proof.
  unfold is_digit, is_whitespace, in_range. intros [H1 H2]%andb_prop.
  apply N.leb_le in H1, H2.
  repeat (apply orb_false_intro);
    try (apply andb_false_iff; first [left; apply N.leb_gt; lia|right; apply N.leb_gt; lia]);
    apply N.eqb_neq; lia.
Qed.

Lemma take_while_app {A} (p : A → bool) (l junk : list A) :
  Forall (fun x => p x = true) l →
  (junk = [] ∨ ∃ x rest, junk = x :: rest ∧ p x = false) →
  take_while p (l ++ junk) = l.
Proof.
  intros Hl Hjunk. induction Hl as [|x l Hx _ IH]; simpl.
  - destruct Hjunk as [->|(x & rest & -> & Hx)]; [done|]. simpl. by rewrite Hx.
  - by rewrite Hx, IH.
Qed.

(** [parseInt] reads the decimal digits of a number and stops at the first
    code unit that is no digit. *)
Lemma parseInt_decimal_digits n junk :
  (junk = [] ∨ ∃ x rest, junk = x :: rest ∧ is_digit x = false) →
  parseInt (decimal_digits n ++ junk) = ToDouble (Finite (Z.of_N n) 0).
Proof.
  intros Hjunk. unfold parseInt.
  destruct (decimal_digits_cons n) as (c & rest & Hdigits & Hc).
  pose proof (is_digit_not_whitespace c Hc) as Hws.
  pose proof (digits_value_decimal_digits n) as Hvalue.
  assert (Forall (fun c => is_digit c = true) (decimal_digits n)) as Hall
    by apply uint_units_digits.
  rewrite Hdigits in Hvalue, Hall |- *.
  assert ((c =? 0x2B) = false ∧ (c =? 0x2D) = false) as [Hplus Hminus].
  { unfold is_digit, in_range in Hc. apply andb_prop in Hc as [H1 H2].
    apply N.leb_le in H1, H2. split; apply N.eqb_neq; lia. }
  cbn [app drop_while]. rewrite Hws, Hplus, Hminus. cbn [orb].
  change (c :: rest ++ junk) with ((c :: rest) ++ junk).
  rewrite take_while_app by done.
  by rewrite Hvalue.
Qed.

(** The check of a string that starts with the decimal digits of [n] is
    the check of the number [n]. *)
Lemma _checkTimestamp_digits w n junk tolerance :
  (junk = [] ∨ ∃ x rest, junk = x :: rest ∧ is_digit x = false) →
  _checkTimestamp w (VString (decimal_digits n ++ junk)) tolerance
  = _checkTimestamp w (VNumber (Finite (Z.of_N n) 0)) tolerance.
Proof.
  intros Hjunk. rewrite _checkTimestamp_text, _checkTimestamp_number by done.
  unfold String_. cbn [String_raises ToString].
  by rewrite parseInt_decimal_digits.
Qed.

Lemma decimal_digits_not_nil n junk : decimal_digits n ++ junk ≠ [].
Proof. destruct (decimal_digits_cons n) as (c & rest & -> & _). done. Qed.

(** ** The route that creates an order *)

Lemma paymentParams_NoDup cfg body : NoDup (CreateRoute.paymentParams cfg body).*1.
Proof. cbn. by_compute. Qed.

Lemma generateSignature_own_properties this params timestamp excludeKeys :
  NoDup params.*1 →
  generateSignature this (own_properties params) timestamp excludeKeys
  = generateSignature this params timestamp excludeKeys.
Proof.
  intros Hnd. apply generateSignature_same_signed; [|done|].
  - by apply own_properties_keys_NoDup.
  - intros k v. unfold signed_entry. by rewrite own_properties_Permutation.
Qed.

Lemma join_part sep parts part :
  part ∈ parts → ∃ before after, join sep parts = before ++ part ++ after.
Proof.
  induction parts as [|p parts IH]; [by intros ?%elem_of_nil|].
  rewrite join_cons. intros [->|Hin]%elem_of_cons.
  - by exists [], (match parts with [] => [] | _ => sep ++ join sep parts end).
  - destruct (IH Hin) as (before & after & Heq).
    destruct parts as [|q parts]; [by apply elem_of_nil in Hin|].
    rewrite Heq. exists (p ++ sep ++ before), after. by rewrite <- !app_assoc.
Qed.

Lemma mapM_elem {A B} (f : A → Result B) l ys x :
  mapM f l = Ok ys → x ∈ l → ∃ y, f x = Ok y ∧ y ∈ ys.
Proof.
  intros Hall%mapM_Forall2 Hin.
  induction Hall as [|x' y' l ys Hxy _ IH]; [by apply elem_of_nil in Hin|].
  apply elem_of_cons in Hin as [->|Hin].
  - exists y'. split; [done|by left].
  - destruct (IH Hin) as (y & Hy & Hys). exists y. split; [done|by right].
Qed.

(** The text signed for a key of the parameters stands in the canonical
    string. *)
Lemma _buildSignString_part params text key :
  key ∈ params.*1 →
  _buildSignString params = Ok text →
  ∃ encodedKey encodedValue before after,
    encodeURIComponent key = Ok encodedKey
    ∧ encodeURIComponent (_normalizeValue (get_prop params key)) = Ok encodedValue
    ∧ text = before ++ encodedKey ++ js "=" ++ encodedValue ++ after.
Proof.
  intros Hkey. unfold _buildSignString.
  intros (parts & Hparts & [= <-])%bind_Ok.
  destruct (mapM_elem _ _ _ key Hparts) as (part & Hpart & Hin);
    [by apply sorted_keys_elem|].
  unfold signPart in Hpart.
  apply bind_Ok in Hpart as (ek & Hek & (ev & Hev & [= <-])%bind_Ok).
  destruct (join_part (js "&") parts _ Hin) as (before & after & ->).
  exists ek, ev, before, after. split_and!; [done|done|].
  by rewrite <- !app_assoc.
Qed.

(** ** The claims *)

(** C1. Round trip: with a validator constructed from [secret] (so [secret]
    is neither empty nor white space only), the signature that
    [generateSignature(params)] returns makes [validate(params, signature)],
    without a tolerance, return [true], whatever the clock reads. *)
Theorem validate_round_trip (w : World) (secret : JsString) (this : t)
        (params : Props) (signature : JsString) :
  constructor secret = Ok this →
  generateSignature this params None None = Ok signature →
  validate w this params signature None = Ok true.
Proof.
  intros _ Hsig. rewrite validate_outcome. simpl. rewrite Hsig. simpl.
  by rewrite bool_decide_eq_true_2.
Qed.

Lemma validate_round_trip_witness :
  validate clock_1000 demo_validator payment_params payment_signature None
  = Ok true.
Proof.
  apply (validate_round_trip clock_1000 demo_secret); vm_compute; reflexivity.
Defined.

(** C2. The replay window is not checked at the time stamp 0.  The guard
    of [validate] tests [params.timestamp] for truth, not for presence, so
    at [{timestamp: 0}] the window check, which fails for this time stamp
    at the clock 1000 s and the tolerance 300, is never made: whatever the
    clock reads and whatever the tolerance, [validate] accepts the signature
    of the parameters. *)
Theorem validate_skips_zero_timestamp (w : World) (tolerance : JsNumber) :
  get_prop epoch_params (js "timestamp") = VNumber (Finite 0 0)
  ∧ _checkTimestamp clock_1000 (VNumber (Finite 0 0)) (Finite 300 0) = false
  ∧ validate w demo_validator epoch_params epoch_signature (Some tolerance)
    = Ok true.
Proof.
  split_and!; [reflexivity|vm_compute; reflexivity|].
  rewrite validate_outcome. unfold stale.
  replace (ToBoolean (get_prop epoch_params (js "timestamp"))) with false
    by reflexivity.
  cbn [andb]. vm_compute. reflexivity.
Qed.

(** C3. [validate] can throw: a parameter whose string value holds an
    unpaired surrogate makes [encodeURIComponent] raise URIError inside
    [generateSignature], outside the [try] of [validate]. *)
Theorem validate_throws_URIError (w : World) (this : t) (signature : JsString)
        (timestampTolerance : option JsNumber) :
  validate w this surrogate_params signature timestampTolerance = Throw URIError.
Proof.
  rewrite validate_outcome.
  destruct timestampTolerance; reflexivity.
Qed.

(** C4. Order independence: parameter maps that are semantically equal,
    whatever the order of their keys at the top level and inside every nested
    object, have the same canonical string and the same signature. *)
Theorem generateSignature_order_independent (this : t) (params params' : Props)
        (timestamp : option JsNumber) (excludeKeys : option (gset JsString)) :
  sem_eq (VObject params) (VObject params') →
  _buildSignString (signedParams params timestamp excludeKeys)
  = _buildSignString (signedParams params' timestamp excludeKeys)
  ∧ generateSignature this params timestamp excludeKeys
    = generateSignature this params' timestamp excludeKeys.
Proof.
  intros Heq. inversion Heq as [| | | | | |p1 p2 Hsame]; subst.
  assert (Hstr : _buildSignString (signedParams params timestamp excludeKeys)
                 = _buildSignString (signedParams params' timestamp excludeKeys)).
  { by apply _buildSignString_same_properties, signedParams_same_properties. }
  split; [done|]. unfold generateSignature. by rewrite Hstr.
Qed.

Lemma generateSignature_order_independent_witness :
  _buildSignString (signedParams nested_params None None)
  = _buildSignString (signedParams nested_params_reordered None None)
  ∧ generateSignature demo_validator nested_params None None
    = generateSignature demo_validator nested_params_reordered None None.
Proof.
  apply (generateSignature_order_independent demo_validator nested_params
           nested_params_reordered None None).
  exact nested_params_sem_eq.
Defined.

(** C5. An entry under the key [__proto__] is never signed.  The loop of
    [generateSignature] copies an entry with [filteredParams[key] = value],
    and on the fresh object this assignment defines no property for the key
    [__proto__]: at [{"__proto__": 0, "a": 1}] the number 0, which is not
    empty and whose key is not excluded, is removed, and the canonical
    string is [a=1]. *)
Theorem proto_entry_is_not_signed (excludeKeys : gset JsString) (params : Props) :
  Forall (fun entry => fst entry ≠ js "__proto__")
         (filterParams excludeKeys params)
  ∧ (js "__proto__", VNumber (Finite 0 0)) ∈ proto_params
  ∧ (js "__proto__" ∉ defaultExcludeKeys)
  ∧ (¬ empty_value (VNumber (Finite 0 0)))
  ∧ filterParams defaultExcludeKeys proto_params = [(js "a", VNumber (Finite 1 0))]
  ∧ _buildSignString (signedParams proto_params None None) = Ok (js "a=1").
Proof.
  split_and!.
  - apply filterParams_no_proto.
  - by left.
  - by_compute.
  - by intros [|[|[|[|]]]].
  - vm_compute. reflexivity.
  - vm_compute. reflexivity.
Qed.

(** C6. Exclusion of the signature fields: setting [signature] or [sign] in
    the parameters, to any value, leaves the signed parameters, the canonical
    string and the signature under the default exclude set unchanged. *)
Theorem signature_fields_excluded (this : t) (params : Props) (key : JsString)
        (value : JsValue) (timestamp : option JsNumber) :
  key = js "signature" ∨ key = js "sign" →
  _buildSignString (signedParams (set_prop params key value) timestamp None)
  = _buildSignString (signedParams params timestamp None)
  ∧ generateSignature this (set_prop params key value) timestamp None
    = generateSignature this params timestamp None.
Proof.
  intros Hkey.
  assert (Hfilter : filterParams defaultExcludeKeys (set_prop params key value)
                    = filterParams defaultExcludeKeys params).
  { apply filterParams_set_excluded.
    - unfold defaultExcludeKeys. destruct Hkey as [->| ->]; set_solver.
    - destruct Hkey as [->| ->]; reflexivity. }
  unfold generateSignature, signedParams. rewrite Hfilter. done.
Qed.

Lemma signature_fields_excluded_witness :
  _buildSignString
    (signedParams (set_prop payment_params (js "signature") (VString (js "deadbeef")))
                  None None)
  = Ok (js "amount=39.99&app_id=A1")
  ∧ generateSignature demo_validator
      (set_prop payment_params (js "signature") (VString (js "deadbeef"))) None None
    = generateSignature demo_validator payment_params None None.
Proof.
  destruct (signature_fields_excluded demo_validator payment_params
              (js "signature") (VString (js "deadbeef")) None) as [Hstr Hsig].
  - by left.
  - split; [rewrite Hstr; vm_compute; reflexivity|exact Hsig].
Defined.

(** C7, as stated, fails: the constructor is not the only operation that
    throws; [generateSignature] raises URIError on a parameter holding an
    unpaired surrogate. *)
Lemma generateSignature_throws :
  generateSignature demo_validator surrogate_params None None = Throw URIError.
Proof. reflexivity. Qed.

(** C7, amended. Construction raises an error exactly when the secret is
    empty or white space only, and otherwise returns a validator holding the
    secret.  Of the methods, [generateSignature] throws too: it raises
    URIError, and no other error, exactly when one of the entries it signs
    (the properties of [filteredParams], the external time stamp among
    them) has a key, or a value that is a string, with an unpaired
    surrogate. *)
Theorem constructor_precondition (secret : JsString) :
  (blank secret → constructor secret = Throw (Error empty_secret_message))
  ∧ (¬ blank secret → constructor secret = Ok {| secret := secret |})
  ∧ (∀ this params timestamp excludeKeys e,
        generateSignature this params timestamp excludeKeys = Throw e
        ↔ e = URIError
          ∧ Exists (fun p => well_formed_entry p = false)
                   (signedParams params timestamp excludeKeys)).
Proof.
  split_and!.
  - intros Hb. rewrite constructor_outcome. by rewrite decide_True.
  - intros Hb. rewrite constructor_outcome. by rewrite decide_False.
  - intros this params timestamp excludeKeys e.
    destruct (generateSignature_outcome this params timestamp excludeKeys)
      as [Hok Hfail].
    rewrite encodable_entries in Hok, Hfail by apply signedParams_NoDup.
    split.
    + intros Hthrow.
      destruct (decide (Forall (fun p => well_formed_entry p = true)
                               (signedParams params timestamp excludeKeys)))
        as [He|He].
      * destruct (Hok He) as (text & _ & Hgen). congruence.
      * rewrite (Hfail He) in Hthrow. injection Hthrow as <-. split; [done|].
        apply not_Forall_Exists in He; [|apply _].
        eapply Exists_impl; [exact He|].
        intros p Hp. by apply not_true_is_false.
    + intros [-> Hill]. apply Hfail. intros Hall.
      apply Exists_exists in Hill as (p & Hin & Hp).
      rewrite Forall_forall in Hall. by rewrite (Hall p Hin) in Hp.
Qed.

Lemma constructor_precondition_witness :
  constructor (js "   ") = Throw (Error empty_secret_message)
  ∧ constructor [] = Throw (Error empty_secret_message)
  ∧ constructor demo_secret = Ok demo_validator.
Proof.
  split_and!.
  - apply (constructor_precondition (js "   ")). by_compute.
  - apply (constructor_precondition []). constructor.
  - apply (constructor_precondition demo_secret). by_compute.
Defined.

(** C8, as stated, fails: not every parameter map has a signature; when a
    key holds an unpaired surrogate [generateSignature] returns no string at
    all. *)
Lemma generateSignature_returns_no_signature :
  generateSignature demo_validator surrogate_key_params None None
  = Throw URIError.
Proof. reflexivity. Qed.

(** C8, amended. When the key of every signed entry, and its value when
    that is a string, is well-formed UTF-16, [generateSignature] returns a
    signature; and every signature it returns, also for an empty canonical
    string, is 64 characters long, each a lowercase hexadecimal digit. *)
Theorem signature_shape (this : t) (params : Props)
        (timestamp : option JsNumber) (excludeKeys : option (gset JsString)) :
  (Forall (fun p => well_formed_entry p = true)
          (signedParams params timestamp excludeKeys) →
   ∃ signature,
     generateSignature this params timestamp excludeKeys = Ok signature)
  ∧ (∀ signature,
        generateSignature this params timestamp excludeKeys = Ok signature →
        length signature = 64%nat
        ∧ Forall (fun c => is_lower_hex c = true) signature).
Proof.
  split.
  - intros Hwf.
    destruct (generateSignature_outcome this params timestamp excludeKeys)
      as [Hok _].
    destruct Hok as (text & _ & Hgen); [|eauto].
    apply encodable_entries; [apply signedParams_NoDup|done].
  - intros signature Hgen. unfold generateSignature in Hgen.
    apply bind_Ok in Hgen as (text & _ & [= <-]).
    apply createHmac_sha256_hex_shape.
Qed.

Lemma signature_shape_witness :
  _buildSignString (signedParams [] None None) = Ok []
  ∧ (∃ signature, generateSignature demo_validator [] None None = Ok signature)
  ∧ length payment_signature = 64%nat
  ∧ Forall (fun c => is_lower_hex c = true) payment_signature.
Proof.
  split; [reflexivity|].
  destruct (signature_shape demo_validator [] None None) as [Hreturns _].
  destruct (signature_shape demo_validator payment_params None None)
    as [_ Hshape].
  split.
  - apply Hreturns. constructor.
  - apply Hshape. vm_compute. reflexivity.
Defined.

(** C9, as stated, fails for [validate]: with the same parameters, signature
    and tolerance, the call returns [true] at one reading of the clock and
    [false] at another. *)
Lemma validate_depends_on_clock :
  validate clock_1000 demo_validator timed_params timed_signature
           (Some (Finite 300 0)) = Ok true
  ∧ validate clock_2000 demo_validator timed_params timed_signature
             (Some (Finite 300 0)) = Ok false.
Proof. split; vm_compute; reflexivity. Qed.

(** C9, amended. [generateSignature] is a function of its arguments.  Two
    calls of [validate] with the same arguments give the same result when
    the clock reads the same second in both, and, whatever the clock reads,
    when the tolerance is null or [params.timestamp] tests as false. *)
Theorem validate_two_runs (this : t) (params : Props) (signature : JsString)
        (timestampTolerance : option JsNumber) (w1 w2 : World) :
  (∀ timestamp excludeKeys r1 r2,
      generateSignature this params timestamp excludeKeys = r1 →
      generateSignature this params timestamp excludeKeys = r2 → r1 = r2)
  ∧ ((Date_now w1 / 1000 = Date_now w2 / 1000)%Z →
     validate w1 this params signature timestampTolerance
     = validate w2 this params signature timestampTolerance)
  ∧ (timestampTolerance = None
     ∨ ToBoolean (get_prop params (js "timestamp")) = false →
     validate w1 this params signature timestampTolerance
     = validate w2 this params signature timestampTolerance).
Proof.
  split_and!.
  - by intros timestamp excludeKeys r1 r2 <- <-.
  - intros Hclock. rewrite !validate_outcome.
    assert (stale w1 params timestampTolerance
            = stale w2 params timestampTolerance) as ->; [|done].
    unfold stale, _checkTimestamp, currentTime. by rewrite Hclock.
  - intros Hidle. rewrite !validate_outcome.
    assert (stale w1 params timestampTolerance
            = stale w2 params timestampTolerance) as ->; [|done].
    unfold stale. destruct Hidle as [->| ->]; [done|].
    by destruct timestampTolerance.
Qed.

Lemma validate_two_runs_witness :
  validate clock_1000 demo_validator timed_params timed_signature
           (Some (Finite 300 0))
  = validate {| Date_now := 1000999 |} demo_validator timed_params
             timed_signature (Some (Finite 300 0))
  ∧ validate clock_1000 demo_validator timed_params timed_signature None
    = validate clock_2000 demo_validator timed_params timed_signature None.
Proof.
  split.
  - destruct (validate_two_runs demo_validator timed_params timed_signature
                (Some (Finite 300 0)) clock_1000 {| Date_now := 1000999 |})
      as (_ & Hsecond & _).
    apply Hsecond. reflexivity.
  - destruct (validate_two_runs demo_validator timed_params timed_signature
                None clock_1000 clock_2000) as (_ & _ & Hidle).
    apply Hidle. by left.
Defined.

(** C10. The external time stamp overwrites: for parameters under distinct
    keys, whether or not they already hold a [timestamp] that the filter
    keeps, signing with the external time stamp [ts] gives the signature of
    the parameters in which [timestamp] is set to [ts]; a value already
    there is replaced, not kept. *)
Theorem external_timestamp_overwrites (this : t) (params : Props)
        (ts : JsNumber) :
  NoDup params.*1 →
  generateSignature this params (Some ts) None
  = generateSignature this (set_prop params (js "timestamp") (VNumber ts))
                      None None.
Proof.
  intros Hnd. unfold generateSignature, signedParams.
  rewrite assign_prop_other by by_compute.
  rewrite (_buildSignString_same_entries
             (set_prop (filterParams defaultExcludeKeys params)
                       (js "timestamp") (VNumber ts))
             (filterParams defaultExcludeKeys
                           (set_prop params (js "timestamp") (VNumber ts))));
    [done| | |].
  - by apply set_prop_keys_NoDup, filterParams_keys_NoDup.
  - by apply filterParams_keys_NoDup, set_prop_keys_NoDup.
  - intros k v.
    rewrite elem_of_set_prop by (by apply filterParams_keys_NoDup).
    rewrite !elem_of_filterParams by (try done; by apply set_prop_keys_NoDup).
    rewrite elem_of_set_prop by done.
    assert (Hts : js "timestamp" ∉ defaultExcludeKeys) by by_compute.
    assert (Hnum : ¬ empty_value (VNumber ts)) by (by intros [|[|[|[|]]]]).
    assert (Hkey : js "timestamp" ≠ js "__proto__") by by_compute.
    split.
    + intros [[-> ->]|(Hne & Hin & Hex & Hv & Hk)]; [|by split_and!; try right].
      split_and!; [by left|done|done|done].
    + intros ([[-> ->]|[Hne Hin]] & Hex & Hv & Hk); [by left|by right].
Qed.

Lemma external_timestamp_overwrites_witness :
  generateSignature demo_validator timed_params (Some (Finite 1700000000 0)) None
  = generateSignature demo_validator
      [(js "timestamp", VNumber (Finite 1700000000 0))] None None.
Proof.
  apply (external_timestamp_overwrites demo_validator timed_params
           (Finite 1700000000 0)).
  by_compute.
Defined.

(** ** Further properties *)

(** X1. The canonical string is written in unreserved characters, [%], [=]
    and [&]: it holds no space and no [+] (a space of a key or value is
    written [%20]), and its UTF-8 octets, the octets that are signed, are
    its code units. *)
Theorem canonical_string_alphabet (params : Props) (text : JsString) :
  _buildSignString params = Ok text →
  Forall (fun c => canonical_unit c = true) text
  ∧ (0x20 ∉ text) ∧ (0x2B ∉ text)
  ∧ Buffer_from text = text.
Proof.
  intros Htext. pose proof (_buildSignString_units _ _ Htext) as Hunits.
  split_and!; [done| | |].
  - intros Hin. rewrite Forall_forall in Hunits. by specialize (Hunits _ Hin).
  - intros Hin. rewrite Forall_forall in Hunits. by specialize (Hunits _ Hin).
  - apply Buffer_from_ascii. eapply Forall_impl; [done|].
    apply canonical_unit_ascii.
Qed.

Lemma canonical_string_alphabet_witness :
  _buildSignString spaced_params = Ok (js "note=a%20b%2Bc")
  ∧ Forall (fun c => canonical_unit c = true) (js "note=a%20b%2Bc")
  ∧ (0x20 ∉ js "note=a%20b%2Bc") ∧ (0x2B ∉ js "note=a%20b%2Bc")
  ∧ Buffer_from (js "note=a%20b%2Bc") = js "note=a%20b%2Bc".
Proof.
  split; [reflexivity|].
  apply (canonical_string_alphabet spaced_params). reflexivity.
Defined.

(** X2. The canonical string is unambiguous: two objects whose keys and
    normalised values are strings of 16-bit code units and whose canonical
    strings are equal have the same keys and, key by key, the same
    normalised value.  No choice of keys and values, with [=], [&] or [%]
    in them, makes one object pass for another. *)
Theorem canonical_string_unambiguous (p1 p2 : Props) (text : JsString) :
  code_unit_entries p1 → code_unit_entries p2 →
  _buildSignString p1 = Ok text → _buildSignString p2 = Ok text →
  p1.*1 ≡ₚ p2.*1
  ∧ ∀ k, k ∈ p1.*1 →
         _normalizeValue (get_prop p1 k) = _normalizeValue (get_prop p2 k).
Proof. apply _buildSignString_inj. Qed.

Lemma canonical_string_unambiguous_witness :
  [js "a"; js "b"] ≡ₚ [js "b"; js "a"]
  ∧ ∀ k, k ∈ [js "a"; js "b"] →
         _normalizeValue (get_prop [(js "a", VString (js "1&b=2")); (js "b", VNumber (Finite 3 0))] k)
         = _normalizeValue (get_prop [(js "b", VString (js "3")); (js "a", VString (js "1&b=2"))] k).
Proof.
  apply (canonical_string_unambiguous
           [(js "a", VString (js "1&b=2")); (js "b", VNumber (Finite 3 0))]
           [(js "b", VString (js "3")); (js "a", VString (js "1&b=2"))]
           (js "a=1%26b%3D2&b=3")).
  - by_compute.
  - by_compute.
  - reflexivity.
  - reflexivity.
Defined.

(** X3. [validate] accepts one signature only: when it returns [true],
    [signature] is, code unit for code unit, the string
    [generateSignature(params)] returns, 64 lowercase hexadecimal digits;
    the same digits in upper case, or with anything added, are rejected. *)
Theorem validate_accepts_only_the_signature (w : World) (this : t) (params : Props)
        (signature : JsString) (timestampTolerance : option JsNumber) :
  validate w this params signature timestampTolerance = Ok true →
  generateSignature this params None None = Ok signature
  ∧ length signature = 64%nat
  ∧ Forall (fun c => is_lower_hex c = true) signature.
Proof.
  intros Hgen%validate_true_inv. split; [done|].
  unfold generateSignature in Hgen.
  apply bind_Ok in Hgen as (text & _ & [= <-]).
  apply createHmac_sha256_hex_shape.
Qed.

Lemma validate_accepts_only_the_signature_witness :
  generateSignature demo_validator payment_params None None = Ok payment_signature
  ∧ length payment_signature = 64%nat
  ∧ Forall (fun c => is_lower_hex c = true) payment_signature.
Proof.
  apply (validate_accepts_only_the_signature clock_1000 _ _ _ None).
  vm_compute. reflexivity.
Defined.

(** X4. Inside the replay window the time stamp plays no part: when
    [params.timestamp] is an integer with [|now - params.timestamp|] at
    most the tolerance (integers that doubles hold exactly), [validate]
    answers as it does without a tolerance, so [true] for the signature of
    the parameters. *)
Theorem validate_fresh_timestamp (w : World) (this : t) (params : Props)
        (signature : JsString) (ts tolerance : Z) :
  get_prop params (js "timestamp") = VNumber (Finite ts 0) →
  (Z.abs (Date_now w / 1000) < 2 ^ 52)%Z → (Z.abs ts < 2 ^ 52)%Z →
  (Z.abs tolerance < 2 ^ 53)%Z →
  (Z.abs (Date_now w / 1000 - ts) ≤ tolerance)%Z →
  validate w this params signature (Some (Finite tolerance 0))
  = validate w this params signature None
  ∧ (generateSignature this params None None = Ok signature →
     validate w this params signature (Some (Finite tolerance 0)) = Ok true).
Proof.
  intros Hts Hnow Hsafe Htol Hwithin.
  assert (validate w this params signature (Some (Finite tolerance 0))
          = validate w this params signature None) as Heq.
  { rewrite !validate_outcome. unfold stale.
    rewrite Hts, _checkTimestamp_integers by done.
    apply Z.leb_le in Hwithin as ->. by rewrite andb_false_r. }
  split; [done|]. intros Hgen. rewrite Heq, validate_outcome. simpl.
  rewrite Hgen. simpl. by rewrite bool_decide_eq_true_2.
Qed.

Lemma validate_fresh_timestamp_witness :
  validate clock_1000 demo_validator timed_params timed_signature
           (Some (Finite 300 0))
  = validate clock_1000 demo_validator timed_params timed_signature None
  ∧ (generateSignature demo_validator timed_params None None = Ok timed_signature →
     validate clock_1000 demo_validator timed_params timed_signature
              (Some (Finite 300 0)) = Ok true).
Proof.
  apply (validate_fresh_timestamp clock_1000 _ _ _ 1000 300);
    [reflexivity|vm_compute; reflexivity|vm_compute; reflexivity
     |vm_compute; reflexivity|vm_compute; discriminate].
Defined.

(** X5. A malformed time stamp fails closed: when [params.timestamp] is
    [true], a plain object (also one on which [String] raises), or a
    non-empty string in which [parseInt] reads no number, [validate] with a
    tolerance returns [false]; it does so for every signature, before an
    expected signature is computed, hence also for parameters on which
    [generateSignature] throws. *)
Theorem validate_malformed_timestamp (w : World) (this : t) (params : Props)
        (signature : JsString) (tolerance : JsNumber) :
  unparseable_timestamp (get_prop params (js "timestamp")) →
  validate w this params signature (Some tolerance) = Ok false.
Proof.
  intros Hts. rewrite validate_outcome. unfold stale.
  destruct Hts as [->|[[props ->]|(s & -> & Hs & Hparse)]].
  - done.
  - rewrite _checkTimestamp_text by done. unfold String_.
    by destruct (String_raises _).
  - rewrite _checkTimestamp_text by done. unfold String_. cbn [String_raises ToString].
    rewrite Hparse. cbn [ToBoolean]. by rewrite bool_decide_eq_false_2.
Qed.

Lemma validate_malformed_timestamp_witness :
  generateSignature demo_validator malformed_timestamp_params None None
  = Throw URIError
  ∧ validate clock_1000 demo_validator malformed_timestamp_params
             payment_signature (Some (Finite 300 0)) = Ok false.
Proof.
  split; [reflexivity|].
  apply validate_malformed_timestamp.
  right. right. exists (js "soon"). split_and!; [reflexivity|done|reflexivity].
Defined.

(** X6. A time stamp given as a string is read by [parseInt]: the decimal
    digits of an integer, alone or followed by text that starts with
    another character, are checked as that integer.  Text after the digits
    is never a reason to reject. *)
Theorem timestamp_decimal_string (w : World) (n : N) (junk : JsString)
        (tolerance : JsNumber) :
  (n < 2 ^ 53)%N →
  junk = [] ∨ (∃ x rest, junk = x :: rest ∧ is_digit x = false) →
  _checkTimestamp w (VString (decimal_digits n ++ junk)) tolerance
  = _checkTimestamp w (VNumber (Finite (Z.of_N n) 0)) tolerance.
Proof. intros _. apply _checkTimestamp_digits. Qed.

Lemma timestamp_decimal_string_witness :
  _checkTimestamp clock_1000 (VString (js "1000 UTC")) (Finite 300 0)
  = _checkTimestamp clock_1000 (VNumber (Finite 1000 0)) (Finite 300 0).
Proof.
  apply (timestamp_decimal_string clock_1000 1000 (js " UTC")).
  - reflexivity.
  - right. by exists 0x20, (js "UTC").
Defined.

(** X7. A field whose value is empty ([null], [undefined], [''], [[]] or
    [{}]) is signed like an absent field: setting a key to an empty value
    gives the signature of the parameters without the key. *)
Theorem empty_field_is_not_signed (this : t) (params : Props) (k : JsString)
        (v : JsValue) (timestamp : option JsNumber)
        (excludeKeys : option (gset JsString)) :
  NoDup params.*1 → empty_value v →
  generateSignature this (set_prop params k v) timestamp excludeKeys
  = generateSignature this (delete_prop params k) timestamp excludeKeys.
Proof. apply generateSignature_empty_field. Qed.

Lemma empty_field_is_not_signed_witness :
  generateSignature demo_validator
                    (set_prop payment_params (js "amount") (VArray [])) None None
  = generateSignature demo_validator (delete_prop payment_params (js "amount"))
                      None None.
Proof.
  apply empty_field_is_not_signed; [by_compute|].
  right. right. right. by left.
Defined.

(** X8. A set of keys given as [excludeKeys] takes the place of the default
    set: the value of a key in it, present or not, has no part in the
    signature. *)
Theorem excluded_field_is_not_signed (this : t) (params : Props) (k : JsString)
        (v : JsValue) (timestamp : option JsNumber) (keys : gset JsString) :
  NoDup params.*1 → k ∈ keys →
  generateSignature this (set_prop params k v) timestamp (Some keys)
  = generateSignature this params timestamp (Some keys).
Proof. apply generateSignature_excluded_field. Qed.

Lemma excluded_field_is_not_signed_witness :
  generateSignature demo_validator
                    (set_prop payment_params (js "amount") (VNumber (Finite 1 0)))
                    None (Some {[ js "amount" ]})
  = generateSignature demo_validator payment_params None (Some {[ js "amount" ]}).
Proof.
  apply excluded_field_is_not_signed; [by_compute|].
  by apply elem_of_singleton.
Defined.

(** X9. The signature does not tell a value from the string of its
    canonical text: a value that is signed (one that is not empty) and
    the string [_normalizeValue] gives for it sign alike, so the number
    [39.99] and the string ['39.99'], or an object and its JSON text. *)
Theorem value_signs_as_its_text (this : t) (params : Props) (k : JsString)
        (v : JsValue) (timestamp : option JsNumber)
        (excludeKeys : option (gset JsString)) :
  NoDup params.*1 → _isValidValue v = true →
  generateSignature this (set_prop params k v) timestamp excludeKeys
  = generateSignature this (set_prop params k (VString (_normalizeValue v)))
                      timestamp excludeKeys.
Proof. apply generateSignature_value_text. Qed.

Lemma value_signs_as_its_text_witness :
  generateSignature demo_validator
                    (set_prop payment_params (js "amount") (VNumber (Finite 3999 2)))
                    None None
  = generateSignature demo_validator
                      (set_prop payment_params (js "amount") (VString (js "39.99")))
                      None None.
Proof.
  apply (value_signs_as_its_text _ _ _ (VNumber (Finite 3999 2)));
    [by_compute|reflexivity].
Defined.

(** X10. The object [_sortObjectKeys] returns holds the keys of the object
    it is given, [__proto__] apart (the assignment [result[key] = ...]
    defines no property for it), and [Object.keys] and [JSON.stringify]
    list them in this order: the keys that are array indices first, by
    numeric value, then the other keys by code units.  The order is not
    that of the strings when an index is among them: ['9'] comes before
    ['10']. *)
Theorem sorted_object_enumeration (props sorted : Props) :
  NoDup props.*1 →
  _sortObjectKeys (VObject props) = VObject sorted →
  StronglySorted key_le (Object_keys sorted)
  ∧ NoDup (Object_keys sorted)
  ∧ ∀ k, k ∈ Object_keys sorted ↔ k ∈ props.*1 ∧ k ≠ js "__proto__".
Proof. apply _sortObjectKeys_enumeration_aux. Qed.

Lemma sorted_object_enumeration_witness :
  Object_keys [(js "10", VNumber (Finite 2 0)); (js "9", VNumber (Finite 3 0));
               (js "a", VNumber (Finite 4 0)); (js "b", VNumber (Finite 1 0))]
  = [js "9"; js "10"; js "a"; js "b"]
  ∧ StronglySorted key_le
      (Object_keys [(js "10", VNumber (Finite 2 0)); (js "9", VNumber (Finite 3 0));
                    (js "a", VNumber (Finite 4 0)); (js "b", VNumber (Finite 1 0))])
  ∧ NoDup
      (Object_keys [(js "10", VNumber (Finite 2 0)); (js "9", VNumber (Finite 3 0));
                    (js "a", VNumber (Finite 4 0)); (js "b", VNumber (Finite 1 0))])
  ∧ ∀ k, k ∈ Object_keys [(js "10", VNumber (Finite 2 0));
                          (js "9", VNumber (Finite 3 0));
                          (js "a", VNumber (Finite 4 0));
                          (js "b", VNumber (Finite 1 0))]
         ↔ k ∈ indexed_props.*1 ∧ k ≠ js "__proto__".
Proof.
  split; [reflexivity|].
  apply (sorted_object_enumeration indexed_props); [by_compute|reflexivity].
Defined.

(** X11. The canonical string is empty exactly when nothing is signed:
    every key of the parameters is excluded, has an empty value or is
    [__proto__], and no time stamp is given.  The signature is then the
    HMAC of the empty string. *)
Theorem empty_canonical_string (this : t) (params : Props)
        (excludeKeys : option (gset JsString)) :
  NoDup params.*1 →
  (_buildSignString (signedParams params None excludeKeys) = Ok []
   ↔ ∀ k v, (k, v) ∈ params →
            k ∈ finalExcludeKeys excludeKeys ∨ empty_value v ∨ k = js "__proto__")
  ∧ (_buildSignString (signedParams params None excludeKeys) = Ok [] →
     generateSignature this params None excludeKeys
     = Ok (createHmac_sha256_hex (secret this) [])).
Proof.
  intros Hnd. split.
  - rewrite _buildSignString_nil. split.
    + intros Hnil k v Hin.
      destruct (decide (k ∈ finalExcludeKeys excludeKeys)) as [|Hex]; [by left|].
      destruct (_isValidValue v) eqn:Hv;
        [|right; left; by apply _isValidValue_spec].
      destruct (decide (k = js "__proto__")) as [|Hk]; [by right; right|].
      exfalso. apply _isValidValue_true in Hv.
      assert ((k, v) ∈ signedParams params None excludeKeys) as Hsigned
        by by apply elem_of_signedParams.
      rewrite Hnil in Hsigned. by apply elem_of_nil in Hsigned.
    + intros Hall.
      destruct (signedParams params None excludeKeys) as [|[k v] rest] eqn:Hsigned;
        [done|].
      assert ((k, v) ∈ signedParams params None excludeKeys) as Hin
        by (rewrite Hsigned; by left).
      apply elem_of_signedParams in Hin as (Hin & Hex & Hv & Hk); [|done].
      by destruct (Hall k v Hin) as [?|[?|?]].
  - intros Hnil. unfold generateSignature. by rewrite Hnil.
Qed.

Lemma empty_canonical_string_witness :
  (_buildSignString
     (signedParams [(js "email", VString []); (js "sign", VString (js "ab"))]
                   None None) = Ok []
   ↔ ∀ k v, (k, v) ∈ [(js "email", VString []); (js "sign", VString (js "ab"))] →
            k ∈ finalExcludeKeys None ∨ empty_value v ∨ k = js "__proto__")
  ∧ (_buildSignString
       (signedParams [(js "email", VString []); (js "sign", VString (js "ab"))]
                     None None) = Ok [] →
     generateSignature demo_validator
                       [(js "email", VString []); (js "sign", VString (js "ab"))]
                       None None
     = Ok (createHmac_sha256_hex (secret demo_validator) [])).
Proof. apply (empty_canonical_string demo_validator). by_compute. Defined.

(** X12. The signature carried in the parameters, under [signature] or
    [sign], has no part in the verdict: [validate] answers for the
    parameters with the field as for the parameters without it.  So a
    message that carries its own signature, as a webhook body does,
    validates against it. *)
Theorem validate_ignores_signature_field (w : World) (this : t) (params : Props)
        (k : JsString) (v : JsValue) (signature : JsString)
        (timestampTolerance : option JsNumber) :
  k = js "signature" ∨ k = js "sign" →
  validate w this (set_prop params k v) signature timestampTolerance
  = validate w this params signature timestampTolerance
  ∧ (generateSignature this params None None = Ok signature →
     validate w this (set_prop params k (VString signature)) signature None
     = Ok true).
Proof.
  intros Hk. split; [by apply validate_signature_field|].
  intros Hgen. rewrite validate_signature_field by done.
  rewrite validate_outcome. simpl. rewrite Hgen. simpl.
  by rewrite bool_decide_eq_true_2.
Qed.

Lemma validate_ignores_signature_field_witness :
  validate clock_1000 demo_validator
           (set_prop payment_params (js "signature") (VString payment_signature))
           payment_signature None
  = validate clock_1000 demo_validator payment_params payment_signature None
  ∧ (generateSignature demo_validator payment_params None None
     = Ok payment_signature →
     validate clock_1000 demo_validator
              (set_prop payment_params (js "signature") (VString payment_signature))
              payment_signature None
     = Ok true).
Proof. apply validate_ignores_signature_field. by left. Defined.

(** X13. A signature made with an external time stamp is the signature of
    the parameters that carry this time stamp: [validate] accepts it for
    the parameters with [timestamp] set to it, and with a tolerance too
    while the time stamp is inside the window (here for integers that
    doubles hold exactly, and a time stamp other than 0 or not). *)
Theorem external_timestamp_round_trip (w : World) (this : t) (params : Props)
        (ts tolerance : Z) (signature : JsString) :
  NoDup params.*1 →
  generateSignature this params (Some (Finite ts 0)) None = Ok signature →
  validate w this (set_prop params (js "timestamp") (VNumber (Finite ts 0)))
           signature None
  = Ok true
  ∧ ((Z.abs (Date_now w / 1000) < 2 ^ 52)%Z → (Z.abs ts < 2 ^ 52)%Z →
     (Z.abs tolerance < 2 ^ 53)%Z →
     (Z.abs (Date_now w / 1000 - ts) ≤ tolerance)%Z →
     validate w this (set_prop params (js "timestamp") (VNumber (Finite ts 0)))
              signature (Some (Finite tolerance 0)) = Ok true).
Proof.
  intros Hnd Hgen. rewrite generateSignature_external_timestamp in Hgen by done.
  assert (validate w this (set_prop params (js "timestamp") (VNumber (Finite ts 0)))
                   signature None = Ok true) as Hvalid.
  { rewrite validate_outcome. simpl. rewrite Hgen. simpl.
    by rewrite bool_decide_eq_true_2. }
  split; [done|]. intros Hnow Hsafe Htol Hwithin.
  rewrite validate_outcome. unfold stale.
  rewrite get_prop_set_prop, bool_decide_eq_true_2 by done.
  rewrite _checkTimestamp_integers by done.
  apply Z.leb_le in Hwithin as ->. rewrite andb_false_r. rewrite Hgen. simpl.
  by rewrite bool_decide_eq_true_2.
Qed.

Lemma external_timestamp_round_trip_witness :
  validate clock_1000 demo_validator
           (set_prop payment_params (js "timestamp") (VNumber (Finite 900 0)))
           (createHmac_sha256_hex demo_secret
                                  (js "amount=39.99&app_id=A1&timestamp=900"))
           None = Ok true
  ∧ validate clock_1000 demo_validator
             (set_prop payment_params (js "timestamp") (VNumber (Finite 900 0)))
             (createHmac_sha256_hex demo_secret
                                    (js "amount=39.99&app_id=A1&timestamp=900"))
             (Some (Finite 300 0)) = Ok true.
Proof.
  destruct (external_timestamp_round_trip
              clock_1000 demo_validator payment_params 900 300
              (createHmac_sha256_hex demo_secret
                                     (js "amount=39.99&app_id=A1&timestamp=900")))
    as [Hnone Hsome]; [by_compute|vm_compute; reflexivity|].
  split; [exact Hnone|].
  apply Hsome; vm_compute; (reflexivity || discriminate).
Defined.

(** X14. The convenience functions: [quickValidate] returns [true] for the
    signature [quickSign] returns and for no other; with an empty or blank
    secret both throw the error of the constructor, and [quickValidate]
    does not answer [false]. *)
Theorem quick_functions (w : World) (params : Props) (signature secret : JsString) :
  (quickValidate w params signature secret = Ok true
   ↔ quickSign params secret = Ok signature)
  ∧ (blank secret →
     quickSign params secret = Throw (Error empty_secret_message)
     ∧ quickValidate w params signature secret = Throw (Error empty_secret_message)).
Proof.
  unfold quickSign, quickValidate. rewrite constructor_outcome.
  destruct (decide (blank secret)) as [Hblank|Hblank]; simpl.
  - split; [by split|done].
  - split; [|done]. split.
    + apply validate_true_inv.
    + intros Hsig. rewrite validate_outcome. simpl. rewrite Hsig. simpl.
      by rewrite bool_decide_eq_true_2.
Qed.

(** X15. The route that creates an order signs its secret: the configured
    secret is one of the parameters [generateSignature] is given and it is
    not excluded, so it is written, percent-encoded, into the canonical
    string after [secret=]. *)
Theorem create_route_signs_the_secret (PAY302_CONFIG : CreateRoute.Config)
        (body : Props) (this : t) (text : JsString) :
  constructor (CreateRoute.secret PAY302_CONFIG) = Ok this →
  _buildSignString
    (signedParams (CreateRoute.paymentParams PAY302_CONFIG body) None None)
  = Ok text →
  (js "secret", VString (CreateRoute.secret PAY302_CONFIG))
    ∈ signedParams (CreateRoute.paymentParams PAY302_CONFIG body) None None
  ∧ ∃ encoded before after,
      encodeURIComponent (CreateRoute.secret PAY302_CONFIG) = Ok encoded
      ∧ text = before ++ js "secret=" ++ encoded ++ after.
Proof.
  intros Hthis Htext.
  assert ((js "secret", VString (CreateRoute.secret PAY302_CONFIG))
            ∈ signedParams (CreateRoute.paymentParams PAY302_CONFIG body) None None)
    as Hin.
  { apply elem_of_signedParams; [apply paymentParams_NoDup|].
    split_and!.
    - unfold CreateRoute.paymentParams. solve_elem_of.
    - by_compute.
    - rewrite constructor_outcome in Hthis.
      destruct (decide (blank (CreateRoute.secret PAY302_CONFIG))) as [|Hblank];
        [done|].
      intros [H|[H|[H|[H|H]]]]; try discriminate H.
      injection H as H. apply Hblank. rewrite H. constructor.
    - by_compute. }
  split; [done|].
  destruct (_buildSignString_part
              (signedParams (CreateRoute.paymentParams PAY302_CONFIG body) None None)
              text (js "secret")) as
      (ek & ev & before & after & Hek & Hev & ->); [|done|].
  { apply list_elem_of_fmap. by eexists (_, _). }
  rewrite (get_prop_elem _ _ _ (signedParams_NoDup _ _ _) Hin) in Hev.
  injection Hek as <-.
  exists ev, before, after. split; [exact Hev|reflexivity].
Qed.

Lemma create_route_signs_the_secret_witness :
  (js "secret", VString demo_secret)
    ∈ signedParams
        (CreateRoute.paymentParams
           {| CreateRoute.appId := js "A1"; CreateRoute.secret := demo_secret;
              CreateRoute.apiUrl := [] |}
           [(js "amount", VNumber (Finite 3999 2))]) None None
  ∧ ∃ encoded before after,
      encodeURIComponent demo_secret = Ok encoded
      ∧ js "amount=39.99&app_id=A1&secret=your_secret_key_here"
        = before ++ js "secret=" ++ encoded ++ after.
Proof.
  apply (create_route_signs_the_secret
           {| CreateRoute.appId := js "A1"; CreateRoute.secret := demo_secret;
              CreateRoute.apiUrl := [] |}
           [(js "amount", VNumber (Finite 3999 2))] demo_validator);
    reflexivity.
Defined.

(** X16. The request the route sends to the gateway validates: when
    [requestData] is built, it carries a [signature] that
    [quickValidate(requestData, signature, secret)] accepts, and it
    carries the secret itself. *)
Theorem create_route_request_validates (w : World)
        (PAY302_CONFIG : CreateRoute.Config) (body requestData : Props) :
  CreateRoute.requestData PAY302_CONFIG body = Ok requestData →
  ∃ signature,
    get_prop requestData (js "signature") = VString signature
    ∧ quickValidate w requestData signature (CreateRoute.secret PAY302_CONFIG)
      = Ok true
    ∧ get_prop requestData (js "secret")
      = VString (CreateRoute.secret PAY302_CONFIG).
Proof.
  unfold CreateRoute.requestData, CreateRoute.signature.
  intros (signature & (this & Hthis & Hgen)%bind_Ok & Hdata)%bind_Ok.
  assert (requestData
          = spread_with (CreateRoute.paymentParams PAY302_CONFIG body)
                        (js "signature") (VString signature)) as ->
    by congruence.
  clear Hdata. unfold spread_with.
  exists signature. split_and!.
  - by rewrite get_prop_set_prop, bool_decide_eq_true_2.
  - unfold quickValidate. rewrite Hthis. cbn [bind].
    rewrite validate_signature_field by by left.
    rewrite validate_outcome. cbn [stale].
    rewrite generateSignature_own_properties by apply paymentParams_NoDup.
    rewrite Hgen. cbn [bind]. by rewrite bool_decide_eq_true_2.
  - rewrite get_prop_set_prop, bool_decide_eq_false_2 by by_compute.
    reflexivity.
Qed.

Lemma create_route_request_validates_witness :
  ∃ signature,
    get_prop
      (match CreateRoute.requestData
               {| CreateRoute.appId := js "A1"; CreateRoute.secret := demo_secret;
                  CreateRoute.apiUrl := [] |}
               [(js "amount", VNumber (Finite 3999 2))] with
       | Ok requestData => requestData
       | Throw _ => []
       end) (js "signature") = VString signature
    ∧ quickValidate
        clock_1000
        (match CreateRoute.requestData
                 {| CreateRoute.appId := js "A1"; CreateRoute.secret := demo_secret;
                    CreateRoute.apiUrl := [] |}
                 [(js "amount", VNumber (Finite 3999 2))] with
         | Ok requestData => requestData
         | Throw _ => []
         end) signature demo_secret = Ok true
    ∧ get_prop
        (match CreateRoute.requestData
                 {| CreateRoute.appId := js "A1"; CreateRoute.secret := demo_secret;
                    CreateRoute.apiUrl := [] |}
                 [(js "amount", VNumber (Finite 3999 2))] with
         | Ok requestData => requestData
         | Throw _ => []
         end) (js "secret") = VString demo_secret.
Proof.
  apply (create_route_request_validates
           clock_1000
           {| CreateRoute.appId := js "A1"; CreateRoute.secret := demo_secret;
              CreateRoute.apiUrl := [] |}
           [(js "amount", VNumber (Finite 3999 2))]).
  vm_compute. reflexivity.
Defined.

(** X17. A time stamp given as a string of decimal digits is checked
    whatever the number it reads as: beyond the tolerance [validate]
    returns [false] for every signature, also for ['0'], which is a
    non-empty string and so passes the test of the guard that the number
    [0] fails. *)
Theorem validate_rejects_stale_string (w : World) (this : t) (params : Props)
        (signature : JsString) (n : N) (junk : JsString) (tolerance : Z) :
  get_prop params (js "timestamp") = VString (decimal_digits n ++ junk) →
  junk = [] ∨ (∃ x rest, junk = x :: rest ∧ is_digit x = false) →
  (Z.abs (Date_now w / 1000) < 2 ^ 52)%Z → (Z.of_N n < 2 ^ 52)%Z →
  (Z.abs tolerance < 2 ^ 53)%Z →
  (tolerance < Z.abs (Date_now w / 1000 - Z.of_N n))%Z →
  validate w this params signature (Some (Finite tolerance 0)) = Ok false.
Proof.
  intros Hts Hjunk Hnow Hsafe Htol Hstale. rewrite validate_outcome. unfold stale.
  rewrite Hts, _checkTimestamp_digits, _checkTimestamp_integers by (done || lia).
  cbn [ToBoolean]. rewrite bool_decide_eq_false_2 by apply decimal_digits_not_nil.
  by apply Z.leb_gt in Hstale as ->.
Qed.

Lemma validate_rejects_stale_string_witness :
  validate clock_1000 demo_validator [(js "timestamp", VString (js "0"))]
           epoch_signature (Some (Finite 300 0)) = Ok false.
Proof.
  apply (validate_rejects_stale_string clock_1000 _ _ _ 0 [] 300);
    [reflexivity|by left|vm_compute; reflexivity|vm_compute; reflexivity
     |vm_compute; reflexivity|vm_compute; reflexivity].
Defined.

(** X18. The window is computed in double arithmetic: the difference
    [currentTime - ts] is rounded to the nearest double before it is
    compared.  With the clock at 1 s, the time stamp 2^53 + 2 and the
    tolerance 2^53, the difference 2^53 + 1 is beyond the tolerance and is
    no double; it rounds to 2^53 and the check passes. *)
Theorem timestamp_difference_is_rounded :
  (Date_now rounding_clock / 1000 = 1)%Z
  ∧ (2 ^ 53 < Z.abs (1 - (2 ^ 53 + 2)))%Z
  ∧ Number_subtract (currentTime rounding_clock) (ToDouble (Finite (2 ^ 53 + 2) 0))
    = DFinite (- 2 ^ 52) 1
  ∧ _checkTimestamp rounding_clock (VNumber (Finite (2 ^ 53 + 2) 0))
                    (Finite (2 ^ 53) 0) = true.
Proof. split_and!; [reflexivity|reflexivity|vm_compute; reflexivity|vm_compute; reflexivity]. Qed.
